(** * A sequential model of the lock-free priority queue

    Shallow embedding of [src/priority_queue.hpp] (namespace [lockfree],
    class [_priority_queue<T,K>] with [K = int]) and the properties of its
    single-threaded executions.

    Modelling choices.
    - Pointers ([Node *], [T *]) are [uintptr_t] values: integers in
      [0, 2^64).  The null pointer is [0]; the tag bit is bit 0.
    - The [counter] field is a 32-bit [int]; atomic [+= 1] wraps around,
      the plain [old_counter - 1] faults on signed overflow.
    - Node storage is a finite map from addresses to node records;
      dereferencing an address that holds no node is a [Fault].
    - [operator new] is a bump allocator over the address space; when the
      address space is exhausted it raises [BadAlloc].
    - Every atomic member is a cell ([slot]); one thread runs at a time, so
      a compare-exchange succeeds exactly when the cell holds the expected
      value (no spurious failure of [compare_exchange_weak]).
    - Every loop of the source is a [loop] bounded by a fuel argument;
      running out of fuel is the outcome [OutOfFuel].
    - [delete] on a node removes it from the node storage; the payloads
      the destructor deletes are returned as a list.
    - The member functions of the class template are instantiated when
      they are called.  A member whose body does not compile has no
      instantiation: calling it has the outcome [IllFormed].  This is the
      case of [pop( K )], whose line 168 hands a [std::atomic< T * >] to
      [get_unmarked]. *)

From stdpp Require Import base numbers option list gmap.
From Stdlib Require Import ZArith Lia Sorting.Sorted Sorting.Permutation.

Local Open Scope Z_scope.

(** ** Machine integers *)

Definition uintptr_bits : Z := 64.
Definition uintptr_max : Z := 2 ^ uintptr_bits - 1.

Definition int_min : Z := - 2 ^ 31.
Definition int_max : Z := 2 ^ 31 - 1.

(** Two's complement wrap-around of a 32-bit [int]. *)
Definition wrap_int (z : Z) : Z := (z + 2 ^ 31) mod 2 ^ 32 - 2 ^ 31.

(** ** Tagged pointers (lines 32-44) *)

Definition get_marked (i : Z) : Z := Z.lor i 1.

Definition get_unmarked (i : Z) : Z := Z.land i (uintptr_max - 1).

Definition is_marked (i : Z) : bool := negb (Z.land i 1 =? 0).

(** The static type of the argument at a call of [get_marked],
    [get_unmarked] or [is_marked]: a pointer, or the [std::atomic] member
    that holds one. *)
Inductive argument : Type :=
| Pointer          (* U *: a local variable, or the result of x.load( ) *)
| AtomicPointer.   (* std::atomic< U * >: the member x itself *)

(** [template< class U > ... ( U *i )]: [U] is deduced by matching the
    parameter type [U *] against the type of the argument.  Deduction does
    not look through the conversion operator of [std::atomic], so it
    succeeds on a pointer and fails on a [std::atomic]; when it fails the
    call has no viable function. *)
Definition deduces (a : argument) : bool :=
  match a with
  | Pointer => true
  | AtomicPointer => false
  end.

(** ** Nodes and the queue object *)

Record Node : Type := mkNode {
  key : Z;        (* K key *)
  counter : Z;    (* std::atomic<int> counter *)
  value : Z;      (* std::atomic<T *> value *)
  next : Z        (* std::atomic<Node *> next *)
}.

Definition set_key (k : Z) (n : Node) : Node :=
  mkNode k (counter n) (value n) (next n).
Definition set_counter (c : Z) (n : Node) : Node :=
  mkNode (key n) c (value n) (next n).
Definition set_value (v : Z) (n : Node) : Node :=
  mkNode (key n) (counter n) v (next n).
Definition set_next (p : Z) (n : Node) : Node :=
  mkNode (key n) (counter n) (value n) p.

Record queue : Type := mkQueue {
  mem : gmap Z Node;   (* node storage *)
  free_list : Z;       (* std::atomic<Node *> free_list *)
  head : Z;            (* std::atomic<Node *> head *)
  tail : Z;            (* Node *tail *)
  brk : Z              (* next address handed out by operator new *)
}.

Definition with_mem (m : gmap Z Node) (s : queue) : queue :=
  mkQueue m (free_list s) (head s) (tail s) (brk s).
Definition with_free_list (p : Z) (s : queue) : queue :=
  mkQueue (mem s) p (head s) (tail s) (brk s).
Definition with_head (p : Z) (s : queue) : queue :=
  mkQueue (mem s) (free_list s) p (tail s) (brk s).
Definition with_tail (p : Z) (s : queue) : queue :=
  mkQueue (mem s) (free_list s) (head s) p (brk s).

(** ** The monad of queue operations *)

Inductive result (A : Type) : Type :=
| Ok (a : A) (s : queue)
| Fault          (* undefined behaviour: invalid dereference, overflow,
                    falling off the end of a non-void function *)
| BadAlloc       (* operator new throws *)
| OutOfFuel
| IllFormed.     (* the call does not compile: there is nothing to run *)

Arguments Ok {A} a s.
Arguments Fault {A}.
Arguments BadAlloc {A}.
Arguments OutOfFuel {A}.
Arguments IllFormed {A}.

Definition M (A : Type) : Type := queue -> result A.

Definition ret {A} (a : A) : M A := fun s => Ok a s.

Definition bind {A B} (m : M A) (k : A -> M B) : M B :=
  fun s =>
    match m s with
    | Ok a s' => k a s'
    | Fault => Fault
    | BadAlloc => BadAlloc
    | OutOfFuel => OutOfFuel
    | IllFormed => IllFormed
    end.

Definition fault {A} : M A := fun _ => Fault.

Definition ill_formed {A} : M A := fun _ => IllFormed.

Notation "x <- m ;; k" := (bind m (fun x => k))
  (at level 62, m at level 60, right associativity, only parsing).
Notation "m ;;; k" := (bind m (fun _ => k))
  (at level 62, right associativity, only parsing).

(** A loop: [body] either continues with a new loop state ([inl]) or
    leaves the loop with a result ([inr]). *)
Fixpoint loop {A B} (fuel : nat) (body : A -> M (A + B)) (a : A) : M B :=
  match fuel with
  | O => fun _ => OutOfFuel
  | S fuel' =>
      r <- body a ;;
      match r with
      | inl a' => loop fuel' body a'
      | inr b => ret b
      end
  end.

(** ** Memory cells *)

(** The members of the queue object and of its nodes that the code reads
    and writes. *)
Inductive slot : Type :=
| FreeList                (* this->free_list *)
| Head                    (* this->head *)
| KeyOf (p : Z)           (* p->key *)
| CounterOf (p : Z)       (* p->counter *)
| ValueOf (p : Z)         (* p->value *)
| NextOf (p : Z).         (* p->next *)

(** The content of a cell; [None] when the cell belongs to an address
    that holds no node. *)
Definition cell (s : queue) (c : slot) : option Z :=
  match c with
  | FreeList => Some (free_list s)
  | Head => Some (head s)
  | KeyOf p => key <$> mem s !! p
  | CounterOf p => counter <$> mem s !! p
  | ValueOf p => value <$> mem s !! p
  | NextOf p => next <$> mem s !! p
  end.

Definition put (c : slot) (v : Z) (s : queue) : queue :=
  match c with
  | FreeList => with_free_list v s
  | Head => with_head v s
  | KeyOf p => with_mem (alter (set_key v) p (mem s)) s
  | CounterOf p => with_mem (alter (set_counter v) p (mem s)) s
  | ValueOf p => with_mem (alter (set_value v) p (mem s)) s
  | NextOf p => with_mem (alter (set_next v) p (mem s)) s
  end.

Definition load (c : slot) : M Z :=
  fun s => match cell s c with
           | Some v => Ok v s
           | None => Fault
           end.

Definition store (c : slot) (v : Z) : M unit :=
  fun s => match cell s c with
           | Some _ => Ok tt (put c v s)
           | None => Fault
           end.

(** [c.compare_exchange_{weak,strong}(expected, desired)]; the source never
    uses the value written back into [expected] on failure. *)
Definition compare_exchange (c : slot) (expected desired : Z) : M bool :=
  cur <- load c ;;
  if cur =? expected then store c desired ;;; ret true else ret false.

(** [p->counter += 1] *)
Definition fetch_add_counter (p : Z) : M unit :=
  c <- load (CounterOf p) ;; store (CounterOf p) (wrap_int (c + 1)).

Definition get_tail : M Z := fun s => Ok (tail s) s.

(** [new Node(...)]: a bump allocator handing out blocks of [node_stride]
    bytes. *)
Definition node_stride : Z := 32.
Definition heap_base : Z := 32.

Definition alloc (n : Node) (s : queue) : queue :=
  mkQueue (<[brk s := n]> (mem s)) (free_list s) (head s) (tail s)
          (brk s + node_stride).

Definition new_Node (n : Node) : M Z :=
  fun s =>
    if brk s + node_stride <=? uintptr_max + 1 then Ok (brk s) (alloc n s)
    else BadAlloc.

(** ** Reference counting (lines 49-82) *)

(** [reclaim]: push [node] on the free list. *)
Definition reclaim (fuel : nat) (node : Z) : M unit :=
  loop fuel
    (fun _ : unit =>
       free_ptr <- load FreeList ;;
       store (NextOf node) free_ptr ;;;
       ok <- compare_exchange FreeList free_ptr node ;;
       ret (if ok then inr tt else inl tt))
    tt.

(** [release]: drop one reference; at zero, release the successor and
    reclaim the node. *)
Fixpoint release (fuel : nat) (node : Z) : M unit :=
  match fuel with
  | O => fun _ => OutOfFuel
  | S fuel' =>
      if node =? 0 then ret tt
      else
        new_counter <-
          loop fuel'
            (fun _ : unit =>
               old_counter <- load (CounterOf node) ;;
               if old_counter =? int_min then fault
               else
                 let new_counter := old_counter - 1 in
                 ok <- compare_exchange (CounterOf node)
                                        old_counter new_counter ;;
                 ret (if ok then inr new_counter else inl tt))
            tt ;;
        if negb (new_counter =? 0) then ret tt
        else
          nx <- load (NextOf node) ;;
          release fuel' (get_unmarked nx) ;;;
          reclaim fuel' node
  end.

(** [safe_read]: load a pointer from a cell and take a reference on it. *)
Definition safe_read (fuel : nat) (node : slot) : M Z :=
  loop fuel
    (fun _ : unit =>
       read <- load node ;;
       if read =? 0 then ret (inr 0)
       else if is_marked read then ret (inr 0)
       else
         fetch_add_counter read ;;;
         again <- load node ;;
         if read =? again then ret (inr read)
         else release fuel read ;;; ret (inl tt))
    tt.

(** ** Node supply (lines 84-98) *)

Definition get_new_node (fuel : nat) (val k : Z) : M Z :=
  loop fuel
    (fun _ : unit =>
       new_node <- safe_read fuel FreeList ;;
       if new_node =? 0 then
         p <- new_Node (mkNode k 1 val 0) ;; ret (inr p)
       else
         nx <- load (NextOf new_node) ;;
         ok <- compare_exchange FreeList new_node nx ;;
         if ok then
           fetch_add_counter new_node ;;;
           store (KeyOf new_node) k ;;;
           store (ValueOf new_node) val ;;;
           ret (inr new_node)
         else release fuel new_node ;;; ret (inl tt))
    tt.

(** ** Helping a deletion and stepping to the successor (lines 99-134) *)

(** The first loop of [help_delete]: make sure the link of [node] is
    marked; the result is the value of [next] when the loop is left. *)
Definition mark_next (fuel : nat) (node : Z) : M Z :=
  loop fuel
    (fun _ : unit =>
       nx <- load (NextOf node) ;;
       if is_marked nx then ret (inr nx)
       else
         ok <- compare_exchange (NextOf node) nx (get_marked nx) ;;
         ret (if ok then inr nx else inl tt))
    tt.

(** The inner [while] of [help_delete]: walk until the node, the tail or
    a smaller key is met.  [rd] is [read_next]. *)
Definition find_prev (fuel : nat) (rd : Z -> M Z) (tl node : Z)
    (prev node_tmp : Z) : M (Z * Z) :=
  loop fuel
    (fun '(prev, node_tmp) =>
       go <- (if negb (node_tmp =? node) && negb (node_tmp =? tl) then
                k <- load (KeyOf node) ;;
                k_tmp <- load (KeyOf node_tmp) ;;
                ret (negb (k >? k_tmp))
              else ret false) ;;
       if go : bool then
         release fuel prev ;;;
         nx <- rd node_tmp ;;
         ret (inl (node_tmp, nx))
       else ret (inr (prev, node_tmp)))
    (prev, node_tmp).

(** The second loop of [help_delete]: find the predecessor of [node] and
    swing its link to [nx]; the result is [(prev, node_tmp, assigned)]. *)
Definition unlink (fuel : nat) (rd : Z -> M Z) (node nx : Z)
    : M (Z * Z * bool) :=
  loop fuel
    (fun '(prev, node_tmp) =>
       release fuel prev ;;;
       release fuel node_tmp ;;;
       prev <- safe_read fuel Head ;;
       node_tmp <- rd prev ;;
       tl <- get_tail ;;
       pn <- find_prev fuel rd tl node prev node_tmp ;;
       let '(prev, node_tmp) := pn in
       if node_tmp =? node then
         assigned <- compare_exchange (NextOf prev) node nx ;;
         if assigned : bool then ret (inr (prev, node_tmp, true))
         else ret (inl (prev, node_tmp))
       else ret (inr (prev, node_tmp, false)))
    (0, 0).

Fixpoint help_delete (fuel : nat) (node : Z) : M Z :=
  match fuel with
  | O => fun _ => OutOfFuel
  | S fuel' =>
      nx <- mark_next fuel' node ;;
      let nx := get_unmarked nx in
      if nx =? 0 then safe_read fuel' Head
      else
        r <- unlink fuel' (read_next fuel') node nx ;;
        let '(prev, node_tmp, assigned) := r in
        store (NextOf node) 1 ;;;
        (if assigned : bool then release fuel' node else ret tt) ;;;
        release fuel' node_tmp ;;;
        ret prev
  end
with read_next (fuel : nat) (node : Z) : M Z :=
  match fuel with
  | O => fun _ => OutOfFuel
  | S fuel' =>
      nx <- safe_read fuel' (NextOf node) ;;
      loop fuel'
        (fun '(node, nx) =>
           if negb (nx =? 0) then ret (inr nx)
           else
             node <- help_delete fuel' node ;;
             nx <- safe_read fuel' (NextOf node) ;;
             release fuel' node ;;;
             ret (inl (node, nx)))
        (node, nx)
  end.

(** ** The public operations (lines 140-203) *)

(** One round of the inner [while] of [insert]: test the condition on
    [(prev, node)] and step to the next pair. *)
Definition find_position_step (fuel : nat) (k : Z) (pn : Z * Z)
    : M (Z * Z + Z * Z) :=
  let '(prev, node) := pn in
  k_node <- load (KeyOf node) ;;
  tl <- get_tail ;;
  if negb (k >? k_node) && negb (node =? tl) then
    release fuel prev ;;;
    nx <- read_next fuel node ;;
    ret (inl (node, nx))
  else ret (inr (prev, node)).

(** The inner [while] of [insert]: find the two nodes surrounding the
    insertion point. *)
Definition find_position (fuel : nat) (k : Z) (prev node : Z) : M (Z * Z) :=
  loop fuel (find_position_step fuel k) (prev, node).

(** One round of the [do ... while ( !inserted )] of [insert]. *)
Definition insert_step (fuel : nat) (k new_node : Z) (_ : unit)
    : M (unit + unit) :=
  prev <- safe_read fuel Head ;;
  node <- read_next fuel prev ;;
  pn <- find_position fuel k prev node ;;
  let '(prev, node) := pn in
  store (NextOf new_node) node ;;;
  inserted <- compare_exchange (NextOf prev) node new_node ;;
  release fuel prev ;;;
  release fuel node ;;;
  ret (if inserted : bool then inr tt else inl tt).

Definition insert (fuel : nat) (val k : Z) : M unit :=
  new_node <- get_new_node fuel val k ;;
  loop fuel (insert_step fuel k new_node) tt.

(** One round of the [while] loop of [pop( )], which is also the loop of
    [pop( K )] but for the argument on line 168.  [low] is the abort test
    on the candidate's key ([key > ret_node->key] for [pop(K)], absent for
    [pop()]); the value is read as on line 186, by [load( )].
    [inr (Some v)] is a [return v] inside the loop; [inr None] is the loop
    condition becoming false. *)
Definition pop_step (fuel : nat) (low : Z -> bool) (_ : unit)
    : M (unit + option Z) :=
  h <- load Head ;;
  ret_node <- read_next fuel h ;;
  if ret_node =? 0 then ret (inr None)
  else
    k_node <- load (KeyOf ret_node) ;;
    tl <- get_tail ;;
    if low k_node || (ret_node =? tl) then
      release fuel ret_node ;;;
      ret (inr (Some 0))
    else
      v <- load (ValueOf ret_node) ;;
      let r := get_unmarked v in
      ok <- compare_exchange (ValueOf ret_node) r (get_marked r) ;;
      if ok : bool then
        release fuel ret_node ;;;
        ret (inr (Some r))
      else
        prev <- help_delete fuel ret_node ;;
        release fuel prev ;;;
        release fuel ret_node ;;;
        ret (inl tt).

Definition pop_loop (fuel : nat) (low : Z -> bool) : M (option Z) :=
  loop fuel (pop_step fuel low) tt.

(** [T * pop( K key )] (lines 160-177); no [return] follows the loop.
    Line 168 is [ret = get_unmarked( ret_node->value )]: the argument is
    the member itself, a [std::atomic< T * >], where line 186 of [pop( )]
    has [ret_node->value.load( )], a [T *].  The body means something only
    if that call compiles. *)
Definition pop_key (fuel : nat) (k : Z) : M Z :=
  if deduces AtomicPointer then
    r <- pop_loop fuel (fun k_node => k >? k_node) ;;
    match r with
    | Some v => ret v
    | None => fault
    end
  else ill_formed.

(** [T * pop( )]: the loop is followed by [return nullptr]. *)
Definition pop (fuel : nat) : M Z :=
  r <- pop_loop fuel (fun _ => false) ;;
  match r with
  | Some v => ret v
  | None => ret 0
  end.

(** [reserve]: the loop counter [i] is declared without an initialiser;
    [i0] is the indeterminate value it starts with, and [k0], [v0] are the
    indeterminate [key] and [value] that [Node( )] leaves in a node. *)
Definition reserve_step (fuel : nat) (k0 v0 : Z) (size : Z) (i : Z)
    : M (Z + unit) :=
  if i <? size then
    p <- new_Node (mkNode k0 1 v0 0) ;;
    release fuel p ;;;
    ret (inl (i + 1))
  else ret (inr tt).

Definition reserve (fuel : nat) (i0 k0 v0 : Z) (size : Z) : M unit :=
  loop fuel (reserve_step fuel k0 v0 size) i0.

(** The first loop of the destructor, [while ( ( item = pop( ) ) )],
    returning the items it pops instead of deleting them. *)
Definition drain_step (fuel : nat) (acc : list Z) : M (list Z + list Z) :=
  item <- pop fuel ;;
  if negb (item =? 0) then ret (inl (acc ++ [item]))
  else ret (inr acc).

Definition drain (fuel : nat) : M (list Z) :=
  loop fuel (drain_step fuel) [].

(** [delete p] on a node: the storage of the node is given back.  Deleting
    the null pointer does nothing; deleting an address that holds no node
    is undefined behaviour. *)
Definition delete_node (p : Z) : M unit :=
  fun s =>
    if p =? 0 then Ok tt s
    else match mem s !! p with
         | Some _ => Ok tt (with_mem (delete p (mem s)) s)
         | None => Fault
         end.

(** The last loop of the destructor, [while( node ) node.reset( node->next )]:
    the link of the node held by the [unique_ptr] is read, the [unique_ptr]
    takes the successor and deletes the node it held. *)
Definition delete_chain (fuel : nat) (node : Z) : M unit :=
  loop fuel
    (fun node =>
       if node =? 0 then ret (inr tt)
       else
         nx <- load (NextOf node) ;;
         delete_node node ;;;
         ret (inl nx))
    node.

(** [~_priority_queue( )] (lines 205-215).  The result lists the payloads
    handed to [delete], in that order. *)
Definition priority_queue_dtor (fuel : nat) : M (list Z) :=
  items <- drain fuel ;;
  h <- safe_read fuel Head ;;
  delete_node h ;;;
  tl <- get_tail ;;
  delete_node tl ;;;
  node <- safe_read fuel FreeList ;;
  delete_chain fuel node ;;;
  ret items.

(** The constructor of [priority_queue<T,K>] for a fundamental [K]. *)
Definition priority_queue_ctor : M unit :=
  store FreeList 0 ;;;
  t <- new_Node (mkNode int_min 1 0 0) ;;
  (fun s => Ok tt (with_tail t s)) ;;;
  new_head <- new_Node (mkNode int_max 1 0 0) ;;
  store (NextOf new_head) t ;;;
  store Head new_head.

(** The storage before the constructor runs. *)
Definition blank : queue := mkQueue ∅ 0 0 0 heap_base.

(** The queue as the constructor leaves it. *)
Definition fresh_queue : queue :=
  match priority_queue_ctor blank with
  | Ok _ s => s
  | _ => blank
  end.

(** ** The abstract view of a queue state *)

(** An entry of the list is the pair of its key and of the content of its
    [value] field; the entry is live while that content is unmarked, and
    claimed (popped, not yet unlinked) once it is marked. *)
Definition entry : Type := (Z * Z)%type.

Definition live (e : entry) : bool := negb (is_marked (snd e)).

(** What [insert] does to the entries: the walk passes every entry whose
    key is not smaller than the new one. *)
Fixpoint abs_insert (k v : Z) (V : list entry) : list entry :=
  match V with
  | [] => [(k, v)]
  | e :: V' =>
      if k >? fst e then (k, v) :: e :: V'
      else e :: abs_insert k v V'
  end.

(** What the [pop] loop does to the entries: claimed entries at the front
    are unlinked until the abort test fires, the list ends, or a live entry
    is found and claimed. *)
Fixpoint abs_pop (low : Z -> bool) (V : list entry) : Z * list entry :=
  match V with
  | [] => (0, [])
  | e :: V' =>
      if low (fst e) then (0, V)
      else if is_marked (snd e) then abs_pop low V'
      else (snd e, (fst e, get_marked (snd e)) :: V')
  end.

Fixpoint abs_drain (V : list entry) : list Z :=
  match V with
  | [] => []
  | e :: V' => if is_marked (snd e) then abs_drain V' else snd e :: abs_drain V'
  end.

(** What a sequence of [insert( value, key )] calls does to the entries. *)
Definition abs_insert_all (ops : list (Z * Z)) (V : list entry) : list entry :=
  fold_left (fun V op => abs_insert (snd op) (fst op) V) ops V.

Definition nonnull (e : entry) : Prop := snd e <> 0.

(** ** The representation invariant *)

Definition valid_ptr (p : Z) : Prop :=
  0 < p <= uintptr_max /\ is_marked p = false.

(** A payload pointer as [insert] expects it: non-null and untagged. *)
Definition payload (v : Z) : Prop := valid_ptr v.

(** [chain s p L q]: following [next] from [p] visits exactly the nodes
    [L] and then arrives at [q]. *)
Fixpoint chain (s : queue) (p : Z) (L : list Z) (q : Z) : Prop :=
  match L with
  | [] => p = q
  | a :: L' =>
      p = a /\ exists nx, cell s (NextOf a) = Some nx /\ chain s nx L' q
  end.

Definition entry_at (s : queue) (a : Z) (e : entry) : Prop :=
  cell s (KeyOf a) = Some (fst e) /\ cell s (ValueOf a) = Some (snd e).

Definition stored_value (e : entry) : Prop := 0 <= snd e <= uintptr_max.

Record inv (s : queue) (V : list entry) (L F : list Z) : Prop := mkInv {
  inv_nodup : NoDup (head s :: tail s :: L ++ F);
  inv_valid : Forall valid_ptr (head s :: tail s :: L ++ F);
  inv_brk : forall p, brk s <= p -> mem s !! p = None;
  inv_brk_valid : 0 < brk s /\ is_marked (brk s) = false;
  inv_head_cnt : cell s (CounterOf (head s)) = Some 1;
  inv_tail_cnt : cell s (CounterOf (tail s)) = Some 1;
  inv_tail_next : cell s (NextOf (tail s)) = Some 0;
  inv_sentinel_keys :
    cell s (KeyOf (head s)) = Some int_max /\
    cell s (KeyOf (tail s)) = Some int_min;
  inv_chain :
    exists p1, cell s (NextOf (head s)) = Some p1 /\ chain s p1 L (tail s);
  inv_cnt :
    Forall (fun a => cell s (CounterOf a) = Some 1 \/
                     cell s (CounterOf a) = Some 2) L;
  inv_view : Forall2 (entry_at s) L V;
  inv_vals : Forall stored_value V;
  inv_sorted : Sorted Z.ge (map fst V);
  inv_free : chain s (free_list s) F 0;
  inv_free_cnt : Forall (fun a => cell s (CounterOf a) = Some 0) F
}.

(** [Inv s V]: [s] is a quiescent queue state whose list holds the
    entries [V], from head to tail. *)
Definition Inv (s : queue) (V : list entry) : Prop :=
  exists L F, inv s V L F.

(** ** Clients and reachable states *)

(** A thread making a sequence of [insert( value, key )] calls. *)
Fixpoint insert_all (fuel : nat) (ops : list (Z * Z)) : M unit :=
  match ops with
  | [] => ret tt
  | (v, k) :: ops' => insert fuel v k ;;; insert_all fuel ops'
  end.

(** A call of one of the two [pop] overloads. *)
Inductive pop_call : Type :=
| PopAny                  (* pop( ) *)
| PopAbove (t : Z).       (* pop( t ) *)

Definition do_pop (fuel : nat) (c : pop_call) : M Z :=
  match c with
  | PopAny => pop fuel
  | PopAbove t => pop_key fuel t
  end.

(** A thread making a sequence of [pop] calls; the result lists what the
    calls returned. *)
Fixpoint pop_all (fuel : nat) (cs : list pop_call) : M (list Z) :=
  match cs with
  | [] => ret []
  | c :: cs' =>
      r <- do_pop fuel c ;;
      rs <- pop_all fuel cs' ;;
      ret (r :: rs)
  end.

Definition is_uintptr (v : Z) : Prop := 0 <= v <= uintptr_max.



(** The free list as a list of addresses. *)
Fixpoint free_nodes (fuel : nat) (s : queue) (p : Z) : list Z :=
  match fuel with
  | O => []
  | S fuel' =>
      if p =? 0 then []
      else match cell s (NextOf p) with
           | Some nx => p :: free_nodes fuel' s nx
           | None => [p]
           end
  end.

(** ** Two particular states *)

(** A fresh queue after [reserve( 1 )] whose loop counter happened to
    start at 0: one node on the free list. *)
Definition one_free_node : queue :=
  match reserve 4 0 0 0 1 fresh_queue with
  | Ok _ s => s
  | _ => blank
  end.

(** A fresh queue after [insert( 1000, 5 )], a [pop( )] that claimed the
    entry, and the beginning of a second [pop( )], which has taken its
    reference on the node of the claimed entry: the state in which that
    second [pop( )] calls [help_delete]. *)
Definition claimed_entry : queue :=
  match (insert 4 1000 5 ;;;
         pop 6 ;;;
         h <- load Head ;;
         read_next 2 h) fresh_queue with
  | Ok _ s => s
  | _ => blank
  end.

(** Two threads A and B pop concurrently on a list whose only entry (key
    5) has already been claimed.  Both take a reference on the node and
    fail to claim it.  A runs [help_delete] up to and including its
    successful compare-exchange on the predecessor's link and is then
    preempted, before it stores into [node->next].  The result is the
    node and the state in which B calls [help_delete] on it. *)
Definition unlink_race : M Z :=
  insert 4 1000 5 ;;;
  pop 6 ;;;
  h <- load Head ;;
  node_b <- read_next 2 h ;;                       (* B: ret_node *)
  node_a <- read_next 2 h ;;                       (* A: ret_node *)
  nx <- mark_next 1 node_a ;;                      (* A: help_delete ... *)
  prev <- safe_read 1 Head ;;
  node_tmp <- read_next 2 prev ;;
  compare_exchange (NextOf prev) node_a (get_unmarked nx) ;;;
  ret node_b.

Definition race_node : Z :=
  match unlink_race fresh_queue with
  | Ok p _ => p
  | _ => 0
  end.

Definition race_state : queue :=
  match unlink_race fresh_queue with
  | Ok _ s => s
  | _ => blank
  end.

(** ** Definitions used by the proofs *)

(** Equality of cells is decidable. *)
Global Instance slot_eq_dec : EqDecision slot.
Proof. solve_decision. Defined.

(** The node a cell belongs to, if any. *)
Definition slot_addr (c : slot) : option Z :=
  match c with
  | FreeList | Head => None
  | KeyOf p | CounterOf p | ValueOf p | NextOf p => Some p
  end.

(** The nodes the invariant speaks about. *)
Definition tracked (s : queue) (L F : list Z) : list Z :=
  head s :: tail s :: L ++ F.

(** [pop_trace s L F s' L' F']: from [s] to [s'] the list lost the nodes
    in front of [L']; those of them whose counter was 1 are now in front of
    the free list, the others are on no list; the counters of the nodes
    still in the list, the sentinels and the allocation pointer are the
    same, and no node outside [head] and the list was written. *)
Definition pop_trace (s : queue) (L F : list Z)
    (s' : queue) (L' F' : list Z) : Prop :=
  (exists Lc Fc, L = Lc ++ L' /\ F' = Fc ++ F /\
     forall p, p ∈ Fc <-> p ∈ Lc /\ cell s (CounterOf p) = Some 1) /\
  (forall p, p ∈ L' -> cell s' (CounterOf p) = cell s (CounterOf p)) /\
  head s' = head s /\ tail s' = tail s /\ brk s' = brk s /\
  (forall p, p ∉ head s :: L -> mem s' !! p = mem s !! p).

(** The state in which one more reference to [p] is held. *)
Definition bump (p : Z) (s : queue) : queue :=
  match cell s (CounterOf p) with
  | Some c => put (CounterOf p) (c + 1) s
  | None => s
  end.

(** [detached s x k v]: [x] is a node owned by the running operation,
    carrying the entry [(k, v)]. *)
Definition detached (s : queue) (x k v : Z) : Prop :=
  valid_ptr x /\
  cell s (KeyOf x) = Some k /\ cell s (ValueOf x) = Some v /\
  (cell s (CounterOf x) = Some 1 \/ cell s (CounterOf x) = Some 2) /\
  is_Some (cell s (NextOf x)).

(** [insert_trace s L x s' L']: from [s] to [s'] the node [x] joined the
    nodes [L] of the list; the counters of the nodes that were in the list
    and the sentinels are the same, and no node outside [head], [x] and
    the list was written. *)
Definition insert_trace (s : queue) (L : list Z) (x : Z)
    (s' : queue) (L' : list Z) : Prop :=
  L' ≡ₚ x :: L /\
  (forall p, p ∈ L -> cell s' (CounterOf p) = cell s (CounterOf p)) /\
  head s' = head s /\ tail s' = tail s /\
  (forall p, p ∉ head s :: x :: L -> mem s' !! p = mem s !! p).

(** [refines m m']: whenever [m] returns, [m'] returns the same. *)
Definition refines {A} (m m' : M A) : Prop :=
  forall s a s', m s = Ok a s' -> m' s = Ok a s'.


(** [keeps R m]: every returning run of [m] relates its initial and final
    states by [R]. *)
Definition keeps {A} (R : queue -> queue -> Prop) (m : M A) : Prop :=
  forall s a s', m s = Ok a s' -> R s s'.

(** [same_nodes s s']: the two sentinels are the same, nothing was
    allocated and the same addresses hold nodes. *)
Definition same_nodes (s s' : queue) : Prop :=
  head s' = head s /\ tail s' = tail s /\ brk s' = brk s /\
  forall p, is_Some (mem s' !! p) <-> is_Some (mem s !! p).

(** [one_more_node s s']: the sentinels are the same and at most one node
    was allocated, at the address [brk s]. *)
Definition one_more_node (s s' : queue) : Prop :=
  head s' = head s /\ tail s' = tail s /\
  ((brk s' = brk s /\
    forall p, is_Some (mem s' !! p) <-> is_Some (mem s !! p)) \/
   (brk s' = brk s + node_stride /\
    forall p, is_Some (mem s' !! p) <-> is_Some (mem s !! p) \/ p = brk s)).

(** [grows s s']: the sentinels are the same and every node is still
    allocated. *)
Definition grows (s s' : queue) : Prop :=
  head s' = head s /\ tail s' = tail s /\ brk s <= brk s' /\
  forall p, is_Some (mem s !! p) -> is_Some (mem s' !! p).

(** The state in which the node at [p] has been deleted. *)
Definition dealloc (p : Z) (s : queue) : queue :=
  with_mem (delete p (mem s)) s.

(** [closed s L F]: every allocated node is a sentinel, a list node or a
    node of the free list. *)
Definition closed (s : queue) (L F : list Z) : Prop :=
  forall p, is_Some (mem s !! p) -> p ∈ tracked s L F.

(** [unshared s L]: the only reference to a node of the list is the one
    the list holds. *)
Definition unshared (s : queue) (L : list Z) : Prop :=
  Forall (fun a => cell s (CounterOf a) = Some 1) L.


(** * Proofs *)

(** ** Tagged pointers *)

Lemma is_marked_odd p : is_marked p = Z.odd p.
Proof.
  unfold is_marked. change 1 with (Z.ones 1) at 1.
  rewrite Z.land_ones by lia. change (2 ^ 1) with 2.
  rewrite Zodd_mod. destruct (Z.eqb_spec (p mod 2) 0) as [->|H]; [done|].
  simpl. symmetry. apply Z.eqb_eq. pose proof (Z.mod_pos_bound p 2). lia.
Qed.

Lemma testbit_one i : 0 <= i -> Z.testbit 1 i = (i =? 0).
Proof.
  intros Hi. destruct (Z.eqb_spec i 0) as [->|H]; [done|].
  change 1 with (Z.ones 1). apply Z.ones_spec_high; lia.
Qed.

Lemma testbit_mask i :
  0 <= i -> Z.testbit (uintptr_max - 1) i = negb (i =? 0) && (i <? uintptr_bits).
Proof.
  intros Hi.
  change (uintptr_max - 1) with (Z.ldiff (Z.ones uintptr_bits) 1).
  rewrite Z.ldiff_spec, testbit_one by done.
  destruct (Z.ltb_spec i uintptr_bits).
  - rewrite Z.ones_spec_low by lia. by rewrite andb_comm.
  - rewrite Z.ones_spec_high by (unfold uintptr_bits in *; lia). by rewrite andb_false_r.
Qed.

Lemma get_marked_spec p : get_marked p = if Z.odd p then p else p + 1.
Proof.
  unfold get_marked. apply Z.bits_inj'. intros i Hi.
  rewrite Z.lor_spec, testbit_one by done.
  destruct (Z.eqb_spec i 0) as [->|Hne].
  - rewrite Z.bit0_odd. destruct (Z.odd p) eqn:E.
    + by rewrite Z.bit0_odd, E.
    + rewrite Z.bit0_odd, Z.odd_add, E. done.
  - rewrite orb_false_r. destruct (Z.odd p) eqn:E; [done|].
    assert (Z.even p = true) as Hev by (rewrite <- Z.negb_odd, E; done).
    apply Z.even_spec in Hev as [q ->].
    replace i with (Z.succ (i - 1)) by lia.
    rewrite Z.testbit_even_succ, Z.testbit_odd_succ by lia. done.
Qed.

Lemma get_unmarked_spec p :
  0 <= p <= uintptr_max -> get_unmarked p = if Z.odd p then p - 1 else p.
Proof.
  intros Hp. unfold get_unmarked. apply Z.bits_inj'. intros i Hi.
  rewrite Z.land_spec, testbit_mask by done.
  assert (uintptr_bits <= i -> Z.testbit p i = false) as Hhigh.
  { intros Hge. destruct (Z.eq_dec p 0) as [->|]; [apply Z.bits_0|].
    apply Z.bits_above_log2; [lia|].
    apply Z.log2_lt_pow2; [lia|].
    apply Z.lt_le_trans with (2 ^ uintptr_bits); [unfold uintptr_max in *; lia|].
    apply Z.pow_le_mono_r; lia. }
  destruct (Z.eqb_spec i 0) as [->|Hne]; cbn [negb andb].
  - rewrite andb_false_r. destruct (Z.odd p) eqn:E.
    + rewrite Z.bit0_odd, Z.odd_sub, E. done.
    + by rewrite Z.bit0_odd, E.
  - destruct (Z.ltb_spec i uintptr_bits).
    + rewrite andb_true_r. destruct (Z.odd p) eqn:E; [|done].
      apply Z.odd_spec in E as [q ->].
      replace (2 * q + 1 - 1) with (2 * q) by lia.
      replace i with (Z.succ (i - 1)) by lia.
      rewrite Z.testbit_even_succ, Z.testbit_odd_succ by lia. done.
    + rewrite andb_false_r. symmetry.
      destruct (Z.odd p) eqn:E; [|by apply Hhigh].
      apply Z.odd_spec in E as [q ->].
      replace (2 * q + 1 - 1) with (2 * q) by lia.
      rewrite <- (Hhigh H).
      replace i with (Z.succ (i - 1)) by lia.
      rewrite Z.testbit_even_succ, Z.testbit_odd_succ by lia. done.
Qed.

Lemma is_marked_even p : is_marked p = false <-> Z.even p = true.
Proof. rewrite is_marked_odd, <- Z.negb_odd. by destruct (Z.odd p). Qed.

Lemma valid_ptr_unmarked p : valid_ptr p -> get_unmarked p = p.
Proof.
  intros [Hr Hm]. rewrite get_unmarked_spec by lia.
  by rewrite <- is_marked_odd, Hm.
Qed.

Lemma valid_ptr_nonzero p : valid_ptr p -> p <> 0.
Proof. intros [Hr _]. lia. Qed.

Lemma valid_ptr_eqb p : valid_ptr p -> (p =? 0) = false.
Proof. intros H. apply Z.eqb_neq. by apply valid_ptr_nonzero. Qed.

Lemma wrap_int_small z : int_min <= z <= int_max -> wrap_int z = z.
Proof.
  unfold wrap_int, int_min, int_max. intros H.
  rewrite Z.mod_small; lia.
Qed.

(** ** Cells *)

Lemma cell_put c v s c' :
  cell (put c v s) c' =
  if decide (c = c') then (fun _ => v) <$> cell s c else cell s c'.
Proof.
  destruct c, c'; simpl; try done;
    try (case_decide as E; [inversion E; subst|];
         rewrite ?lookup_alter_eq, ?lookup_alter_ne by congruence;
         try done; by destruct (mem s !! _)).
  all: rewrite lookup_alter; case_decide; subst; by destruct (mem s !! _).
Qed.

Lemma cell_put_eq c v s x : cell s c = Some x -> cell (put c v s) c = Some v.
Proof. intros H. rewrite cell_put, decide_True by done. by rewrite H. Qed.

Lemma cell_put_ne c v s c' : c <> c' -> cell (put c v s) c' = cell s c'.
Proof. intros H. by rewrite cell_put, decide_False. Qed.

Lemma tail_put c v s : tail (put c v s) = tail s.
Proof. by destruct c. Qed.

Lemma brk_put c v s : brk (put c v s) = brk s.
Proof. by destruct c. Qed.

Lemma head_put c v s : head (put c v s) = if decide (c = Head) then v else head s.
Proof. by destruct c. Qed.

Lemma free_list_put c v s :
  free_list (put c v s) = if decide (c = FreeList) then v else free_list s.
Proof. by destruct c. Qed.

Lemma mem_put_None c v s p : mem s !! p = None -> mem (put c v s) !! p = None.
Proof.
  intros H. destruct c; simpl; try done;
    rewrite lookup_alter; case_decide; subst; by rewrite ?H.
Qed.

Lemma node_eq (n n' : Node) :
  key n = key n' -> counter n = counter n' -> value n = value n' ->
  next n = next n' -> n = n'.
Proof. destruct n, n'; simpl; congruence. Qed.

(** Two states with the same cells are the same state. *)
Lemma queue_ext s s' :
  (forall c, cell s c = cell s' c) -> tail s = tail s' -> brk s = brk s' ->
  s = s'.
Proof.
  intros H Ht Hb.
  assert (mem s = mem s') as Hm.
  { apply map_eq. intros p.
    pose proof (H (KeyOf p)) as Hk. pose proof (H (CounterOf p)) as Hc.
    pose proof (H (ValueOf p)) as Hv. pose proof (H (NextOf p)) as Hn.
    simpl in *. destruct (mem s !! p), (mem s' !! p); simpl in *; try done.
    f_equal. apply node_eq; congruence. }
  pose proof (H FreeList) as Hf. pose proof (H Head) as Hh. simpl in *.
  destruct s, s'; simpl in *. congruence.
Qed.

Lemma put_id c v s : cell s c = Some v -> put c v s = s.
Proof.
  intros H. apply queue_ext; [|apply tail_put|apply brk_put].
  intros c'. rewrite cell_put. case_decide; subst; by rewrite ?H.
Qed.

Lemma put_put c v v' s : put c v (put c v' s) = put c v s.
Proof.
  apply queue_ext; [|by rewrite !tail_put|by rewrite !brk_put].
  intros c'. rewrite !cell_put. case_decide; [|done].
  rewrite decide_True by done. by destruct (cell s c).
Qed.

Lemma put_comm c v c' v' s :
  c <> c' -> put c v (put c' v' s) = put c' v' (put c v s).
Proof.
  intros Hne. apply queue_ext; [|by rewrite !tail_put|by rewrite !brk_put].
  intros d. rewrite !cell_put.
  repeat case_decide; subst; try done.
Qed.

Lemma cell_alloc_ne n s c :
  (forall p, c ∈ [KeyOf p; CounterOf p; ValueOf p; NextOf p] -> p <> brk s) ->
  cell (alloc n s) c = cell s c.
Proof.
  intros H. destruct c; simpl; try done;
    rewrite lookup_insert_ne; try done; intros E; eapply H; try done; set_solver.
Qed.

(** ** Running the primitives *)


Lemma bind_ok {A B} (m : M A) (k : A -> M B) s a s' :
  m s = Ok a s' -> bind m k s = k a s'.
Proof. unfold bind. by intros ->. Qed.

Lemma loop_S {A B} f (body : A -> M (A + B)) a :
  loop (S f) body a =
  bind (body a) (fun r => match r with
                          | inl a' => loop f body a'
                          | inr b => ret b
                          end).
Proof. done. Qed.

Lemma loop_exit {A B} f (body : A -> M (A + B)) a s b s' :
  body a s = Ok (inr b) s' -> loop (S f) body a s = Ok b s'.
Proof. intros H. rewrite loop_S. by rewrite (bind_ok _ _ _ _ _ H). Qed.

Lemma loop_continue {A B} f (body : A -> M (A + B)) a s a' s' :
  body a s = Ok (inl a') s' -> loop (S f) body a s = loop f body a' s'.
Proof. intros H. rewrite loop_S. by rewrite (bind_ok _ _ _ _ _ H). Qed.

Lemma load_ok c v s : cell s c = Some v -> load c s = Ok v s.
Proof. unfold load. by intros ->. Qed.

Lemma store_ok c v x s : cell s c = Some x -> store c v s = Ok tt (put c v s).
Proof. unfold store. by intros ->. Qed.

Lemma cas_ok c e d s :
  cell s c = Some e -> compare_exchange c e d s = Ok true (put c d s).
Proof.
  intros H. unfold compare_exchange.
  erewrite bind_ok by (by apply load_ok).
  rewrite Z.eqb_refl. erewrite bind_ok by (by eapply store_ok). done.
Qed.

Lemma cas_fail c e d v s :
  cell s c = Some v -> v <> e -> compare_exchange c e d s = Ok false s.
Proof.
  intros H Hne. unfold compare_exchange.
  erewrite bind_ok by (by apply load_ok).
  apply Z.eqb_neq in Hne. by rewrite Hne.
Qed.

Lemma fetch_add_ok p n s :
  cell s (CounterOf p) = Some n -> int_min <= n < int_max ->
  fetch_add_counter p s = Ok tt (put (CounterOf p) (n + 1) s).
Proof.
  intros H Hn. unfold fetch_add_counter.
  erewrite bind_ok by (by apply load_ok).
  rewrite wrap_int_small by lia. by eapply store_ok.
Qed.

Lemma reclaim_ok f p x s :
  (1 <= f)%nat -> cell s (NextOf p) = Some x ->
  reclaim f p s = Ok tt (put FreeList p (put (NextOf p) (free_list s) s)).
Proof.
  intros Hf H. destruct f as [|f]; [lia|]. unfold reclaim.
  apply loop_exit.
  erewrite bind_ok by (by apply load_ok).
  erewrite bind_ok by (by eapply store_ok).
  erewrite bind_ok by (apply cas_ok; by rewrite cell_put_ne). done.
Qed.

Lemma release_null f s : (1 <= f)%nat -> release f 0 s = Ok tt s.
Proof. intros Hf. destruct f as [|f]; [lia|]. done. Qed.

(** Dropping a reference that is not the last one. *)
Lemma release_keep f p n s :
  (2 <= f)%nat -> p <> 0 -> cell s (CounterOf p) = Some n ->
  n <> int_min -> n <> 1 ->
  release f p s = Ok tt (put (CounterOf p) (n - 1) s).
Proof.
  intros Hf Hp H Hmin H1. destruct f as [|[|f]]; try lia.
  cbn [release]. apply Z.eqb_neq in Hp as ->.
  erewrite bind_ok; cycle 1.
  { apply loop_exit.
    erewrite bind_ok by (by apply load_ok).
    apply Z.eqb_neq in Hmin as ->.
    erewrite bind_ok by (by apply cas_ok). done. }
  assert (n - 1 <> 0) as Hnz by lia. apply Z.eqb_neq in Hnz as ->. done.
Qed.

(** Dropping the last reference of a node whose link has no referent. *)
Lemma release_last f p nx s :
  (3 <= f)%nat -> p <> 0 -> cell s (CounterOf p) = Some 1 ->
  cell s (NextOf p) = Some nx -> get_unmarked nx = 0 ->
  release f p s =
  Ok tt (put FreeList p (put (NextOf p) (free_list s)
                             (put (CounterOf p) 0 s))).
Proof.
  intros Hf Hp H Hnx Hun. destruct f as [|[|[|f]]]; try lia.
  cbn [release]. apply Z.eqb_neq in Hp as ->.
  erewrite bind_ok; cycle 1.
  { apply loop_exit.
    erewrite bind_ok by (by apply load_ok).
    change (1 =? int_min) with false. cbv iota.
    erewrite bind_ok by (by apply cas_ok). done. }
  change (negb (1 - 1 =? 0)) with false. cbv iota.
  erewrite bind_ok by (apply load_ok; by rewrite cell_put_ne).
  rewrite Hun. change (0 =? 0) with true. cbv iota.
  erewrite bind_ok by done.
  erewrite reclaim_ok; [done|lia|by rewrite cell_put_ne].
Qed.

Lemma safe_read_null f c s :
  (1 <= f)%nat -> cell s c = Some 0 -> safe_read f c s = Ok 0 s.
Proof.
  intros Hf H. destruct f as [|f]; [lia|]. unfold safe_read.
  apply loop_exit.
  erewrite bind_ok by (by apply load_ok). done.
Qed.

Lemma safe_read_marked f c p s :
  (1 <= f)%nat -> cell s c = Some p -> is_marked p = true ->
  safe_read f c s = Ok 0 s.
Proof.
  intros Hf H Hm. destruct f as [|f]; [lia|]. unfold safe_read.
  apply loop_exit.
  erewrite bind_ok by (by apply load_ok).
  destruct (p =? 0); [done|]. by rewrite Hm.
Qed.

Lemma safe_read_ok f c p n s :
  (1 <= f)%nat -> cell s c = Some p -> p <> 0 -> is_marked p = false ->
  cell s (CounterOf p) = Some n -> int_min <= n < int_max ->
  c <> CounterOf p ->
  safe_read f c s = Ok p (put (CounterOf p) (n + 1) s).
Proof.
  intros Hf H Hp Hm Hc Hn Hne. destruct f as [|f]; [lia|]. unfold safe_read.
  apply loop_exit.
  erewrite bind_ok by (by apply load_ok).
  apply Z.eqb_neq in Hp as ->. rewrite Hm.
  erewrite bind_ok by (by apply fetch_add_ok).
  erewrite bind_ok by (apply load_ok; by rewrite cell_put_ne).
  by rewrite Z.eqb_refl.
Qed.

Lemma read_next_ok f node p n s :
  (2 <= f)%nat -> cell s (NextOf node) = Some p -> p <> 0 ->
  is_marked p = false -> cell s (CounterOf p) = Some n ->
  int_min <= n < int_max ->
  read_next f node s = Ok p (put (CounterOf p) (n + 1) s).
Proof.
  intros Hf H Hp Hm Hc Hn. destruct f as [|[|f]]; try lia.
  cbn [read_next].
  erewrite bind_ok by (eapply safe_read_ok; try done; lia).
  apply loop_exit.
  apply Z.eqb_neq in Hp as ->. done.
Qed.

(** ** Reading cells of updated states *)

Ltac slot_ne := solve [congruence].

Ltac cells :=
  first [ eassumption
        | rewrite cell_put_ne by slot_ne; cells
        | eapply cell_put_eq; cells ].

(** Run the first action of a sequence with the given equation. *)
Ltac ilia := unfold int_min, int_max, uintptr_max, uintptr_bits in *; lia.

Tactic Notation "step" uconstr(L) :=
  erewrite bind_ok by (eapply L; try cells; try done; try ilia);
  cbv beta iota.

Ltac elems :=
  repeat (progress rewrite ?elem_of_cons, ?elem_of_app, ?elem_of_nil in * );
  solve [intuition congruence].

(** Name the fields of the invariant. *)
Ltac open_inv H :=
  destruct H as [inv_nodup inv_valid inv_brk inv_brk_valid inv_head_cnt
                 inv_tail_cnt inv_tail_next inv_sentinel_keys inv_chain
                 inv_cnt inv_view inv_vals inv_sorted inv_free inv_free_cnt].

Lemma valid_ptr_bounds p : valid_ptr p -> p <> 0 /\ is_marked p = false.
Proof. intros [Hr Hm]. split; [lia|done]. Qed.

(** ** Helping the deletion of the first node *)

Lemma help_delete_first fuel s h a nx ch ca :
  (4 <= fuel)%nat ->
  head s = h -> h <> a -> a <> tail s ->
  valid_ptr h -> valid_ptr a -> valid_ptr nx ->
  cell s (NextOf h) = Some a ->
  cell s (NextOf a) = Some nx ->
  cell s (CounterOf h) = Some ch -> 0 <= ch < int_max ->
  cell s (CounterOf a) = Some ca -> 2 <= ca < int_max ->
  help_delete fuel a s =
  Ok h (put (CounterOf a) (ca - 1)
          (put (NextOf a) 1
             (put (NextOf h) nx
                (put (CounterOf h) (ch + 1) s)))).
Proof.
  intros Hf Hh Hha Hat Vh Va Vnx Hnh Hna Hch Bch Hca Bca.
  assert (cell s Head = Some h) as Hhd by (simpl; congruence).
  destruct fuel as [|fuel]; [lia|]. cbn [help_delete].
  destruct (valid_ptr_bounds _ Vh) as [Hh0 Hhm].
  destruct (valid_ptr_bounds _ Va) as [Ha0 Ham].
  destruct (valid_ptr_bounds _ Vnx) as [Hnx0 Hnxm].
  (* the link of [a] gets its mark *)
  erewrite bind_ok; cycle 1.
  { unfold mark_next. destruct fuel as [|fuel]; [lia|]. apply loop_exit.
    step load_ok. rewrite Hnxm.
    step cas_ok. done. }
  rewrite (valid_ptr_unmarked _ Vnx).
  apply Z.eqb_neq in Hnx0 as Hnxb. rewrite Hnxb.
  (* one round of the unlink loop *)
  erewrite bind_ok; cycle 1.
  { unfold unlink. destruct fuel as [|fuel]; [lia|]. apply loop_exit.
    step release_null. step release_null.
    step safe_read_ok.
    step read_next_ok.
    erewrite bind_ok by done.
    erewrite bind_ok; cycle 1.
    { unfold find_prev. apply loop_exit.
      rewrite Z.eqb_refl. cbn [negb andb].
      erewrite bind_ok by done. done. }
    cbv beta iota. rewrite Z.eqb_refl.
    step cas_ok. done. }
  cbv iota beta.
  step store_ok.
  step release_keep. step release_keep.
  unfold ret. f_equal.
  apply queue_ext; [|by rewrite !tail_put|by rewrite !brk_put].
  intros d. rewrite !cell_put.
  repeat case_decide; simplify_eq; try done; try by (destruct (cell s _)).
  all: try (by rewrite ?Hca, ?Hch, ?Hna, ?Hnh; simpl; f_equal; lia).
Qed.

(** ** Framing the invariant *)

Lemma mem_put_ne c v s p :
  slot_addr c <> Some p -> mem (put c v s) !! p = mem s !! p.
Proof.
  intros H. destruct c; simpl in *; try done;
    rewrite lookup_alter_ne; congruence.
Qed.

Lemma cell_agree s s' c p :
  slot_addr c = Some p -> mem s' !! p = mem s !! p -> cell s' c = cell s c.
Proof. intros Hc Hm. destruct c; simpl in *; simplify_eq; by rewrite Hm. Qed.

Lemma chain_frame s s' p L q :
  (forall b, b ∈ L -> cell s' (NextOf b) = cell s (NextOf b)) ->
  chain s p L q -> chain s' p L q.
Proof.
  revert p. induction L as [|a L IH]; intros p Hfr; cbn [chain]; [done|].
  intros [-> (nx & Hnx & Hch)]. split; [done|]. exists nx. split.
  - rewrite Hfr; [done|]. elems.
  - apply IH; [|done]. intros b Hb. apply Hfr. elems.
Qed.

Lemma view_frame s s' L V :
  (forall b, b ∈ L -> cell s' (KeyOf b) = cell s (KeyOf b) /\
                      cell s' (ValueOf b) = cell s (ValueOf b)) ->
  Forall2 (entry_at s) L V -> Forall2 (entry_at s') L V.
Proof.
  intros Hfr H. induction H as [|a e L V [Hk Hv] H IH]; constructor.
  - destruct (Hfr a) as [Hk' Hv']; [elems|].
    unfold entry_at. by rewrite Hk', Hv'.
  - apply IH. intros b Hb. apply Hfr. elems.
Qed.

Lemma Forall_frame {P Q : Z -> Prop} (L : list Z) :
  (forall b, b ∈ L -> P b -> Q b) -> Forall P L -> Forall Q L.
Proof.
  intros H HP. apply Forall_forall. intros b Hb.
  apply H; [done|]. by eapply Forall_forall in HP.
Qed.

(** The invariant only depends on the nodes it tracks. *)
Lemma inv_frame s s' V L F :
  inv s V L F ->
  head s' = head s -> tail s' = tail s -> free_list s' = free_list s ->
  (forall p, p ∈ tracked s L F -> mem s' !! p = mem s !! p) ->
  (forall p, brk s' <= p -> mem s' !! p = None) ->
  0 < brk s' /\ is_marked (brk s') = false ->
  inv s' V L F.
Proof.
  intros Hi Hh Ht Hf Hm Hb Hbv. open_inv Hi.
  assert (forall c p, slot_addr c = Some p -> p ∈ tracked s L F ->
                      cell s' c = cell s c) as Hc.
  { intros c p Hc Hp. eapply cell_agree; [done|]. by apply Hm. }
  unfold tracked in *.
  constructor; rewrite ?Hh, ?Ht, ?Hf; try done.
  - erewrite Hc; [done..|elems].
  - erewrite Hc; [done..|elems].
  - erewrite Hc; [done..|elems].
  - erewrite !Hc; [done..|elems|done|elems].
  - destruct inv_chain as (p1 & Hp1 & Hch). exists p1. split.
    + erewrite Hc; [done..|elems].
    + eapply chain_frame; [|done]. intros b Hb'.
      eapply Hc; [done|elems].
  - eapply Forall_frame; [|done]. intros b Hb' Hcnt. cbv beta in *.
    erewrite Hc; [done..|elems].
  - eapply view_frame; [|done]. intros b Hb'.
    split; (eapply Hc; [done|elems]).
  - eapply chain_frame; [|done]. intros b Hb'.
    eapply Hc; [done|elems].
  - eapply Forall_frame; [|done]. intros b Hb' Hcnt. cbv beta in *.
    erewrite Hc; [done..|elems].
Qed.

Lemma get_tail_ok s : get_tail s = Ok (tail s) s.
Proof. done. Qed.

Lemma chain_start_valid s p L q :
  chain s p L q -> Forall valid_ptr L -> valid_ptr q -> valid_ptr p.
Proof.
  destruct L as [|a L]; cbn [chain].
  - by intros ->.
  - intros [-> _] HL _. by inversion HL.
Qed.

Lemma chain_start s p L q :
  chain s p L q -> p = q /\ L = [] \/ exists L', L = p :: L'.
Proof.
  destruct L as [|a L]; cbn [chain].
  - intros ->. by left.
  - intros [-> _]. right. by eexists.
Qed.

(** What the invariant says about the sentinels. *)
Lemma inv_sentinels s V L F :
  inv s V L F ->
  head s <> tail s /\ valid_ptr (head s) /\ valid_ptr (tail s) /\
  cell s Head = Some (head s).
Proof.
  intros Hi. open_inv Hi.
  apply NoDup_cons in inv_nodup as [Hh _].
  inversion inv_valid as [|?? Vh Hv']; subst.
  inversion Hv' as [|?? Vt _]; subst.
  split_and!; try done. intros E. apply Hh. rewrite E. elems.
Qed.

(** What the invariant says about the first node of a non-empty list. *)
Lemma inv_first s e V a L F :
  inv s (e :: V) (a :: L) F ->
  head s <> a /\ a <> tail s /\ valid_ptr a /\
  cell s (NextOf (head s)) = Some a /\
  (exists nx, cell s (NextOf a) = Some nx /\ chain s nx L (tail s) /\
              valid_ptr nx /\ nx <> a /\ nx <> head s) /\
  entry_at s a e /\
  (cell s (CounterOf a) = Some 1 \/ cell s (CounterOf a) = Some 2) /\
  stored_value e.
Proof.
  intros Hi. destruct (inv_sentinels _ _ _ _ Hi) as (Hht & Vh & Vt & _).
  open_inv Hi.
  apply NoDup_cons in inv_nodup as [Hh Hnd].
  apply NoDup_cons in Hnd as [Ht Hnd].
  apply NoDup_cons in Hnd as [HaL _].
  inversion inv_valid as [|?? _ Hv']; subst.
  inversion Hv' as [|?? _ Hv'']; subst.
  inversion Hv'' as [|?? Va HvLF]; subst.
  apply Forall_app in HvLF as [HvL' _].
  destruct inv_chain as (p1 & Hp1 & Hch). cbn [chain] in Hch.
  destruct Hch as [-> (nx & Hnx & Hch)].
  inversion inv_view; subst. inversion inv_cnt; subst.
  inversion inv_vals; subst.
  split_and!; try done.
  - intros E. apply Hh. elems.
  - intros E. apply Ht. elems.
  - exists nx. split_and!; try done.
    + by eapply chain_start_valid.
    + apply chain_start in Hch as [[-> _]|[L' ->]]; [|elems].
      intros E. apply Ht. elems.
    + apply chain_start in Hch as [[-> _]|[L' ->]]; [congruence|].
      intros E. apply Hh. elems.
Qed.

(** ** [pop]: one round of the loop *)

Lemma pop_step_empty fuel low s F :
  (2 <= fuel)%nat -> inv s [] [] F ->
  pop_step fuel low tt s = Ok (inr (Some 0)) s.
Proof.
  intros Hf Hi. destruct (inv_sentinels _ _ _ _ Hi) as (Hht & Vh & Vt & Hhd).
  destruct (valid_ptr_bounds _ Vt) as [Ht0 Htm].
  open_inv Hi. destruct inv_chain as (p1 & Hp1 & Hch). cbn [chain] in Hch.
  subst p1. destruct inv_sentinel_keys as [_ Hkt].
  unfold pop_step.
  step load_ok. step read_next_ok.
  rewrite (valid_ptr_eqb _ Vt).
  step load_ok. step get_tail_ok. rewrite tail_put, Z.eqb_refl, orb_true_r.
  step release_keep.
  rewrite put_put. replace (1 + 1 - 1) with 1 by lia.
  by rewrite put_id.
Qed.

Lemma pop_step_low fuel low s e V a L F :
  (2 <= fuel)%nat -> inv s (e :: V) (a :: L) F -> low (fst e) = true ->
  pop_step fuel low tt s = Ok (inr (Some 0)) s.
Proof.
  intros Hf Hi Hlow.
  destruct (inv_sentinels _ _ _ _ Hi) as (Hht & Vh & Vt & Hhd).
  destruct (inv_first _ _ _ _ _ _ Hi)
    as (Hha & Hat & Va & Hnh & _ & [Hk Hv] & Hcnt & _).
  destruct (valid_ptr_bounds _ Va) as [Ha0 Ham].
  unfold pop_step. step load_ok.
  destruct Hcnt as [Hc|Hc].
  all: step read_next_ok; rewrite (valid_ptr_eqb _ Va);
    step load_ok; step get_tail_ok; rewrite Hlow; cbn [orb];
    step release_keep; rewrite put_put, put_id; [done|by rewrite Hc].
Qed.

(** ** How the invariant moves *)

Lemma put_node_head c v s : slot_addr c <> None -> head (put c v s) = head s.
Proof. by destruct c. Qed.

Lemma put_node_free_list c v s :
  slot_addr c <> None -> free_list (put c v s) = free_list s.
Proof. by destruct c. Qed.

Ltac put_fields :=
  rewrite ?tail_put, ?brk_put, ?put_node_head, ?put_node_free_list by done.

(** Prove that two sequences of updates lead to the same state. *)
Ltac state_eq :=
  apply queue_ext; [|by rewrite ?tail_put|by rewrite ?brk_put];
  let d := fresh "d" in
  intros d; rewrite ?cell_put;
  repeat case_decide; simplify_eq; try done;
  repeat match goal with
         | H : cell _ _ = Some _ |- _ => rewrite H
         end;
  try done; try (by destruct (cell _ _));
  try (simpl; f_equal; lia).

(** Claiming the first entry. *)
Lemma inv_claim_first s e V a L F v' :
  inv s (e :: V) (a :: L) F -> 0 <= v' <= uintptr_max ->
  inv (put (ValueOf a) v' s) ((fst e, v') :: V) (a :: L) F.
Proof.
  intros Hi Hv'.
  destruct (inv_first _ _ _ _ _ _ Hi) as (_ & _ & _ & _ & _ & [Hk Hv] & _).
  pose proof Hi as Hi0. open_inv Hi0.
  assert (forall c, c <> ValueOf a ->
                    cell (put (ValueOf a) v' s) c = cell s c) as Hc.
  { intros c Hne. by rewrite cell_put_ne. }
  constructor; put_fields; rewrite ?Hc by done; try done.
  - intros p Hp. apply mem_put_None. by apply inv_brk.
  - destruct inv_chain as (p1 & Hp1 & Hch). exists p1. split; [done|].
    eapply chain_frame; [|done]. intros b _. by apply Hc.
  - eapply Forall_frame; [|done]. intros b _ Hb. cbv beta in *.
    by rewrite !Hc.
  - inversion inv_view as [|???? _ Hrest]; subst. constructor.
    + split; [by rewrite Hc|]. by eapply cell_put_eq.
    + apply NoDup_cons in inv_nodup as [_ Hnd].
      apply NoDup_cons in Hnd as [_ Hnd].
      apply NoDup_cons in Hnd as [Ha _].
      eapply view_frame; [|done]. intros b Hb.
      split; apply Hc; [done|]. intros [= ->]. apply Ha. elems.
  - inversion inv_vals; subst. by constructor.
  - eapply chain_frame; [|done]. intros b _. by apply Hc.
  - eapply Forall_frame; [|done]. intros b _ Hb. cbv beta in *.
    by rewrite !Hc.
Qed.

Lemma Sorted_tail (V : list Z) x : Sorted Z.ge (x :: V) -> Sorted Z.ge V.
Proof. by inversion 1. Qed.

(** Unlinking the first node: it leaves the list and is no longer
    tracked. *)
Lemma inv_unlink_first s e V a L F nx :
  inv s (e :: V) (a :: L) F -> cell s (NextOf a) = Some nx ->
  inv (put (NextOf a) 1 (put (NextOf (head s)) nx s)) V L F.
Proof.
  intros Hi Hnx.
  destruct (inv_sentinels _ _ _ _ Hi) as (Hht & Vh & Vt & Hhd).
  destruct (inv_first _ _ _ _ _ _ Hi)
    as (Hha & Hat & Va & Hnh & (nx' & Hnx' & Hch & _) & _).
  assert (nx' = nx) as -> by congruence.
  pose proof Hi as Hi0. open_inv Hi0.
  apply NoDup_cons in inv_nodup as [Hh Hnd].
  apply NoDup_cons in Hnd as [Ht Hnd].
  apply NoDup_cons in Hnd as [Ha Hnd].
  remember (put (NextOf a) 1 (put (NextOf (head s)) nx s)) as s' eqn:Hs'.
  assert (forall c, c <> NextOf a -> c <> NextOf (head s) ->
                    cell s' c = cell s c) as Hc.
  { intros c Hne1 Hne2. rewrite Hs'. by rewrite !cell_put_ne. }
  assert (forall b, b ∈ L ++ F -> b <> a /\ b <> head s) as Hne.
  { intros b Hb. split; intros ->; [by apply Ha|]. apply Hh. elems. }
  cbn [app] in inv_valid. rewrite !Forall_cons in inv_valid.
  destruct inv_valid as (_ & _ & _ & Hv3).
  assert (head s' = head s) as Hh' by (by rewrite Hs').
  assert (free_list s' = free_list s) as Hf' by (by rewrite Hs').
  assert (tail s' = tail s) as Ht' by (by rewrite Hs').
  assert (brk s' = brk s) as Hb' by (by rewrite Hs').
  constructor; rewrite ?Hh', ?Hf', ?Ht', ?Hb'; rewrite ?Hc by congruence;
    try done.
  - apply NoDup_cons. split; [elems|]. apply NoDup_cons. split; [elems|done].
  - by rewrite !Forall_cons.
  - intros p Hp. rewrite Hs'. do 2 apply mem_put_None. by apply inv_brk.
  - exists nx. split.
    + rewrite Hs'. rewrite cell_put_ne by congruence. by eapply cell_put_eq.
    + eapply chain_frame; [|done]. intros b Hb.
      destruct (Hne b) as [??]; [elems|]. apply Hc; congruence.
  - inversion inv_cnt; subst. eapply Forall_frame; [|done].
    intros b Hb Hcb. cbv beta in *. by rewrite Hc by congruence.
  - inversion inv_view; subst. eapply view_frame; [|done].
    intros b Hb. by rewrite !Hc by congruence.
  - by inversion inv_vals.
  - simpl in inv_sorted. by eapply Sorted_tail.
  - eapply chain_frame; [|done]. intros b Hb.
    destruct (Hne b) as [??]; [elems|]. apply Hc; congruence.
  - eapply Forall_frame; [|done].
    intros b Hb Hcb. cbv beta in *. by rewrite Hc by congruence.
Qed.

(** Pushing an untracked node on the free list. *)
Lemma inv_reclaim s V L F x cx y :
  inv s V L F -> x ∉ tracked s L F -> valid_ptr x ->
  cell s (CounterOf x) = Some cx -> cell s (NextOf x) = Some y ->
  inv (put FreeList x (put (NextOf x) (free_list s) (put (CounterOf x) 0 s)))
      V L (x :: F).
Proof.
  intros Hi Hx Vx Hcx Hnx. unfold tracked in Hx.
  pose proof Hi as Hi0. open_inv Hi0.
  remember (put FreeList x (put (NextOf x) (free_list s)
                                (put (CounterOf x) 0 s))) as s' eqn:Hs'.
  assert (forall c, slot_addr c <> Some x -> c <> FreeList ->
                    cell s' c = cell s c) as Hc.
  { intros c Hne1 Hne2. rewrite Hs'. rewrite !cell_put_ne; try done.
    all: intros <-; by simpl in *. }
  assert (forall b, b ∈ head s :: tail s :: L ++ F -> b <> x) as Hne.
  { intros b Hb ->. by apply Hx. }
  assert (head s' = head s) as Hh by (by rewrite Hs').
  assert (free_list s' = x) as Hf by (by rewrite Hs').
  assert (tail s' = tail s) as Htl by (by rewrite Hs').
  assert (brk s' = brk s) as Hbk by (by rewrite Hs').
  constructor; rewrite ?Hh, ?Hf, ?Htl, ?Hbk; try done.
  - rewrite !NoDup_cons in *. rewrite NoDup_app in *.
    destruct inv_nodup as (H1 & H2 & H3 & H4 & H5).
    split_and!; try done; try elems.
    + intros b Hb. specialize (H4 b Hb). elems.
    + apply NoDup_cons. split; [elems|done].
  - inversion inv_valid as [|?? ? Hv1]; subst.
    inversion Hv1 as [|?? ? Hv2]; subst.
    apply Forall_app in Hv2 as [??].
    repeat (constructor; [done|]). apply Forall_app. split; [done|].
    by constructor.
  - intros p Hp. rewrite Hs'. do 3 apply mem_put_None. by apply inv_brk.
  - rewrite Hc; [done| |done]. simpl. specialize (Hne (head s)).
    intros [= E]. apply Hne; [elems|done].
  - rewrite Hc; [done| |done]. simpl. specialize (Hne (tail s)).
    intros [= E]. apply Hne; [elems|done].
  - rewrite Hc; [done| |done]. simpl. specialize (Hne (tail s)).
    intros [= E]. apply Hne; [elems|done].
  - rewrite !Hc; try done.
    + simpl. intros [= E]. apply (Hne (tail s)); [elems|done].
    + simpl. intros [= E]. apply (Hne (head s)); [elems|done].
  - destruct inv_chain as (p1 & Hp1 & Hch). exists p1. split.
    + rewrite Hc; [done| |done]. simpl. intros [= E].
      apply (Hne (head s)); [elems|done].
    + eapply chain_frame; [|done]. intros b Hb. apply Hc; [|done].
      simpl. intros [= E]. apply (Hne b); [elems|done].
  - eapply Forall_frame; [|done]. intros b Hb Hcb. cbv beta in *.
    rewrite Hc; [done| |done].
    simpl. intros [= E]. apply (Hne b); [elems|done].
  - eapply view_frame; [|done]. intros b Hb.
    rewrite !Hc; try done.
    all: simpl; intros [= E]; apply (Hne b); [elems|done].
  - cbn [chain]. split; [done|]. exists (free_list s). split.
    + rewrite Hs'. rewrite cell_put_ne by done. eapply cell_put_eq.
      by rewrite cell_put_ne by done.
    + eapply chain_frame; [|done]. intros b Hb. apply Hc; [|done].
      simpl. intros [= E]. apply (Hne b); [elems|done].
  - constructor.
    + rewrite Hs'. rewrite !cell_put_ne by done. by eapply cell_put_eq.
    + eapply Forall_frame; [|done]. intros b Hb Hcb. cbv beta in *.
      rewrite Hc; [done| |done].
      simpl. intros [= E]. apply (Hne b); [elems|done].
Qed.

Lemma stored_unmarked v :
  0 <= v <= uintptr_max -> is_marked v = false -> get_unmarked v = v.
Proof.
  intros H Hm. rewrite get_unmarked_spec by done.
  by rewrite <- is_marked_odd, Hm.
Qed.

Lemma stored_marked v :
  0 <= v <= uintptr_max -> is_marked v = true -> get_unmarked v = v - 1.
Proof.
  intros H Hm. rewrite get_unmarked_spec by done.
  by rewrite <- is_marked_odd, Hm.
Qed.

Lemma get_marked_bound v :
  0 <= v <= uintptr_max -> is_marked v = false ->
  0 <= get_marked v <= uintptr_max.
Proof.
  intros H Hm. rewrite get_marked_spec, <- is_marked_odd, Hm.
  apply is_marked_even in Hm. apply Z.even_spec in Hm as [q ->].
  unfold uintptr_max, uintptr_bits in *. lia.
Qed.

Lemma pop_step_live fuel low s e V a L F :
  (2 <= fuel)%nat -> inv s (e :: V) (a :: L) F ->
  low (fst e) = false -> is_marked (snd e) = false ->
  pop_step fuel low tt s =
  Ok (inr (Some (snd e))) (put (ValueOf a) (get_marked (snd e)) s).
Proof.
  intros Hf Hi Hlow Hm.
  destruct (inv_sentinels _ _ _ _ Hi) as (Hht & Vh & Vt & Hhd).
  destruct (inv_first _ _ _ _ _ _ Hi)
    as (Hha & Hat & Va & Hnh & _ & [Hk Hv] & Hcnt & Hsv).
  destruct (valid_ptr_bounds _ Va) as [Ha0 Ham].
  unfold pop_step. step load_ok.
  destruct Hcnt as [Hc|Hc].
  all: step read_next_ok; rewrite (valid_ptr_eqb _ Va);
    step load_ok; step get_tail_ok; rewrite Hlow; cbn [orb];
    rewrite tail_put; apply Z.eqb_neq in Hat as ->;
    step load_ok; rewrite (stored_unmarked _ Hsv Hm);
    step cas_ok; step release_keep;
    unfold ret; f_equal; state_eq.
Qed.

Lemma pop_trace_refl s L F : pop_trace s L F s L F.
Proof.
  split; [exists [], []; split_and!; try done; intros p;
          rewrite !elem_of_nil; tauto|].
  by split_and!.
Qed.

Lemma pop_trace_trans s L F s1 L1 F1 s2 L2 F2 :
  pop_trace s L F s1 L1 F1 -> pop_trace s1 L1 F1 s2 L2 F2 ->
  pop_trace s L F s2 L2 F2.
Proof.
  intros ((Lc & Fc & -> & -> & HF1) & Hc1 & Hh1 & Ht1 & Hb1 & Hm1)
         ((Lc' & Fc' & -> & -> & HF2) & Hc2 & Hh2 & Ht2 & Hb2 & Hm2).
  split; [|split_and!; try congruence].
  - exists (Lc ++ Lc'), (Fc' ++ Fc).
    split; [by rewrite app_assoc|]. split; [by rewrite app_assoc|].
    intros p. rewrite !elem_of_app, HF2, HF1.
    split.
    + intros [[Hp Hc]|[Hp Hc]]; [|tauto].
      split; [tauto|]. rewrite <- Hc1; [done|]. apply elem_of_app. tauto.
    + intros [[Hp|Hp] Hc]; [tauto|].
      left. split; [done|]. rewrite Hc1; [done|]. apply elem_of_app. tauto.
  - intros p Hp. rewrite Hc2 by done. apply Hc1. apply elem_of_app. tauto.
  - intros p Hp. rewrite Hm2, Hm1; [done|done|].
    rewrite Hh1. revert Hp. rewrite !elem_of_cons, !elem_of_app. tauto.
Qed.

Lemma pop_step_claimed fuel low s e V a L F :
  (5 <= fuel)%nat -> inv s (e :: V) (a :: L) F ->
  low (fst e) = false -> is_marked (snd e) = true ->
  exists s' F',
    pop_step fuel low tt s = Ok (inl tt) s' /\ inv s' V L F' /\
    pop_trace s (a :: L) F s' L F'.
Proof.
  intros Hf Hi Hlow Hm.
  destruct (inv_sentinels _ _ _ _ Hi) as (Hht & Vh & Vt & Hhd).
  destruct (inv_first _ _ _ _ _ _ Hi)
    as (Hha & Hat & Va & Hnh & (nx & Hnx & Hch & Vnx & Hnxa & Hnxh) &
        [Hk Hv] & Hcnt & Hsv).
  destruct (valid_ptr_bounds _ Va) as [Ha0 Ham].
  destruct (valid_ptr_bounds _ Vh) as [Hh0 Hhm].
  pose proof (inv_unlink_first _ _ _ _ _ _ _ Hi Hnx) as Hmid.
  pose proof (inv_head_cnt _ _ _ _ Hi) as Hch1.
  assert (get_unmarked (snd e) <> snd e) as Hne.
  { rewrite (stored_marked _ Hsv Hm). lia. }
  assert (a ∉ tracked (put (NextOf a) 1 (put (NextOf (head s)) nx s)) L F)
    as Huntracked.
  { unfold tracked. put_fields. open_inv Hi.
    apply NoDup_cons in inv_nodup as [_ Hnd].
    apply NoDup_cons in Hnd as [_ Hnd].
    apply NoDup_cons in Hnd as [Ha _]. elems. }
  unfold pop_step. step load_ok.
  destruct Hcnt as [Hc|Hc].
  - (* the link held the last reference: the node is reclaimed *)
    eapply (inv_reclaim _ _ _ _ a) in Hmid; [|done|done|cells..].
    eexists _, (a :: F). split; [|split; [exact Hmid|]]; cycle 1.
    { split.
      - exists [a], [a]. split; [done|]. split; [done|]. intros p.
        rewrite list_elem_of_singleton.
        split; [by intros ->|tauto].
      - put_fields. split_and!; try done.
        + intros p Hp. assert (p <> a) as Hpa.
          { intros ->. apply Huntracked. unfold tracked.
            rewrite !elem_of_cons, elem_of_app. tauto. }
          rewrite !cell_put_ne; [done|congruence..].
        + intros p Hp. rewrite !not_elem_of_cons in Hp.
          destruct Hp as (Hph & Hpa & _).
          rewrite !mem_put_ne; [done|simpl; congruence..]. }
    step read_next_ok. rewrite (valid_ptr_eqb _ Va).
    step load_ok. step get_tail_ok. rewrite Hlow. cbn [orb].
    rewrite tail_put. apply Z.eqb_neq in Hat as Hatb. rewrite Hatb.
    step load_ok. step cas_fail.
    erewrite bind_ok; cycle 1.
    { eapply (help_delete_first _ _ (head s) a nx 1 2);
        try cells; try done; try ilia. }
    cbv beta iota.
    step release_keep.
    erewrite bind_ok; cycle 1.
    { eapply (release_last _ _ 1); try cells; try done; try ilia. }
    unfold ret. f_equal. put_fields. state_eq.
  - (* the node was recycled: one reference is left, the node leaks *)
    exists (put (CounterOf a) 1 (put (NextOf a) 1 (put (NextOf (head s)) nx s))), F.
    split; [|split]; cycle 2.
    { split.
      - exists [a], []. split; [done|]. split; [done|]. intros p.
        rewrite elem_of_nil, list_elem_of_singleton.
        split; [done|]. intros [-> Hc1]. congruence.
      - put_fields. split_and!; try done.
        + intros p Hp. assert (p <> a) as Hpa.
          { intros ->. apply Huntracked. unfold tracked.
            rewrite !elem_of_cons, elem_of_app. tauto. }
          rewrite !cell_put_ne; [done|congruence..].
        + intros p Hp. rewrite !not_elem_of_cons in Hp.
          destruct Hp as (Hph & Hpa & _).
          rewrite !mem_put_ne; [done|simpl; congruence..]. }
    + step read_next_ok. rewrite (valid_ptr_eqb _ Va).
      step load_ok. step get_tail_ok. rewrite Hlow. cbn [orb].
      rewrite tail_put. apply Z.eqb_neq in Hat as Hatb. rewrite Hatb.
      step load_ok. step cas_fail.
      erewrite bind_ok; cycle 1.
      { eapply (help_delete_first _ _ (head s) a nx 1 3);
          try cells; try done; try ilia. }
      cbv beta iota.
      step release_keep. step release_keep.
      unfold ret. f_equal. state_eq.
    + eapply inv_frame; [exact Hmid|done|done|done|..].
      * intros p Hp. rewrite (mem_put_ne (CounterOf _)); [done|].
        simpl. intros [= <-]. done.
      * intros p Hp. do 3 apply mem_put_None.
        apply (inv_brk _ _ _ _ Hi). revert Hp. by put_fields.
      * put_fields. apply (inv_brk_valid _ _ _ _ Hi).
Qed.

(** ** [pop] on a quiescent state *)

Lemma pop_loop_trace low fuel V :
  (5 <= fuel)%nat ->
  forall n s L F,
    inv s V L F -> (length V < n)%nat ->
    exists s' L' F',
      loop n (pop_step fuel low) tt s = Ok (Some (fst (abs_pop low V))) s' /\
      inv s' (snd (abs_pop low V)) L' F' /\
      pop_trace s L F s' L' F'.
Proof.
  intros Hf. induction V as [|e V IH]; intros n s L F Hi Hn.
  - destruct n as [|n]; [simpl in Hn; lia|].
    pose proof (inv_view _ _ _ _ Hi) as Hv. inversion Hv; subst.
    exists s, [], F. split; [|split; [done|apply pop_trace_refl]].
    apply loop_exit. eapply pop_step_empty; [lia|done].
  - destruct n as [|n]; [simpl in Hn; lia|].
    pose proof (inv_view _ _ _ _ Hi) as Hv.
    inversion Hv as [|a ? L' ? _ _]; subst.
    cbn [abs_pop]. destruct (low (fst e)) eqn:Hlow.
    { exists s, (a :: L'), F. split; [|split; [done|apply pop_trace_refl]].
      apply loop_exit. eapply pop_step_low; [lia|done..]. }
    destruct (is_marked (snd e)) eqn:Hm.
    + destruct (pop_step_claimed fuel low _ _ _ _ _ _ Hf Hi Hlow Hm)
        as (s1 & F1 & Hrun & Hi1 & Ht1).
      destruct (IH n s1 L' F1 Hi1) as (s' & L'' & F'' & Hloop & Hi' & Ht');
        [simpl in Hn; lia|].
      exists s', L'', F''. split; [|split; [done|]].
      * erewrite loop_continue by exact Hrun. done.
      * by eapply pop_trace_trans.
    + exists (put (ValueOf a) (get_marked (snd e)) s), (a :: L'), F.
      split; [|split].
      * apply loop_exit. eapply pop_step_live; [lia|done..].
      * apply inv_claim_first; [done|].
        apply get_marked_bound; [|done].
        pose proof (inv_vals _ _ _ _ Hi) as Hvals. by inversion Hvals.
      * split; [exists [], []; split_and!; try done; intros p;
                 rewrite !elem_of_nil; tauto|].
        split_and!; try done.
        -- intros p Hp. by rewrite cell_put_ne.
        -- intros p Hp. rewrite !not_elem_of_cons in Hp.
           destruct Hp as (Hph & Hpa & _).
           rewrite mem_put_ne; [done|simpl; congruence].
Qed.

Lemma pop_loop_spec low fuel V :
  (5 <= fuel)%nat ->
  forall n s L F,
    inv s V L F -> (length V < n)%nat ->
    exists s' L' F',
      loop n (pop_step fuel low) tt s = Ok (Some (fst (abs_pop low V))) s' /\
      inv s' (snd (abs_pop low V)) L' F'.
Proof.
  intros Hf n s L F Hi Hn.
  destruct (pop_loop_trace low fuel V Hf n s L F Hi Hn)
    as (s' & L' & F' & Hloop & Hi' & _).
  by exists s', L', F'.
Qed.

Lemma pop_spec fuel s V :
  Inv s V -> (length V + 5 <= fuel)%nat ->
  exists s',
    pop fuel s = Ok (fst (abs_pop (fun _ => false) V)) s' /\
    Inv s' (snd (abs_pop (fun _ => false) V)).
Proof.
  intros (L & F & Hi) Hf.
  destruct (pop_loop_spec (fun _ => false) fuel V ltac:(lia) fuel s L F Hi)
    as (s' & L' & F' & Hloop & Hi'); [lia|].
  exists s'. split; [|by exists L', F'].
  unfold pop, pop_loop. by erewrite bind_ok by exact Hloop.
Qed.

(** [pop( K )] has no instantiation. *)
Lemma pop_key_ill_formed fuel t s : pop_key fuel t s = IllFormed.
Proof. reflexivity. Qed.

(** ** Holding a reference *)

Lemma cell_bump_ne p s c : c <> CounterOf p -> cell (bump p s) c = cell s c.
Proof.
  intros H. unfold bump. destruct (cell s (CounterOf p)); [|done].
  by rewrite cell_put_ne.
Qed.

Lemma cell_bump_eq p s c :
  cell s (CounterOf p) = Some c -> cell (bump p s) (CounterOf p) = Some (c + 1).
Proof. intros H. unfold bump. rewrite H. by eapply cell_put_eq. Qed.

Lemma tail_bump p s : tail (bump p s) = tail s.
Proof. unfold bump. destruct (cell s _); [apply tail_put|done]. Qed.

Lemma bump_comm p q s : bump p (bump q s) = bump q (bump p s).
Proof.
  destruct (decide (p = q)) as [->|Hne]; [done|].
  assert (cell (bump q s) (CounterOf p) = cell s (CounterOf p)) as H1
    by (apply cell_bump_ne; congruence).
  assert (cell (bump p s) (CounterOf q) = cell s (CounterOf q)) as H2
    by (apply cell_bump_ne; congruence).
  unfold bump in *.
  destruct (cell s (CounterOf p)) eqn:Hp, (cell s (CounterOf q)) eqn:Hq;
    rewrite ?H1, ?H2, ?Hp, ?Hq; try done.
  apply put_comm. congruence.
Qed.

Lemma put_bump c v p s :
  c <> CounterOf p -> put c v (bump p s) = bump p (put c v s).
Proof.
  intros Hne. unfold bump. rewrite cell_put_ne by done.
  destruct (cell s (CounterOf p)); [|done]. by apply put_comm.
Qed.

Lemma safe_read_bump f c p n s :
  (1 <= f)%nat -> cell s c = Some p -> valid_ptr p ->
  cell s (CounterOf p) = Some n -> int_min <= n < int_max ->
  c <> CounterOf p ->
  safe_read f c s = Ok p (bump p s).
Proof.
  intros Hf Hc [Hr Hm] Hn Hb Hne. unfold bump. rewrite Hn.
  eapply safe_read_ok; try done. lia.
Qed.

Lemma read_next_bump f node p n s :
  (2 <= f)%nat -> cell s (NextOf node) = Some p -> valid_ptr p ->
  cell s (CounterOf p) = Some n -> int_min <= n < int_max ->
  read_next f node s = Ok p (bump p s).
Proof.
  intros Hf Hc [Hr Hm] Hn Hb. unfold bump. rewrite Hn.
  eapply read_next_ok; try done. lia.
Qed.

Lemma release_bump f p n s :
  (2 <= f)%nat -> valid_ptr p ->
  cell s (CounterOf p) = Some n -> 1 <= n < int_max ->
  release f p (bump p s) = Ok tt s.
Proof.
  intros Hf [Hr Hm] Hn Hb. unfold bump. rewrite Hn.
  rewrite (release_keep f p (n + 1)); try done.
  - rewrite put_put, put_id; [done|]. rewrite Hn. f_equal. lia.
  - lia.
  - by eapply cell_put_eq.
  - unfold int_min, int_max in *. lia.
  - lia.
Qed.

(** ** Getting a node for [insert] *)

Lemma tracked_allocated s V L F p :
  inv s V L F -> p ∈ tracked s L F -> is_Some (cell s (CounterOf p)).
Proof.
  intros Hi Hp. open_inv Hi. unfold tracked in Hp.
  rewrite !elem_of_cons, elem_of_app in Hp.
  destruct Hp as [->|[->|[Hp|Hp]]]; try by eexists.
  - eapply Forall_forall in inv_cnt; [|done]. destruct inv_cnt; by eexists.
  - eapply Forall_forall in inv_free_cnt; [|done]. by eexists.
Qed.

Lemma tracked_below_brk s V L F p :
  inv s V L F -> p ∈ tracked s L F -> p < brk s.
Proof.
  intros Hi Hp. destruct (tracked_allocated _ _ _ _ _ Hi Hp) as [c Hc].
  destruct (Z.lt_ge_cases p (brk s)) as [|Hge]; [done|].
  apply (inv_brk _ _ _ _ Hi) in Hge. simpl in Hc. by rewrite Hge in Hc.
Qed.

Lemma is_marked_add_stride p :
  is_marked p = false -> is_marked (p + node_stride) = false.
Proof.
  rewrite !is_marked_odd, Z.odd_add. intros ->. done.
Qed.

(** Allocating a node leaves the invariant alone. *)
Lemma inv_alloc s V L F n :
  inv s V L F -> brk s + node_stride <= uintptr_max + 1 ->
  inv (alloc n s) V L F /\ valid_ptr (brk s) /\
  (brk s ∉ tracked (alloc n s) L F).
Proof.
  intros Hi Hroom.
  pose proof (inv_brk_valid _ _ _ _ Hi) as [Hb0 Hbm].
  assert (forall p, p ∈ tracked s L F -> p <> brk s) as Hne.
  { intros p Hp. apply (tracked_below_brk _ _ _ _ _ Hi) in Hp. lia. }
  split_and!.
  - eapply inv_frame; [exact Hi|done..| | |].
    + intros p Hp. simpl. rewrite lookup_insert_ne; [done|].
      intros E. by eapply Hne.
    + intros p Hp. simpl in *. rewrite lookup_insert_ne.
      * apply (inv_brk _ _ _ _ Hi). unfold node_stride in *. lia.
      * unfold node_stride in *. lia.
    + simpl. split; [unfold node_stride; lia|].
      by apply is_marked_add_stride.
  - split; [|done]. unfold node_stride in *. lia.
  - intros Hp. by eapply Hne.
Qed.

Lemma new_Node_ok n s :
  brk s + node_stride <= uintptr_max + 1 ->
  new_Node n s = Ok (brk s) (alloc n s).
Proof. intros H. unfold new_Node. apply Z.leb_le in H. by rewrite H. Qed.

Lemma get_new_node_fresh fuel v k s V L :
  (1 <= fuel)%nat -> inv s V L [] ->
  brk s + node_stride <= uintptr_max + 1 ->
  exists s',
    get_new_node fuel v k s = Ok (brk s) s' /\
    s' = alloc (mkNode k 1 v 0) s /\
    inv s' V L [] /\ detached s' (brk s) k v /\ (brk s ∉ tracked s' L []).
Proof.
  intros Hf Hi Hroom. eexists. split; [|split; [done|]].
  - destruct fuel as [|fuel]; [lia|]. unfold get_new_node.
    apply loop_exit.
    pose proof (inv_free _ _ _ _ Hi) as Hfree. cbn [chain] in Hfree.
    assert (cell s FreeList = Some 0) as Hfl by (simpl; by rewrite Hfree).
    step safe_read_null.
    change (0 =? 0) with true. cbv iota.
    erewrite bind_ok by (by apply new_Node_ok). done.
  - destruct (inv_alloc _ _ _ _ (mkNode k 1 v 0) Hi Hroom) as (Hi' & Vx & Hx).
    split_and!; try done.
    unfold detached. simpl. rewrite lookup_insert_eq. simpl.
    split_and!; try done. by left.
Qed.

(** Taking the first node of the free list. *)
Lemma inv_take_free s V L F x y k v :
  inv s V L (x :: F) -> cell s (NextOf x) = Some y ->
  let s' := put (ValueOf x) v (put (KeyOf x) k (put (CounterOf x) 2
              (put FreeList y s))) in
  inv s' V L F /\ detached s' x k v /\ x ∉ tracked s' L F.
Proof.
  intros Hi Hy s'. pose proof Hi as Hi0. open_inv Hi0.
  assert (forall c, slot_addr c <> Some x -> c <> FreeList ->
                    cell s' c = cell s c) as Hc.
  { intros c Hne1 Hne2. unfold s'. rewrite !cell_put_ne; try done.
    all: intros <-; by simpl in *. }
  assert (head s :: tail s :: L ++ x :: F ≡ₚ
          x :: head s :: tail s :: L ++ F) as HP.
  { rewrite <- (Permutation_middle L F x).
    etransitivity; [apply perm_skip, perm_swap|apply perm_swap]. }
  pose proof inv_nodup as Hnd. rewrite HP in Hnd.
  apply NoDup_cons in Hnd as [Hx Hnd].
  assert (forall b, b ∈ head s :: tail s :: L ++ F -> b <> x) as Hne.
  { intros b Hb ->. by apply Hx. }
  assert (forall c b, slot_addr c = Some b -> c <> FreeList ->
                      b ∈ head s :: tail s :: L ++ F ->
                      cell s' c = cell s c) as Hc'.
  { intros c b Hcb Hfl Hb. apply Hc; [|done]. rewrite Hcb.
    intros [= E]. by eapply Hne. }
  cbn [chain] in inv_free. destruct inv_free as [Hfl (y' & Hy' & Hfree)].
  assert (y' = y) as -> by congruence.
  assert (valid_ptr x) as Vx.
  { rewrite !Forall_cons, Forall_app, Forall_cons in inv_valid. tauto. }
  assert (Forall valid_ptr (head s :: tail s :: L ++ F)) as Hvalid.
  { rewrite !Forall_cons, Forall_app, Forall_cons in inv_valid.
    rewrite !Forall_cons, Forall_app. tauto. }
  apply Forall_cons in inv_free_cnt as [Hcx Hfc].
  split_and!.
  - constructor; try done.
    + intros p Hp. unfold s'. do 4 apply mem_put_None. by apply inv_brk.
    + erewrite Hc'; [done..|elems].
    + erewrite Hc'; [done..|elems].
    + erewrite Hc'; [done..|elems].
    + erewrite !Hc'; [done..|elems|done|done|elems].
    + destruct inv_chain as (p1 & Hp1 & Hch). exists p1. split.
      * erewrite Hc'; [done..|elems].
      * eapply chain_frame; [|done]. intros b Hb.
        eapply Hc'; [done..|elems].
    + eapply Forall_frame; [|done]. intros b Hb Hcb. cbv beta in *.
      erewrite Hc'; [done..|elems].
    + eapply view_frame; [|done]. intros b Hb.
      split; (eapply Hc'; [done..|elems]).
    + eapply chain_frame; [|done]. intros b Hb.
      eapply Hc'; [done..|elems].
    + eapply Forall_frame; [|done]. intros b Hb Hcb. cbv beta in *.
      erewrite Hc'; [done..|elems].
  - assert (exists n, mem s !! x = Some n) as [n Hn].
    { simpl in Hcx. destruct (mem s !! x); [by eexists|done]. }
    assert (cell s (KeyOf x) = Some (key n)) as Hkx by (simpl; by rewrite Hn).
    assert (cell s (ValueOf x) = Some (value n)) as Hvx
      by (simpl; by rewrite Hn).
    unfold detached, s'. split_and!; try done.
    + rewrite cell_put_ne by done. eapply cell_put_eq.
      by rewrite !cell_put_ne by done.
    + eapply cell_put_eq. by rewrite !cell_put_ne by done.
    + right. rewrite !cell_put_ne by done. by eapply cell_put_eq.
    + rewrite !cell_put_ne by done. by eexists.
  - done.
Qed.

Lemma get_new_node_recycled fuel v k s V L F x :
  (2 <= fuel)%nat -> inv s V L (x :: F) ->
  exists s',
    get_new_node fuel v k s = Ok x s' /\
    inv s' V L F /\ detached s' x k v /\ (x ∉ tracked s' L F) /\
    cell s' (CounterOf x) = Some 2 /\ brk s' = brk s /\
    head s' = head s /\ tail s' = tail s /\
    (forall p, p <> x -> mem s' !! p = mem s !! p).
Proof.
  intros Hf Hi. pose proof Hi as Hi0. open_inv Hi0.
  cbn [chain] in inv_free. destruct inv_free as [Hfl (y & Hy & Hfree)].
  apply Forall_cons in inv_free_cnt as [Hcx Hfc].
  assert (valid_ptr x) as Vx.
  { rewrite !Forall_cons, Forall_app, Forall_cons in inv_valid. tauto. }
  destruct (inv_take_free _ _ _ _ _ y k v Hi Hy) as (Hi' & Hd & Hnt).
  eexists. split; [|split_and!; try done].
  - destruct fuel as [|fuel]; [lia|]. unfold get_new_node.
    apply loop_exit.
    assert (cell s FreeList = Some x) as Hflc by (simpl; congruence).
    destruct (valid_ptr_bounds _ Vx) as [Hx0 Hxm].
    assert (exists n, mem s !! x = Some n) as [n Hn].
    { simpl in Hcx. destruct (mem s !! x); [by eexists|done]. }
    assert (cell s (KeyOf x) = Some (key n)) as Hkx by (simpl; by rewrite Hn).
    assert (cell s (ValueOf x) = Some (value n)) as Hvx
      by (simpl; by rewrite Hn).
    step safe_read_ok.
    rewrite (valid_ptr_eqb _ Vx).
    step load_ok. step cas_ok. step fetch_add_ok.
    step store_ok. step store_ok.
    unfold ret. f_equal. state_eq.
  - rewrite !cell_put_ne by done. by eapply cell_put_eq.
  - intros p Hp. rewrite !mem_put_ne; [done|simpl; congruence..].
Qed.

(** ** The walk of [insert] *)

Lemma last_elem (L : list Z) d : List.last L d ∈ d :: L.
Proof.
  revert d. induction L as [|a L IH]; intros d; [simpl; elems|].
  change (List.last (a :: L) d) with
    (match L with [] => a | _ => List.last L d end).
  destruct L as [|b L]; [elems|]. specialize (IH d).
  change (List.last (b :: L) d) with
    (match L with [] => b | _ => List.last L d end) in *.
  rewrite !elem_of_cons in *. tauto.
Qed.

Lemma last_snoc (L : list Z) a d : List.last (L ++ [a]) d = a.
Proof. apply List.last_last. Qed.

(** The nodes of the list and the sentinels hold one or two references. *)
Lemma inv_node s V L F p :
  inv s V L F -> p ∈ head s :: tail s :: L ->
  valid_ptr p /\
  exists c, cell s (CounterOf p) = Some c /\ 1 <= c <= 2.
Proof.
  intros Hi Hp. open_inv Hi. split.
  - eapply Forall_forall in inv_valid; [done|]. elems.
  - rewrite !elem_of_cons in Hp. destruct Hp as [->|[->|Hp]].
    + exists 1. split; [done|lia].
    + exists 1. split; [done|lia].
    + eapply Forall_forall in inv_cnt; [|done].
      destruct inv_cnt; [exists 1|exists 2]; split; try done; lia.
Qed.

Lemma find_position_walk fuel k v s V L F :
  (3 <= fuel)%nat -> inv s V L F ->
  forall V2 L2 V1 L1 prev node n,
    V = V1 ++ V2 -> L = L1 ++ L2 ->
    Forall2 (entry_at s) L1 V1 -> Forall2 (entry_at s) L2 V2 ->
    prev = List.last L1 (head s) ->
    cell s (NextOf prev) = Some node -> chain s node L2 (tail s) ->
    (length V2 < n)%nat ->
    exists V1' V2' L1' L2' prev' node',
      V = V1' ++ V2' /\ L = L1' ++ L2' /\
      Forall2 (entry_at s) L1' V1' /\
      V1 ++ abs_insert k v V2 = V1' ++ (k, v) :: V2' /\
      prev' = List.last L1' (head s) /\
      cell s (NextOf prev') = Some node' /\ chain s node' L2' (tail s) /\
      loop n (find_position_step fuel k) (prev, node)
           (bump node (bump prev s)) =
      Ok (prev', node') (bump node' (bump prev' s)).
Proof.
  intros Hf Hi. induction V2 as [|e V2 IH];
    intros L2 V1 L1 prev node n HV HL H1 H2 Hprev Hnext Hch Hn.
  - inversion H2; subst L2. cbn [chain] in Hch. subst node.
    destruct n as [|n]; [simpl in Hn; lia|].
    exists V1, [], L1, [], prev, (tail s). split_and!; try done.
    apply loop_exit. unfold find_position_step.
    pose proof (inv_sentinel_keys _ _ _ _ Hi) as [_ Hkt].
    erewrite bind_ok; cycle 1.
    { apply load_ok. rewrite !cell_bump_ne by done. exact Hkt. }
    step get_tail_ok. rewrite !tail_bump, Z.eqb_refl, andb_false_r. done.
  - inversion H2 as [|a ? L2' ? [Hk Hv] H2']; subst.
    cbn [chain] in Hch. destruct Hch as [-> (nx & Hnx & Hch)].
    destruct n as [|n]; [simpl in Hn; lia|].
    pose proof (inv_nodup _ _ _ _ Hi) as Hnd.
    apply NoDup_cons in Hnd as [Hh Hnd]. apply NoDup_cons in Hnd as [Ht Hnd].
    rewrite <- app_assoc in Hnd. apply NoDup_app in Hnd as (_ & Hd1 & Hnd).
    apply NoDup_app in Hnd as (Hnd & _ & _).
    apply NoDup_cons in Hnd as [Ha _].
    assert (a <> tail s) as Hat by (intros ->; apply Ht; elems).
    pose proof (last_elem L1 (head s)) as Hpl.
    set (prev := List.last L1 (head s)) in *.
    assert (prev <> a) as Hpa.
    { intros E. rewrite E in Hpl. apply elem_of_cons in Hpl as [->|Hpl].
      - apply Hh. elems.
      - apply (Hd1 _ Hpl). elems. }
    destruct (inv_node _ _ _ _ prev Hi) as (Vp & cp & Hcp & Bcp).
    { revert Hpl. rewrite !elem_of_cons, !elem_of_app. tauto. }
    destruct (inv_node _ _ _ _ a Hi) as (Va & ca & Hca & Bca); [elems|].
    cbn [abs_insert]. destruct (k >? fst e) eqn:Hgt.
    + exists V1, (e :: V2), L1, (a :: L2'), prev, a. split_and!; try done.
      { cbn [chain]. split; [done|]. by exists nx. }
      apply loop_exit. unfold find_position_step.
      erewrite bind_ok; cycle 1.
      { apply load_ok. rewrite !cell_bump_ne by done. exact Hk. }
      step get_tail_ok. rewrite Hgt. done.
    + assert (valid_ptr nx /\ nx <> a /\
              exists cn, cell s (CounterOf nx) = Some cn /\ 1 <= cn <= 2)
        as (Vnx & Hnxa & cn & Hcn & Bcn).
      { apply chain_start in Hch as Hst.
        assert (nx ∈ head s :: tail s :: L1 ++ a :: L2') as Hin
          by (destruct Hst as [[-> _]|[L' ->]]; elems).
        destruct (inv_node _ _ _ _ nx Hi Hin) as (? & ?).
        split_and!; try done.
        destruct Hst as [[-> _]|[L' ->]]; [congruence|].
        intros ->. apply Ha. elems. }
      destruct (IH L2' (V1 ++ [e]) (L1 ++ [a]) a nx n)
        as (V1' & V2' & L1' & L2'' & prev' & node' & E1 & E2 & HF & E3 & E4 &
            E5 & E6 & Hloop).
      { by rewrite <- app_assoc. }
      { by rewrite <- app_assoc. }
      { apply Forall2_app; [done|]. by repeat constructor. }
      { done. }
      { by rewrite last_snoc. }
      { done. }
      { done. }
      { simpl in Hn. lia. }
      exists V1', V2', L1', L2'', prev', node'. split_and!; try done.
      { by rewrite <- E3, <- app_assoc. }
      erewrite loop_continue; [exact Hloop|].
      unfold find_position_step.
      erewrite bind_ok; cycle 1.
      { apply load_ok. rewrite !cell_bump_ne by done. exact Hk. }
      step get_tail_ok. rewrite Hgt, tail_bump, tail_bump. cbn [negb andb].
      apply Z.eqb_neq in Hat as ->. cbn [negb].
      rewrite bump_comm.
      erewrite bind_ok; cycle 1.
      { eapply (release_bump _ prev cp); try done; [lia| |ilia].
        rewrite cell_bump_ne by congruence. done. }
      erewrite bind_ok; cycle 1.
      { eapply (read_next_bump _ a nx cn); try done; [lia| | |ilia].
        - by rewrite cell_bump_ne.
        - rewrite cell_bump_ne by congruence. done. }
      by rewrite bump_comm.
Qed.

(** ** Linking the new node *)

Lemma last_cons (L : list Z) a d : List.last (a :: L) d = List.last L a.
Proof.
  revert a d. induction L as [|b L IH]; intros a d; [done|].
  change (List.last (a :: b :: L) d) with (List.last (b :: L) d).
  by rewrite !IH.
Qed.

Lemma chain_link s x node L2 t :
  is_Some (cell s (NextOf x)) -> chain s node L2 t ->
  forall L1 p0 p,
    cell s (NextOf p0) = Some p -> chain s p (L1 ++ L2) t ->
    NoDup (p0 :: L1 ++ L2) -> x ∉ p0 :: L1 ++ L2 ->
    exists p',
      cell (put (NextOf (List.last L1 p0)) x (put (NextOf x) node s))
           (NextOf p0) = Some p' /\
      chain (put (NextOf (List.last L1 p0)) x (put (NextOf x) node s))
            p' (L1 ++ x :: L2) t.
Proof.
  intros [y Hy] Hnode. induction L1 as [|a L1 IH]; intros p0 p Hp Hch Hnd Hx.
  - cbn [app List.last] in *. exists x. split.
    + eapply cell_put_eq. rewrite cell_put_ne; [done|].
      intros [= ->]. apply Hx. elems.
    + split; [done|]. exists node. split.
      * rewrite cell_put_ne by (intros [= ->]; apply Hx; elems).
        by eapply cell_put_eq.
      * eapply chain_frame; [|done]. intros b Hb.
        apply NoDup_cons in Hnd as [Hp0 _].
        rewrite !cell_put_ne; [done|..]; intros [= ->].
        -- apply Hx. elems.
        -- by apply Hp0.
  - cbn [app chain] in Hch. destruct Hch as [-> (p2 & Hp2 & Hch)].
    rewrite last_cons.
    apply NoDup_cons in Hnd as [Hp0 Hnd].
    destruct (IH a p2 Hp2 Hch Hnd) as (p' & Hp' & Hch').
    { intros Hin. apply Hx. cbn [app]. elems. }
    exists a. split.
    + pose proof (last_elem L1 a) as Hl.
      rewrite !cell_put_ne; [done|..]; intros [= E].
      * apply Hx. rewrite E. elems.
      * apply Hp0. rewrite <- E. cbn [app].
        revert Hl. rewrite !elem_of_cons, !elem_of_app. tauto.
    + cbn [app chain]. split; [done|]. by exists p'.
Qed.

Lemma abs_insert_sorted k v V :
  Sorted Z.ge (map fst V) -> Sorted Z.ge (map fst (abs_insert k v V)).
Proof.
  induction V as [|e V IH]; intros HS; cbn [abs_insert].
  - repeat constructor.
  - destruct (k >? fst e) eqn:Hgt.
    + simpl. constructor; [done|]. constructor.
      apply Z.gtb_lt in Hgt. simpl. lia.
    + simpl in *. inversion HS as [|?? HS' Hhd]; subst.
      constructor; [by apply IH|].
      destruct V as [|e' V]; cbn [abs_insert].
      * constructor. simpl.
        destruct (Z.gtb_spec k (fst e)); [done|lia].
      * destruct (k >? fst e'); simpl.
        -- constructor. destruct (Z.gtb_spec k (fst e)); [done|lia].
        -- by inversion Hhd; subst; constructor.
Qed.

Lemma inv_link s V1 V2 L1 L2 F x k v node :
  inv s (V1 ++ V2) (L1 ++ L2) F -> Forall2 (entry_at s) L1 V1 ->
  detached s x k v -> x ∉ tracked s (L1 ++ L2) F ->
  cell s (NextOf (List.last L1 (head s))) = Some node ->
  chain s node L2 (tail s) ->
  0 <= v <= uintptr_max ->
  Sorted Z.ge (map fst (V1 ++ (k, v) :: V2)) ->
  inv (put (NextOf (List.last L1 (head s))) x (put (NextOf x) node s))
      (V1 ++ (k, v) :: V2) (L1 ++ x :: L2) F.
Proof.
  intros Hi H1 (Vx & Hkx & Hvx & Hcx & Hnx) Hx Hprev Hnode Hv HS.
  unfold tracked in Hx. pose proof Hi as Hi0. open_inv Hi0.
  remember (List.last L1 (head s)) as prev eqn:Hp.
  remember (put (NextOf prev) x (put (NextOf x) node s)) as s' eqn:Hs'.
  assert (forall c, c <> NextOf prev -> c <> NextOf x ->
                    cell s' c = cell s c) as Hc.
  { intros c Hne1 Hne2. rewrite Hs'. by rewrite !cell_put_ne. }
  assert (prev ∈ head s :: L1) as Hpl by (rewrite Hp; apply last_elem).
  assert (head s' = head s) as Hh' by (by rewrite Hs').
  assert (free_list s' = free_list s) as Hf' by (by rewrite Hs').
  assert (tail s' = tail s) as Ht' by (by rewrite Hs').
  assert (brk s' = brk s) as Hb' by (by rewrite Hs').
  assert (head s :: tail s :: (L1 ++ x :: L2) ++ F ≡ₚ
          x :: head s :: tail s :: (L1 ++ L2) ++ F) as HP.
  { rewrite <- (Permutation_middle L1 L2 x). cbn [app].
    etransitivity; [apply perm_skip, perm_swap|apply perm_swap]. }
  assert (NoDup (head s :: tail s :: (L1 ++ x :: L2) ++ F)) as Hnd'.
  { rewrite HP. apply NoDup_cons. split; [done|done]. }
  pose proof inv_nodup as Hnd.
  apply NoDup_cons in Hnd as [Hh Hnd]. apply NoDup_cons in Hnd as [Ht Hnd].
  apply NoDup_app in Hnd as (HndL & HLF & HndF).
  assert (forall b, b ∈ F -> b <> prev /\ b <> x) as HneF.
  { intros b Hb. split; intros ->.
    - apply elem_of_cons in Hpl as [->|Hpl]; [apply Hh; elems|].
      apply (HLF prev); [elems|done].
    - apply Hx. elems. }
  pose proof (Forall2_length _ _ _ H1) as Hlen.
  apply Forall2_app_inv in inv_view as [_ H2]; [|done].
  assert (tail s <> prev /\ tail s <> x) as [Htp Htx].
  { split; intros E.
    - apply Ht. rewrite E. apply elem_of_cons in Hpl as [E'|Hpl]; [|elems].
      exfalso. apply Hh. rewrite <- E', <- E. elems.
    - apply Hx. rewrite <- E. elems. }
  constructor; rewrite ?Hh', ?Hf', ?Ht', ?Hb'; rewrite ?Hc by congruence;
    try done.
  - revert inv_valid. rewrite !Forall_cons, !Forall_app, !Forall_cons.
    tauto.
  - intros p Hpb. rewrite Hs'. do 2 apply mem_put_None. by apply inv_brk.
  - destruct inv_chain as (p1 & Hp1 & Hch).
    rewrite Hs', Hp. eapply chain_link; try done.
    + apply NoDup_cons. split; [|done]. intros Hin. apply Hh. elems.
    + intros Hin. apply Hx. elems.
  - revert inv_cnt. rewrite !Forall_app, !Forall_cons.
    intros [Hc1 Hc2]. split_and!.
    + eapply Forall_frame; [|done]. intros b Hb Hcb. cbv beta in *.
      by rewrite Hc by congruence.
    + by rewrite Hc by congruence.
    + eapply Forall_frame; [|done]. intros b Hb Hcb. cbv beta in *.
      by rewrite Hc by congruence.
  - apply Forall2_app; [|constructor].
    + eapply view_frame; [|done]. intros b Hb. by rewrite !Hc by congruence.
    + split; by rewrite Hc by congruence.
    + eapply view_frame; [|done]. intros b Hb. by rewrite !Hc by congruence.
  - revert inv_vals. rewrite !Forall_app, !Forall_cons.
    intros [??]. by split_and!.
  - eapply chain_frame; [|done]. intros b Hb.
    destruct (HneF b Hb). apply Hc; congruence.
  - eapply Forall_frame; [|done]. intros b Hb Hcb. cbv beta in *.
    by rewrite Hc by congruence.
Qed.

(** ** [insert] on a quiescent state *)

Lemma get_new_node_spec fuel v k s V L F :
  (2 <= fuel)%nat -> inv s V L F ->
  free_list s <> 0 \/ brk s + node_stride <= uintptr_max + 1 ->
  exists s1 x F1,
    get_new_node fuel v k s = Ok x s1 /\
    inv s1 V L F1 /\ detached s1 x k v /\ (x ∉ tracked s1 L F1) /\
    brk s <= brk s1 <= brk s + node_stride.
Proof.
  intros Hf Hi Hroom. destruct F as [|x F].
  - pose proof (inv_free _ _ _ _ Hi) as Hfree. cbn [chain] in Hfree.
    destruct Hroom as [?|Hroom]; [done|].
    destruct (get_new_node_fresh fuel v k s V L ltac:(lia) Hi Hroom)
      as (s1 & Hrun & -> & Hi1 & Hd & Hx).
    exists (alloc (mkNode k 1 v 0) s), (brk s), []. split_and!; try done.
    all: simpl; unfold node_stride; lia.
  - destruct (get_new_node_recycled fuel v k s V L F x Hf Hi)
      as (s1 & Hrun & Hi1 & Hd & Hx & _ & Hb & _).
    exists s1, x, F. split_and!; try done.
    all: rewrite Hb; unfold node_stride; lia.
Qed.

Lemma insert_step_trace fuel v k x s V L F :
  (length V + 4 <= fuel)%nat -> inv s V L F ->
  detached s x k v -> x ∉ tracked s L F -> 0 <= v <= uintptr_max ->
  exists s' L',
    insert_step fuel k x tt s = Ok (inr tt) s' /\
    inv s' (abs_insert k v V) L' F /\ brk s' = brk s /\
    insert_trace s L x s' L' /\
    cell s' (CounterOf x) = cell s (CounterOf x).
Proof.
  intros Hf Hi Hd Hx Hv.
  destruct (inv_sentinels _ _ _ _ Hi) as (Hht & Vh & Vt & Hhd).
  pose proof (inv_chain _ _ _ _ Hi) as (p1 & Hp1 & Hch).
  destruct (inv_node _ _ _ _ (head s) Hi) as (_ & ch & Hchd & Bch); [elems|].
  assert (p1 ∈ head s :: tail s :: L) as Hp1in.
  { apply chain_start in Hch as [[-> _]|[L' ->]]; elems. }
  destruct (inv_node _ _ _ _ p1 Hi Hp1in) as (Vp1 & c1 & Hc1 & Bc1).
  destruct (find_position_walk fuel k v s V L F ltac:(lia) Hi
              V L [] [] (head s) p1 fuel)
    as (V1 & V2 & L1 & L2 & prev & node & EV & EL & HF1 & Eabs & Eprev &
        Hnext & Hnode & Hloop); try done.
  { apply (inv_view _ _ _ _ Hi). }
  { lia. }
  cbn [app] in Eabs.
  assert (prev ∈ head s :: tail s :: L) as Hprevin.
  { pose proof (last_elem L1 (head s)) as Hl. rewrite <- Eprev in Hl.
    rewrite EL. revert Hl. rewrite !elem_of_cons, !elem_of_app. tauto. }
  assert (node ∈ head s :: tail s :: L) as Hnodein.
  { rewrite EL. apply chain_start in Hnode as [[-> _]|[L' ->]]; elems. }
  destruct (inv_node _ _ _ _ prev Hi Hprevin) as (Vprev & cp & Hcp & Bcp).
  destruct (inv_node _ _ _ _ node Hi Hnodein) as (Vnode & cn & Hcn & Bcn).
  assert (prev <> x /\ node <> x) as [Hpx Hnx].
  { unfold tracked in Hx. split; intros ->; apply Hx; elems. }
  pose proof Hd as (Vx & Hkx & Hvx & Hcx & [y Hy]).
  set (sl := put (NextOf prev) x (put (NextOf x) node s)).
  assert (inv sl (abs_insert k v V) (L1 ++ x :: L2) F) as Hil.
  { rewrite Eabs. unfold sl. rewrite Eprev. apply inv_link; try done.
    - by rewrite <- EV, <- EL.
    - by rewrite <- EL.
    - by rewrite <- Eprev.
    - rewrite <- Eabs. apply abs_insert_sorted. apply (inv_sorted _ _ _ _ Hi). }
  assert (forall p, cell sl (CounterOf p) = cell s (CounterOf p)) as Hcnt.
  { intros p. unfold sl. by rewrite !cell_put_ne. }
  exists sl, (L1 ++ x :: L2). split_and!; [|done|done| |apply Hcnt].
  2:{ split; [by rewrite EL, Permutation_middle|].
      split; [intros p _; apply Hcnt|]. split; [done|]. split; [done|].
      intros p Hp. rewrite !not_elem_of_cons in Hp.
      destruct Hp as (Hph & Hpx' & HpL).
      assert (p <> prev) as Hpp.
      { intros ->. pose proof (last_elem L1 (head s)) as Hl.
        rewrite <- Eprev in Hl. apply elem_of_cons in Hl as [?|Hl]; [done|].
        apply HpL. rewrite EL. apply elem_of_app. by left. }
      unfold sl. rewrite !mem_put_ne; [done|simpl; congruence..]. }
  unfold insert_step.
  erewrite bind_ok; cycle 1.
  { eapply (safe_read_bump _ Head (head s) ch); try done; try lia; ilia. }
  erewrite bind_ok; cycle 1.
  { eapply (read_next_bump _ (head s) p1 (if decide (p1 = head s)
                                          then ch + 1 else c1));
      try done; try lia.
    - by rewrite cell_bump_ne.
    - case_decide as E.
      + rewrite E. by eapply cell_bump_eq.
      + rewrite cell_bump_ne by congruence. done.
    - case_decide; ilia. }
  erewrite bind_ok by exact Hloop. cbv beta iota.
  erewrite bind_ok; cycle 1.
  { eapply store_ok. rewrite !cell_bump_ne by done. exact Hy. }
  erewrite bind_ok; cycle 1.
  { eapply cas_ok. rewrite cell_put_ne by congruence.
    rewrite !cell_bump_ne by done. exact Hnext. }
  rewrite !put_bump by done. fold sl.
  rewrite bump_comm.
  erewrite bind_ok; cycle 1.
  { eapply (release_bump _ prev (if decide (prev = node)
                                 then cn + 1 else cp));
      try done; try lia.
    - case_decide as E.
      + rewrite E. eapply cell_bump_eq. by rewrite Hcnt.
      + rewrite cell_bump_ne by congruence. by rewrite Hcnt.
    - case_decide; ilia. }
  erewrite bind_ok; cycle 1.
  { eapply (release_bump _ node cn); try done; try lia; try ilia.
    by rewrite Hcnt. }
  done.
Qed.

Lemma insert_step_spec fuel v k x s V L F :
  (length V + 4 <= fuel)%nat -> inv s V L F ->
  detached s x k v -> x ∉ tracked s L F -> 0 <= v <= uintptr_max ->
  exists s',
    insert_step fuel k x tt s = Ok (inr tt) s' /\
    Inv s' (abs_insert k v V) /\ brk s' = brk s.
Proof.
  intros Hf Hi Hd Hx Hv.
  destruct (insert_step_trace fuel v k x s V L F Hf Hi Hd Hx Hv)
    as (s' & L' & Hrun & Hi' & Hb & _).
  exists s'. split; [done|]. split; [by exists L', F|done].
Qed.

(** [insert] on a quiescent state takes the first node of the free list,
    or allocates one when the free list is empty. *)
Lemma insert_trace_spec fuel v k s V L F :
  inv s V L F -> 0 <= v <= uintptr_max ->
  free_list s <> 0 \/ brk s + node_stride <= uintptr_max + 1 ->
  (length V + 4 <= fuel)%nat ->
  exists s' x L' F',
    insert fuel v k s = Ok tt s' /\ inv s' (abs_insert k v V) L' F' /\
    insert_trace s L x s' L' /\
    ((F = x :: F' /\ brk s' = brk s /\ cell s' (CounterOf x) = Some 2) \/
     (F = [] /\ F' = [] /\ x = brk s /\ brk s' = brk s + node_stride /\
      cell s' (CounterOf x) = Some 1)).
Proof.
  intros Hi Hv Hroom Hf.
  assert (forall x s1 F1,
    get_new_node fuel v k s = Ok x s1 -> inv s1 V L F1 ->
    detached s1 x k v -> x ∉ tracked s1 L F1 ->
    head s1 = head s -> tail s1 = tail s ->
    (forall p, p <> x -> mem s1 !! p = mem s !! p) ->
    exists s' L',
      insert fuel v k s = Ok tt s' /\ inv s' (abs_insert k v V) L' F1 /\
      insert_trace s L x s' L' /\ brk s' = brk s1 /\
      cell s' (CounterOf x) = cell s1 (CounterOf x)) as Hgo.
  { intros x s1 F1 Hnew Hi1 Hd Hx Hh Ht Hm.
    destruct (insert_step_trace fuel v k x s1 V L F1 Hf Hi1 Hd Hx Hv)
      as (s' & L' & Hstep & Hi' & Hb' & (HP & Hc & Hh' & Ht' & Hm') & Hcx).
    exists s', L'. split_and!; try done.
    - unfold insert. erewrite bind_ok by exact Hnew.
      destruct fuel as [|fuel]; [lia|]. by apply loop_exit.
    - split; [done|]. split_and!; try congruence.
      + intros p Hp. rewrite Hc by done.
        assert (p <> x) as Hpx.
        { intros ->. apply Hx. unfold tracked.
          rewrite !elem_of_cons, elem_of_app. tauto. }
        simpl. by rewrite Hm.
      + intros p Hp. rewrite Hm'; [|by rewrite Hh].
        apply Hm. rewrite !not_elem_of_cons in Hp. tauto. }
  destruct F as [|x F].
  - pose proof (inv_free _ _ _ _ Hi) as Hfree. cbn [chain] in Hfree.
    destruct Hroom as [?|Hroom]; [done|].
    destruct (get_new_node_fresh fuel v k s V L ltac:(lia) Hi Hroom)
      as (s1 & Hrun & -> & Hi1 & Hd & Hx).
    destruct (Hgo _ _ _ Hrun Hi1 Hd Hx) as (s' & L' & H1 & H2 & H3 & H4 & H5);
      try done.
    { intros p Hp. simpl. by rewrite lookup_insert_ne. }
    exists s', (brk s), L', []. split_and!; try done.
    right. split_and!; try done.
    rewrite H5. simpl. by rewrite lookup_insert_eq.
  - destruct (get_new_node_recycled fuel v k s V L F x ltac:(lia) Hi)
      as (s1 & Hrun & Hi1 & Hd & Hx & Hc2 & Hb & Hh & Ht & Hm).
    destruct (Hgo _ _ _ Hrun Hi1 Hd Hx Hh Ht Hm)
      as (s' & L' & H1 & H2 & H3 & H4 & H5).
    exists s', x, L', F. split_and!; try done.
    left. split_and!; try done; congruence.
Qed.

Lemma insert_spec fuel v k s V :
  Inv s V -> 0 <= v <= uintptr_max ->
  free_list s <> 0 \/ brk s + node_stride <= uintptr_max + 1 ->
  (length V + 4 <= fuel)%nat ->
  exists s',
    insert fuel v k s = Ok tt s' /\ Inv s' (abs_insert k v V) /\
    brk s <= brk s' <= brk s + node_stride.
Proof.
  intros (L & F & Hi) Hv Hroom Hf.
  destruct (get_new_node_spec fuel v k s V L F ltac:(lia) Hi Hroom)
    as (s1 & x & F1 & Hnew & Hi1 & Hd & Hx & Hb).
  destruct (insert_step_spec fuel v k x s1 V L F1 Hf Hi1 Hd Hx Hv)
    as (s' & Hstep & Hi' & Hb').
  exists s'. split_and!; try done; try lia.
  unfold insert. erewrite bind_ok by exact Hnew.
  destruct fuel as [|fuel]; [lia|]. by apply loop_exit.
Qed.

(** ** The constructor *)

Lemma fresh_queue_eq :
  fresh_queue =
  mkQueue (<[64 := mkNode int_max 1 0 32]> (<[32 := mkNode int_min 1 0 0]> ∅))
          0 64 32 96.
Proof.
  apply queue_ext; [|done..].
  intros [| |p|p|p|p]; try done; cbn [cell].
  all: unfold fresh_queue; cbn.
  all: rewrite ?lookup_alter, ?lookup_insert; repeat case_decide; subst;
    try done; try lia.
Qed.

Lemma priority_queue_ctor_ok : priority_queue_ctor blank = Ok tt fresh_queue.
Proof. reflexivity. Qed.

Lemma fresh_queue_inv : inv fresh_queue [] [] [].
Proof.
  rewrite fresh_queue_eq.
  constructor; cbn [head tail free_list brk mem app chain cell].
  - repeat constructor; rewrite ?elem_of_cons, ?elem_of_nil; lia.
  - repeat constructor; unfold uintptr_max, uintptr_bits; lia.
  - intros p Hp. rewrite !lookup_insert_ne by lia. done.
  - split; [lia|done].
  - by rewrite lookup_insert_eq.
  - rewrite lookup_insert_ne by lia. by rewrite lookup_insert_eq.
  - rewrite lookup_insert_ne by lia. by rewrite lookup_insert_eq.
  - rewrite lookup_insert_eq, lookup_insert_ne, lookup_insert_eq by lia. done.
  - exists 32. by rewrite lookup_insert_eq.
  - constructor.
  - constructor.
  - constructor.
  - constructor.
  - done.
  - constructor.
Qed.

Lemma fresh_queue_Inv : Inv fresh_queue [].
Proof. exists [], []. apply fresh_queue_inv. Qed.

(** ** More fuel never changes a result *)

Lemma refines_refl {A} (m : M A) : refines m m.
Proof. by intros s a s'. Qed.

Lemma refines_bind {A B} (m m' : M A) (k k' : A -> M B) :
  refines m m' -> (forall a, refines (k a) (k' a)) ->
  refines (bind m k) (bind m' k').
Proof.
  intros Hm Hk s b s'. unfold bind.
  destruct (m s) as [a s1| | | |] eqn:E; try done.
  rewrite (Hm _ _ _ E). apply Hk.
Qed.

Lemma refines_loop {A B} (body body' : A -> M (A + B)) n n' :
  (n <= n')%nat -> (forall a, refines (body a) (body' a)) ->
  forall a, refines (loop n body a) (loop n' body' a).
Proof.
  intros Hn Hb. revert n' Hn. induction n as [|n IH]; intros n' Hn a.
  - by intros s b s'.
  - destruct n' as [|n']; [lia|]. rewrite !loop_S.
    apply refines_bind; [done|]. intros [a'|b]; [|apply refines_refl].
    apply IH. lia.
Qed.

Ltac mono_step :=
  first
    [ apply refines_refl
    | apply refines_loop; [lia|intros ?]
    | apply refines_bind; [|intros ?]
    | match goal with
      | |- refines (if ?b then _ else _) _ => destruct b
      | |- refines (match ?x with _ => _ end) _ => destruct x
      | |- refines (let '(_, _) := ?x in _) _ => destruct x
      end ].

Ltac mono := repeat mono_step.

Lemma reclaim_mono f f' p :
  (f <= f')%nat -> refines (reclaim f p) (reclaim f' p).
Proof. intros Hf. unfold reclaim. mono. Qed.

Lemma release_mono f f' :
  (f <= f')%nat -> forall p, refines (release f p) (release f' p).
Proof.
  revert f'. induction f as [|f IH]; intros f' Hf p; [by intros s a s'|].
  destruct f' as [|f']; [lia|]. cbn [release]. mono.
  apply IH. lia.
Qed.

Ltac mono_release := mono; try (apply release_mono; lia).

Lemma safe_read_mono f f' c :
  (f <= f')%nat -> refines (safe_read f c) (safe_read f' c).
Proof. intros Hf. unfold safe_read. mono_release. Qed.


Lemma mark_next_mono f f' p :
  (f <= f')%nat -> refines (mark_next f p) (mark_next f' p).
Proof. intros Hf. unfold mark_next. mono. Qed.

Lemma find_prev_mono f f' rd rd' tl node prev tmp :
  (f <= f')%nat -> (forall p, refines (rd p) (rd' p)) ->
  refines (find_prev f rd tl node prev tmp) (find_prev f' rd' tl node prev tmp).
Proof. intros Hf Hrd. unfold find_prev. mono_release. apply Hrd. Qed.

Lemma unlink_mono f f' rd rd' node nx :
  (f <= f')%nat -> (forall p, refines (rd p) (rd' p)) ->
  refines (unlink f rd node nx) (unlink f' rd' node nx).
Proof. intros Hf Hrd. unfold unlink. mono_release; apply Hrd. Qed.

Lemma help_delete_read_next_mono f :
  forall f', (f <= f')%nat ->
    (forall p, refines (help_delete f p) (help_delete f' p)) /\
    (forall p, refines (read_next f p) (read_next f' p)).
Proof.
  induction f as [|f IH]; intros f' Hf.
  { split; intros p s a s'; done. }
  destruct f' as [|f']; [lia|].
  destruct (IH f' ltac:(lia)) as [IHh IHr].
  split; intros p.
  - cbn [help_delete]. apply refines_bind; [apply mark_next_mono; lia|].
    intros nx. destruct (get_unmarked nx =? 0).
    { apply safe_read_mono. lia. }
    apply refines_bind; [apply unlink_mono; [lia|done]|].
    intros [[prev tmp] assigned]. mono_release.
  - cbn [read_next]. apply refines_bind; [apply safe_read_mono; lia|].
    intros nx. apply refines_loop; [lia|]. intros [node nx'].
    destruct (negb (nx' =? 0)); [apply refines_refl|].
    apply refines_bind; [apply IHh|]. intros node'.
    apply refines_bind; [apply safe_read_mono; lia|]. intros nx''.
    apply refines_bind; [apply release_mono; lia|]. intros _.
    apply refines_refl.
Qed.

Lemma help_delete_mono f f' p :
  (f <= f')%nat -> refines (help_delete f p) (help_delete f' p).
Proof. intros Hf. by apply help_delete_read_next_mono. Qed.

Lemma read_next_mono f f' p :
  (f <= f')%nat -> refines (read_next f p) (read_next f' p).
Proof. intros Hf. by apply help_delete_read_next_mono. Qed.



Lemma pop_loop_mono f f' low :
  (f <= f')%nat -> refines (pop_loop f low) (pop_loop f' low).
Proof.
  intros Hf. unfold pop_loop. apply refines_loop; [done|]. intros [].
  unfold pop_step.
  apply refines_bind; [apply refines_refl|]. intros h.
  apply refines_bind; [by apply read_next_mono|]. intros ret_node.
  destruct (ret_node =? 0); [apply refines_refl|].
  apply refines_bind; [apply refines_refl|]. intros kn.
  apply refines_bind; [apply refines_refl|]. intros tl.
  destruct (low kn || (ret_node =? tl)).
  { apply refines_bind; [by apply release_mono|]. intros _.
    apply refines_refl. }
  apply refines_bind; [apply refines_refl|]. intros v.
  apply refines_bind; [apply refines_refl|]. intros [|].
  { apply refines_bind; [by apply release_mono|]. intros _.
    apply refines_refl. }
  apply refines_bind; [by apply help_delete_mono|]. intros prev.
  apply refines_bind; [by apply release_mono|]. intros _.
  apply refines_bind; [by apply release_mono|]. intros _.
  apply refines_refl.
Qed.

Lemma pop_mono f f' : (f <= f')%nat -> refines (pop f) (pop f').
Proof.
  intros Hf. unfold pop. apply refines_bind; [by apply pop_loop_mono|].
  intros r. apply refines_refl.
Qed.

Lemma reserve_mono f f' i0 k0 v0 size :
  (f <= f')%nat ->
  refines (reserve f i0 k0 v0 size) (reserve f' i0 k0 v0 size).
Proof.
  intros Hf. unfold reserve. apply refines_loop; [done|]. intros i.
  unfold reserve_step. destruct (i <? size); [|apply refines_refl].
  apply refines_bind; [apply refines_refl|]. intros p.
  apply refines_bind; [by apply release_mono|]. intros _.
  apply refines_refl.
Qed.

Lemma drain_mono f f' : (f <= f')%nat -> refines (drain f) (drain f').
Proof.
  intros Hf. unfold drain. apply refines_loop; [done|]. intros acc.
  unfold drain_step. apply refines_bind; [by apply pop_mono|].
  intros item. apply refines_refl.
Qed.

(** A successful run agrees with any run that has enough fuel. *)
Lemma refines_agree {A} (m : nat -> M A) f f' s a s' b s'' :
  (forall g g', (g <= g')%nat -> refines (m g) (m g')) ->
  m f s = Ok a s' -> m f' s = Ok b s'' -> a = b /\ s' = s''.
Proof.
  intros Hm H1 H2.
  apply (Hm f (max f f') ltac:(lia)) in H1.
  apply (Hm f' (max f f') ltac:(lia)) in H2.
  rewrite H1 in H2. by inversion H2.
Qed.

(** ** Facts about the abstract operations *)

Lemma is_marked_get_marked v : is_marked (get_marked v) = true.
Proof.
  rewrite get_marked_spec, !is_marked_odd.
  destruct (Z.odd v) eqn:E; [done|]. by rewrite Z.odd_add, E.
Qed.

Lemma marked_nonzero v : is_marked v = true -> v <> 0.
Proof. intros H ->. done. Qed.

Lemma abs_insert_length k v V :
  length (abs_insert k v V) = S (length V).
Proof.
  induction V as [|e V IH]; [done|]. cbn [abs_insert].
  destruct (k >? fst e); simpl; [done|]. by rewrite IH.
Qed.

Lemma abs_insert_perm k v V : abs_insert k v V ≡ₚ (k, v) :: V.
Proof.
  induction V as [|e V IH]; [done|]. cbn [abs_insert].
  destruct (k >? fst e); [done|]. rewrite IH. apply perm_swap.
Qed.

Lemma Sorted_ge_all (x : Z) (l : list Z) :
  Sorted Z.ge (x :: l) -> Forall (fun y => y <= x) l.
Proof.
  intros HS. apply Sorted_StronglySorted in HS.
  - inversion HS as [|?? _ Hall]; subst.
    eapply Forall_impl; [exact Hall|]. intros y Hy. simpl in Hy. lia.
  - intros a b c. lia.
Qed.

(** Where [insert] puts the new entry: after every entry whose key is not
    smaller, before every entry whose key is smaller. *)
Lemma abs_insert_split k v V :
  Sorted Z.ge (map fst V) ->
  exists V1 V2,
    V = V1 ++ V2 /\ abs_insert k v V = V1 ++ (k, v) :: V2 /\
    Forall (fun e => k <= fst e) V1 /\ Forall (fun e => fst e < k) V2.
Proof.
  induction V as [|e V IH]; intros HS.
  - exists [], []. by repeat split.
  - cbn [abs_insert]. destruct (Z.gtb_spec k (fst e)) as [Hgt|Hle].
    + exists [], (e :: V). split_and!; try done. constructor; [lia|].
      simpl in HS. apply Sorted_ge_all in HS.
      rewrite Forall_fmap in HS. eapply Forall_impl; [exact HS|].
      intros e' He'. simpl in He'. lia.
    + destruct IH as (V1 & V2 & -> & -> & H1 & H2).
      { simpl in HS. by inversion HS. }
      exists (e :: V1), V2. split_and!; try done. by constructor.
Qed.


(** What one [pop( )] does to the sequence a drain will return. *)
Lemma abs_pop_drain V :
  Forall nonnull V ->
  match abs_drain V with
  | [] => abs_pop (fun _ => false) V = (0, [])
  | r :: rest =>
      fst (abs_pop (fun _ => false) V) = r /\ r <> 0 /\
      abs_drain (snd (abs_pop (fun _ => false) V)) = rest /\
      (length (snd (abs_pop (fun _ => false) V)) <= length V)%nat /\
      Forall nonnull (snd (abs_pop (fun _ => false) V))
  end.
Proof.
  induction V as [|e V IH]; intros Hnn; [done|].
  apply Forall_cons in Hnn as [Hn Hnn]. specialize (IH Hnn).
  cbn [abs_drain abs_pop]. destruct (is_marked (snd e)) eqn:Hm.
  - destruct (abs_drain V) as [|r rest]; [done|].
    destruct IH as (? & ? & ? & ? & ?). split_and!; try done. simpl. lia.
  - cbn [fst snd abs_drain]. rewrite is_marked_get_marked.
    split_and!; try done. constructor; [|done].
    apply marked_nonzero, is_marked_get_marked.
Qed.

Lemma abs_drain_live V :
  Forall (fun e => is_marked (snd e) = false) V -> abs_drain V = map snd V.
Proof.
  induction V as [|e V IH]; intros H; [done|].
  apply Forall_cons in H as [Hm H]. cbn [abs_drain]. rewrite Hm.
  simpl. by rewrite IH.
Qed.

(** ** Results that hold for any fuel *)




(** ** Draining *)

Lemma drain_loop_spec fuel :
  forall rest V s acc n,
    Inv s V -> Forall nonnull V -> abs_drain V = rest ->
    (length rest < n)%nat -> (length V + 5 <= fuel)%nat ->
    exists s',
      loop n (drain_step fuel) acc s = Ok (acc ++ rest) s' /\ Inv s' [].
Proof.
  induction rest as [|r rest IH]; intros V s acc n Hi Hnn Hd Hn Hf.
  - destruct n as [|n]; [simpl in Hn; lia|].
    destruct (pop_spec fuel s V Hi Hf) as (s' & Hrun & Hi').
    pose proof (abs_pop_drain V Hnn) as Hp. rewrite Hd in Hp.
    rewrite Hp in Hrun, Hi'. simpl in Hrun, Hi'.
    exists s'. split; [|done]. apply loop_exit. unfold drain_step.
    erewrite bind_ok by exact Hrun. by rewrite app_nil_r.
  - destruct n as [|n]; [simpl in Hn; lia|].
    destruct (pop_spec fuel s V Hi Hf) as (s1 & Hrun & Hi1).
    pose proof (abs_pop_drain V Hnn) as Hp. rewrite Hd in Hp.
    destruct Hp as (Hr & Hr0 & Hd' & Hlen & Hnn').
    destruct (IH _ s1 (acc ++ [r]) n Hi1 Hnn' Hd') as (s' & Hloop & Hi').
    { simpl in Hn. lia. }
    { lia. }
    exists s'. split; [|done].
    erewrite loop_continue; [rewrite Hloop; by rewrite <- app_assoc|].
    unfold drain_step. erewrite bind_ok by exact Hrun. rewrite Hr.
    apply Z.eqb_neq in Hr0 as ->. done.
Qed.

Lemma abs_drain_length V : (length (abs_drain V) <= length V)%nat.
Proof.
  induction V as [|e V IH]; [done|]. cbn [abs_drain].
  destruct (is_marked (snd e)); simpl; lia.
Qed.

Lemma drain_spec fuel s V :
  Inv s V -> Forall nonnull V -> (length V + 5 <= fuel)%nat ->
  exists s', drain fuel s = Ok (abs_drain V) s' /\ Inv s' [].
Proof.
  intros Hi Hnn Hf.
  destruct (drain_loop_spec fuel (abs_drain V) V s [] fuel Hi Hnn eq_refl)
    as (s' & Hrun & Hi'); [|done|by exists s'].
  pose proof (abs_drain_length V). lia.
Qed.

(** ** A sequence of inserts *)

Lemma abs_insert_all_length ops V :
  length (abs_insert_all ops V) = (length V + length ops)%nat.
Proof.
  revert V. induction ops as [|[v k] ops IH]; intros V; simpl; [lia|].
  unfold abs_insert_all in *. simpl. rewrite IH, abs_insert_length. lia.
Qed.

Lemma abs_insert_all_perm ops V :
  abs_insert_all ops V ≡ₚ map (fun op => (snd op, fst op)) ops ++ V.
Proof.
  revert V. induction ops as [|[v k] ops IH]; intros V; [done|].
  unfold abs_insert_all in *. simpl. rewrite IH, abs_insert_perm.
  by rewrite Permutation_middle.
Qed.

Lemma insert_all_spec fuel ops :
  forall s V,
    Inv s V -> Forall (fun op => is_uintptr (fst op)) ops ->
    brk s + node_stride * Z.of_nat (length ops) <= uintptr_max + 1 ->
    (length V + length ops + 4 <= fuel)%nat ->
    exists s',
      insert_all fuel ops s = Ok tt s' /\ Inv s' (abs_insert_all ops V) /\
      brk s' <= brk s + node_stride * Z.of_nat (length ops).
Proof.
  induction ops as [|[v k] ops IH]; intros s V Hi Hv Hroom Hf.
  - exists s. split_and!; try done. simpl. lia.
  - apply Forall_cons in Hv as [Hv Hvs]. simpl in Hv.
    destruct (insert_spec fuel v k s V Hi Hv) as (s1 & Hrun & Hi1 & Hb1).
    { right. simpl length in Hroom. unfold node_stride in *. lia. }
    { simpl in Hf. lia. }
    destruct (IH s1 (abs_insert k v V) Hi1 Hvs) as (s' & Hrun' & Hi' & Hb').
    { simpl length in Hroom. unfold node_stride in *. lia. }
    { rewrite abs_insert_length. simpl in Hf. lia. }
    exists s'. split_and!; try done.
    + cbn [insert_all]. by erewrite bind_ok by exact Hrun.
    + simpl length. unfold node_stride in *. lia.
Qed.

Lemma Inv_sorted s V : Inv s V -> Sorted Z.ge (map fst V).
Proof. intros (L & F & Hi). apply Hi. Qed.

(** ** Scenarios on a fresh queue *)

Lemma fresh_queue_brk : brk fresh_queue = 96.
Proof. by rewrite fresh_queue_eq. Qed.

Lemma payload_uintptr v : payload v -> is_uintptr v.
Proof. intros [Hr _]. unfold is_uintptr. lia. Qed.

Lemma payload_nonzero v : payload v -> v <> 0.
Proof. apply valid_ptr_nonzero. Qed.

Lemma payload_unmarked v : payload v -> is_marked v = false.
Proof. by intros [_ ?]. Qed.

(** Inserting payloads into a fresh queue and draining it. *)
Lemma insert_all_drain fuel ops :
  Forall (fun op => payload (fst op)) ops ->
  brk fresh_queue + node_stride * Z.of_nat (length ops) <= uintptr_max + 1 ->
  (length ops + 5 <= fuel)%nat ->
  exists s1 s2,
    insert_all fuel ops fresh_queue = Ok tt s1 /\
    drain fuel s1 = Ok (map snd (abs_insert_all ops [])) s2 /\
    Inv s1 (abs_insert_all ops []) /\ Inv s2 [].
Proof.
  intros Hp Hroom Hf.
  destruct (insert_all_spec fuel ops fresh_queue [] fresh_queue_Inv)
    as (s1 & Hrun & Hi1 & _); [|done|simpl; lia|].
  { eapply Forall_impl; [exact Hp|]. intros op. apply payload_uintptr. }
  assert (Forall (fun e : entry => payload (snd e)) (abs_insert_all ops []))
    as Hpay.
  { rewrite abs_insert_all_perm, app_nil_r, Forall_fmap.
    eapply Forall_impl; [exact Hp|]. by intros op. }
  destruct (drain_spec fuel s1 (abs_insert_all ops []) Hi1)
    as (s2 & Hdrain & Hi2).
  { eapply Forall_impl; [exact Hpay|]. intros e. apply payload_nonzero. }
  { rewrite abs_insert_all_length. simpl. lia. }
  exists s1, s2. split_and!; try done.
  rewrite <- abs_drain_live; [done|].
  eapply Forall_impl; [exact Hpay|]. intros e. apply payload_unmarked.
Qed.

(** ** What [help_delete] does to [node->next] *)

Lemma get_marked_marked nx : is_marked nx = true -> get_marked nx = nx.
Proof. intros H. by rewrite get_marked_spec, <- is_marked_odd, H. Qed.

Lemma mark_next_ok f n nx s :
  (1 <= f)%nat -> cell s (NextOf n) = Some nx ->
  mark_next f n s = Ok nx (put (NextOf n) (get_marked nx) s).
Proof.
  intros Hf H. destruct f as [|f]; [lia|]. unfold mark_next.
  apply loop_exit. step load_ok.
  destruct (is_marked nx) eqn:Hm.
  - rewrite get_marked_marked by done. by rewrite put_id.
  - by step cas_ok.
Qed.

Lemma bind_fault {A B} (m : M A) (k : A -> M B) s :
  m s = Fault -> bind m k s = Fault.
Proof. unfold bind. by intros ->. Qed.

Lemma safe_read_wrap f c p n s :
  (1 <= f)%nat -> cell s c = Some p -> p <> 0 -> is_marked p = false ->
  cell s (CounterOf p) = Some n -> c <> CounterOf p ->
  safe_read f c s = Ok p (put (CounterOf p) (wrap_int (n + 1)) s).
Proof.
  intros Hf H Hp Hm Hc Hne. destruct f as [|f]; [lia|]. unfold safe_read.
  apply loop_exit.
  erewrite bind_ok by (by apply load_ok).
  apply Z.eqb_neq in Hp as ->. rewrite Hm.
  erewrite bind_ok; cycle 1.
  { unfold fetch_add_counter. erewrite bind_ok by (by apply load_ok).
    by eapply store_ok. }
  erewrite bind_ok by (apply load_ok; by rewrite cell_put_ne).
  by rewrite Z.eqb_refl.
Qed.

Lemma safe_read_unallocated f c p s :
  (1 <= f)%nat -> cell s c = Some p -> p <> 0 -> is_marked p = false ->
  cell s (CounterOf p) = None ->
  safe_read f c s = Fault.
Proof.
  intros Hf H Hp Hm Hc. destruct f as [|f]; [lia|]. unfold safe_read.
  rewrite loop_S. apply bind_fault.
  erewrite bind_ok by (by apply load_ok).
  apply Z.eqb_neq in Hp as ->. rewrite Hm.
  apply bind_fault. unfold fetch_add_counter. apply bind_fault.
  unfold load. by rewrite Hc.
Qed.

(** [safe_read] on [head] only touches a reference counter. *)
Lemma safe_read_head_frame f s r s' c :
  safe_read f Head s = Ok r s' -> (forall p, c <> CounterOf p) ->
  cell s' c = cell s c.
Proof.
  intros Hrun Hc. destruct f as [|f]; [done|].
  assert (cell s Head = Some (head s)) as Hh by done.
  destruct (decide (head s = 0)) as [E|Hh0].
  { rewrite E in Hh. rewrite (safe_read_null (S f) Head s ltac:(lia) Hh) in Hrun.
    by inversion Hrun. }
  destruct (is_marked (head s)) eqn:Hm.
  { rewrite (safe_read_marked (S f) Head _ s ltac:(lia) Hh Hm) in Hrun.
    by inversion Hrun. }
  destruct (cell s (CounterOf (head s))) as [n|] eqn:Hn.
  - rewrite (safe_read_wrap (S f) Head _ n s ltac:(lia) Hh Hh0 Hm Hn) in Hrun by done.
    injection Hrun as _ <-.
    by apply (cell_put_ne (CounterOf (head s)) (wrap_int (n + 1)) s c).
  - by rewrite (safe_read_unallocated (S f) Head _ s ltac:(lia) Hh Hh0 Hm Hn) in Hrun.
Qed.

(** ** [read_next] never returns null *)

Lemma loop_result {A B} (P : B -> Prop) (body : A -> M (A + B)) :
  (forall a s b s', body a s = Ok (inr b) s' -> P b) ->
  forall n a s b s', loop n body a s = Ok b s' -> P b.
Proof.
  intros Hb. induction n as [|n IH]; intros a s b s' Hrun; [done|].
  rewrite loop_S in Hrun. unfold bind in Hrun.
  destruct (body a s) as [[a'|b'] s1| | | |] eqn:E; try done.
  - by eapply IH.
  - inversion Hrun; subst. by eapply Hb.
Qed.

Lemma read_next_result fuel n s r s' :
  read_next fuel n s = Ok r s' -> r <> 0.
Proof.
  destruct fuel as [|fuel]; [done|]. cbn [read_next]. unfold bind at 1.
  destruct (safe_read fuel (NextOf n) s) as [nx s1| | | |]; try done.
  intros Hrun. eapply (loop_result (fun r => r <> 0)); [|exact Hrun].
  clear. intros [node nx] s r s'.
  destruct (Z.eqb_spec nx 0) as [->|Hne]; cbn [negb].
  - unfold bind.
    destruct (help_delete fuel node s) as [? ?| | | |]; try done.
    destruct (safe_read fuel _ _) as [? ?| | | |]; try done.
    by destruct (release fuel _ _).
  - by intros [= <- _].
Qed.

Lemma pop_loop_result fuel low s r s' :
  pop_loop fuel low s = Ok r s' -> r <> None.
Proof.
  unfold pop_loop. intros Hrun.
  eapply (loop_result (fun r => r <> None)); [|exact Hrun].
  clear. intros [] s r s'.
  unfold pop_step. unfold bind at 1, load at 1. cbn [cell].
  unfold bind at 1.
  destruct (read_next fuel (head s) s) as [ret_node s1| | | |] eqn:E; try done.
  apply read_next_result in E. apply Z.eqb_neq in E as ->.
  unfold bind at 1, load at 1.
  destruct (cell s1 (KeyOf ret_node)) as [kn|]; [|done].
  unfold bind at 1, get_tail at 1.
  destruct (low kn || (ret_node =? tail s1)).
  { unfold bind. by destruct (release fuel ret_node s1); [intros [= <- _]|..]. }
  unfold bind at 1, load at 1.
  destruct (cell s1 (ValueOf ret_node)) as [v|]; [|done].
  unfold bind at 1.
  destruct (compare_exchange _ _ _ s1) as [[|] s2| | | |]; try done.
  - unfold bind. by destruct (release fuel ret_node s2); [intros [= <- _]|..].
  - unfold bind.
    destruct (help_delete fuel ret_node s2) as [? ?| | | |]; try done.
    destruct (release fuel _ _) as [? ?| | | |]; try done.
    by destruct (release fuel _ _).
Qed.

Lemma chain_next_in s p L q :
  chain s p L q ->
  forall a, a ∈ L -> exists nx, cell s (NextOf a) = Some nx /\ nx ∈ q :: L.
Proof.
  revert p. induction L as [|b L IH]; intros p Hch a Ha; [elems|].
  cbn [chain] in Hch. destruct Hch as [-> (nx & Hnx & Hch)].
  apply elem_of_cons in Ha as [->|Ha].
  - exists nx. split; [done|].
    apply chain_start in Hch as [[-> _]|[L' ->]]; elems.
  - destruct (IH nx Hch a Ha) as (nx' & Hnx' & Hin).
    exists nx'. split; [done|]. elems.
Qed.

(** On a quiescent state [read_next] returns for every node of the list,
    the sentinels included. *)
Lemma read_next_total fuel s V L F n :
  inv s V L F -> n ∈ head s :: L ++ [tail s] -> (3 <= fuel)%nat ->
  exists r s', read_next fuel n s = Ok r s'.
Proof.
  intros Hi Hn Hf.
  destruct (inv_sentinels _ _ _ _ Hi) as (Hht & Vh & Vt & Hhd).
  pose proof (inv_chain _ _ _ _ Hi) as (p1 & Hp1 & Hch).
  assert (forall a, a ∈ head s :: L ->
            exists nx c, cell s (NextOf a) = Some nx /\ valid_ptr nx /\
                         cell s (CounterOf nx) = Some c /\ 1 <= c <= 2)
    as Hnext.
  { intros a Ha. apply elem_of_cons in Ha as [->|Ha].
    - assert (p1 ∈ head s :: tail s :: L) as Hin
        by (apply chain_start in Hch as [[-> _]|[L' ->]]; elems).
      destruct (inv_node _ _ _ _ p1 Hi Hin) as (? & c & ? & ?).
      by exists p1, c.
    - destruct (chain_next_in _ _ _ _ Hch a Ha) as (nx & Hnx & Hin).
      destruct (inv_node _ _ _ _ nx Hi) as (? & c & ? & ?); [elems|].
      by exists nx, c. }
  rewrite app_comm_cons, elem_of_app, list_elem_of_singleton in Hn.
  destruct Hn as [Hn| ->].
  - destruct (Hnext n Hn) as (nx & c & Hnx & Vnx & Hc & Bc).
    destruct (valid_ptr_bounds _ Vnx) as [Hnx0 Hnxm].
    eexists _, _. eapply read_next_ok; try done; [lia|ilia].
  - destruct (Hnext (head s)) as (nx & c & Hnx & Vnx & Hc & Bc); [elems|].
    destruct (valid_ptr_bounds _ Vnx) as [Hnx0 Hnxm].
    destruct (valid_ptr_bounds _ Vh) as [Hh0 Hhm].
    pose proof (inv_tail_next _ _ _ _ Hi) as Htn.
    pose proof (inv_head_cnt _ _ _ _ Hi) as Hhc.
    destruct fuel as [|[|[|fuel]]]; try lia.
    eexists _, _. cbn [read_next].
    erewrite bind_ok by (eapply safe_read_null; [lia|done]).
    erewrite loop_continue; cycle 1.
    { change (negb (0 =? 0)) with false. cbv iota.
      erewrite bind_ok; cycle 1.
      { cbn [help_delete].
        erewrite bind_ok by (eapply mark_next_ok; [lia|done]).
        change (get_unmarked 0 =? 0) with true. cbv iota.
        eapply (safe_read_ok _ Head (head s) 1);
          try done; try lia; try cells; try ilia. }
      erewrite bind_ok; cycle 1.
      { eapply (safe_read_ok _ _ nx (if decide (nx = head s) then 1 + 1 else c));
          try done; try lia.
        - by rewrite !cell_put_ne by congruence.
        - case_decide as E.
          + rewrite E. cells.
          + by rewrite !cell_put_ne by congruence.
        - case_decide; ilia. }
      erewrite bind_ok; cycle 1.
      { eapply (release_keep _ _ (if decide (nx = head s)
                                  then 1 + 1 + 1 else 1 + 1));
          try done; try lia.
        - case_decide as E.
          + rewrite E. cells.
          + cells.
        - case_decide; ilia.
        - case_decide; lia. }
      done. }
    apply loop_exit. apply Z.eqb_neq in Hnx0 as ->. done.
Qed.

(** ** [reserve] keeps the invariant *)



(** ** Reachable states *)







(** ** How many nodes [reserve] adds *)

Lemma reserve_step_ok fuel k0 v0 size i s V L F :
  inv s V L F -> (3 <= fuel)%nat -> i < size ->
  brk s + node_stride <= uintptr_max + 1 ->
  exists s',
    reserve_step fuel k0 v0 size i s = Ok (inl (i + 1)) s' /\
    inv s' V L (brk s :: F) /\ brk s' = brk s + node_stride.
Proof.
  intros Hi Hf Hlt Hroom. unfold reserve_step.
  apply Z.ltb_lt in Hlt as ->.
  set (n := mkNode k0 1 v0 0).
  destruct (inv_alloc _ _ _ _ n Hi Hroom) as (Hia & Vp & Hp).
  assert (cell (alloc n s) (CounterOf (brk s)) = Some 1) as Hc.
  { simpl. by rewrite lookup_insert_eq. }
  assert (cell (alloc n s) (NextOf (brk s)) = Some 0) as Hnx.
  { simpl. by rewrite lookup_insert_eq. }
  eexists. split_and!.
  - erewrite bind_ok by (by apply new_Node_ok).
    erewrite bind_ok; [done|].
    eapply (release_last _ _ 0); try done. by apply valid_ptr_nonzero.
  - by eapply inv_reclaim.
  - done.
Qed.

(** Started at [i0], the loop of [reserve( size )] adds [size - i0] nodes
    (none when [i0] is not below [size]). *)
Lemma reserve_adds fuel k0 v0 size :
  (3 <= fuel)%nat ->
  forall m i s V L F n,
    inv s V L F -> Z.to_nat (size - i) = m ->
    brk s + node_stride * Z.of_nat m <= uintptr_max + 1 ->
    (m < n)%nat ->
    exists s' F',
      loop n (reserve_step fuel k0 v0 size) i s = Ok tt s' /\
      inv s' V L (F' ++ F) /\ length F' = m.
Proof.
  intros Hf. induction m as [|m IH]; intros i s V L F n Hi Hm Hroom Hn.
  - exists s, []. split_and!; try done.
    destruct n as [|n]; [lia|]. apply loop_exit. unfold reserve_step.
    destruct (Z.ltb_spec i size); [lia|done].
  - destruct n as [|n]; [lia|].
    destruct (reserve_step_ok fuel k0 v0 size i s V L F Hi Hf)
      as (s1 & Hstep & Hi1 & Hb1); [lia|unfold node_stride in *; lia|].
    destruct (IH (i + 1) s1 V L (brk s :: F) n Hi1)
      as (s' & F' & Hloop & Hi' & Hlen); [lia| |lia|].
    { rewrite Hb1. unfold node_stride in *. lia. }
    exists s', (F' ++ [brk s]). split_and!.
    + by erewrite loop_continue by exact Hstep.
    + by rewrite <- app_assoc.
    + rewrite length_app, Hlen. simpl. lia.
Qed.

(** ** What the operations leave alone *)

Lemma keeps_ret {A} (R : queue -> queue -> Prop) (a : A) :
  (forall s, R s s) -> keeps R (ret a).
Proof. intros Hr s b s' [= _ <-]. apply Hr. Qed.

Lemma keeps_bind {A B} (R : queue -> queue -> Prop) (m : M A) (k : A -> M B) :
  (forall s1 s2 s3, R s1 s2 -> R s2 s3 -> R s1 s3) ->
  keeps R m -> (forall a, keeps R (k a)) -> keeps R (bind m k).
Proof.
  intros Ht Hm Hk s b s'. unfold bind.
  destruct (m s) as [a s1| | | |] eqn:E; try done.
  intros Hrun. eapply Ht; [by eapply Hm|by eapply Hk].
Qed.

(** A loop whose rounds keep [R0] when they continue and establish [R1]
    when they leave the loop. *)
Lemma keeps_loop_exit {A B} (R0 R1 : queue -> queue -> Prop)
    (body : A -> M (A + B)) :
  (forall s1 s2 s3, R0 s1 s2 -> R1 s2 s3 -> R1 s1 s3) ->
  (forall a s r s', body a s = Ok r s' ->
                    match r with inl _ => R0 s s' | inr _ => R1 s s' end) ->
  forall n a, keeps R1 (loop n body a).
Proof.
  intros Ht Hb. induction n as [|n IH]; intros a s b s' Hrun; [done|].
  rewrite loop_S in Hrun. unfold bind in Hrun.
  destruct (body a s) as [[a'|b'] s1| | | |] eqn:E; try done.
  - eapply Ht; [exact (Hb _ _ _ _ E)|by eapply IH].
  - inversion Hrun; subst. exact (Hb _ _ _ _ E).
Qed.

Lemma keeps_loop {A B} (R : queue -> queue -> Prop) (body : A -> M (A + B)) :
  (forall s1 s2 s3, R s1 s2 -> R s2 s3 -> R s1 s3) ->
  (forall a, keeps R (body a)) ->
  forall n a, keeps R (loop n body a).
Proof.
  intros Ht Hb. apply (keeps_loop_exit R R); [done|].
  intros a s r s' Hrun. destruct r; by eapply Hb.
Qed.

Lemma same_nodes_refl s : same_nodes s s.
Proof. by repeat split. Qed.

Lemma same_nodes_trans s1 s2 s3 :
  same_nodes s1 s2 -> same_nodes s2 s3 -> same_nodes s1 s3.
Proof.
  intros (H1 & H2 & H3 & H4) (H1' & H2' & H3' & H4').
  repeat split; try congruence; intros Hp.
  - by apply H4, H4'.
  - by apply H4', H4.
Qed.

Lemma same_nodes_put c v s : c <> Head -> same_nodes s (put c v s).
Proof.
  intros Hc. split; [by rewrite head_put, decide_False|].
  split; [apply tail_put|]. split; [apply brk_put|].
  intros p. destruct c; simpl; try done;
    rewrite lookup_alter; case_decide; subst; try done;
    by rewrite fmap_is_Some.
Qed.

Lemma keeps_load c : keeps same_nodes (load c).
Proof.
  intros s a s'. unfold load. destruct (cell s c); [|done].
  intros [= _ <-]. apply same_nodes_refl.
Qed.

Lemma keeps_store c v : c <> Head -> keeps same_nodes (store c v).
Proof.
  intros Hc s a s'. unfold store. destruct (cell s c); [|done].
  intros Heq. inversion Heq; subst. by apply same_nodes_put.
Qed.

Ltac keep_step :=
  first
    [ apply keeps_ret; apply same_nodes_refl
    | apply keeps_load
    | apply keeps_store; congruence
    | apply keeps_loop; [apply same_nodes_trans|intros ?]
    | apply keeps_bind; [apply same_nodes_trans| |intros ?]
    | match goal with
      | |- keeps _ fault => by intros ? ? ?
      | |- keeps _ (if ?b then _ else _) => destruct b
      | |- keeps _ (match ?x with _ => _ end) => destruct x
      | |- keeps _ (let '(_, _) := ?x in _) => destruct x
      end ].

Ltac keep := repeat keep_step.

Lemma keeps_cas c e d : c <> Head -> keeps same_nodes (compare_exchange c e d).
Proof. intros Hc. unfold compare_exchange. keep. Qed.

Lemma keeps_fetch_add p : keeps same_nodes (fetch_add_counter p).
Proof. unfold fetch_add_counter. keep. Qed.

Lemma keeps_get_tail : keeps same_nodes get_tail.
Proof. intros s a s' [= _ <-]. apply same_nodes_refl. Qed.

Lemma keeps_reclaim f p : keeps same_nodes (reclaim f p).
Proof. unfold reclaim. keep. Qed.

Lemma keeps_release f : forall p, keeps same_nodes (release f p).
Proof.
  induction f as [|f IH]; intros p; [by intros ? ? ?|].
  cbn [release]. keep; try apply IH; try apply keeps_reclaim.
Qed.

Lemma keeps_safe_read f c : keeps same_nodes (safe_read f c).
Proof.
  unfold safe_read. keep; try apply keeps_release.
Qed.

Lemma keeps_mark_next f p : keeps same_nodes (mark_next f p).
Proof. unfold mark_next. keep. Qed.

Lemma keeps_find_prev f rd tl node prev tmp :
  (forall p, keeps same_nodes (rd p)) ->
  keeps same_nodes (find_prev f rd tl node prev tmp).
Proof.
  intros Hrd. unfold find_prev. keep; try apply keeps_release; try apply Hrd.
Qed.

Lemma keeps_unlink f rd node nx :
  (forall p, keeps same_nodes (rd p)) ->
  keeps same_nodes (unlink f rd node nx).
Proof.
  intros Hrd. unfold unlink.
  keep; try apply keeps_release; try apply keeps_safe_read;
    try apply Hrd; try apply keeps_get_tail;
    try (by apply keeps_find_prev); try (apply keeps_cas; congruence).
Qed.

Lemma keeps_help_delete_read_next f :
  (forall p, keeps same_nodes (help_delete f p)) /\
  (forall p, keeps same_nodes (read_next f p)).
Proof.
  induction f as [|f [IHh IHr]]; [split; by intros ? ? ? ?|].
  split; intros p.
  - cbn [help_delete].
    apply keeps_bind; [apply same_nodes_trans|apply keeps_mark_next|].
    intros nx. destruct (get_unmarked nx =? 0); [apply keeps_safe_read|].
    apply keeps_bind; [apply same_nodes_trans|by apply keeps_unlink|].
    intros [[prev tmp] assigned].
    keep; apply keeps_release.
  - cbn [read_next].
    apply keeps_bind; [apply same_nodes_trans|apply keeps_safe_read|].
    intros nx. apply keeps_loop; [apply same_nodes_trans|].
    intros [node nx']. destruct (negb (nx' =? 0)); [keep|].
    apply keeps_bind; [apply same_nodes_trans|apply IHh|]. intros node'.
    apply keeps_bind; [apply same_nodes_trans|apply keeps_safe_read|].
    intros nx''. keep. apply keeps_release.
Qed.

Lemma keeps_help_delete f p : keeps same_nodes (help_delete f p).
Proof. apply keeps_help_delete_read_next. Qed.

Lemma keeps_read_next f p : keeps same_nodes (read_next f p).
Proof. apply keeps_help_delete_read_next. Qed.

Lemma keeps_pop_loop f low : keeps same_nodes (pop_loop f low).
Proof.
  unfold pop_loop, pop_step.
  keep; try apply keeps_read_next; try apply keeps_get_tail;
    try apply keeps_release; try apply keeps_help_delete;
    try (apply keeps_cas; congruence).
Qed.

Lemma keeps_insert_step f k x u : keeps same_nodes (insert_step f k x u).
Proof.
  unfold insert_step, find_position.
  apply keeps_bind; [apply same_nodes_trans|apply keeps_safe_read|].
  intros prev.
  apply keeps_bind; [apply same_nodes_trans|apply keeps_read_next|].
  intros node.
  apply keeps_bind; [apply same_nodes_trans| |].
  { apply keeps_loop; [apply same_nodes_trans|]. intros [p n].
    unfold find_position_step.
    keep; try apply keeps_get_tail; try apply keeps_release;
      try apply keeps_read_next. }
  intros [p n].
  keep; try apply keeps_release; try (apply keeps_cas; congruence).
Qed.

Lemma same_nodes_one_more s1 s2 s3 :
  same_nodes s1 s2 -> one_more_node s2 s3 -> one_more_node s1 s3.
Proof.
  intros (H1 & H2 & H3 & H4) (H1' & H2' & [[H3' H4']|[H3' H4']]).
  all: split; [congruence|]; split; [congruence|].
  - left. split; [congruence|]. intros p. by rewrite H4', H4.
  - right. split; [congruence|]. intros p. by rewrite H4', H4, H3.
Qed.

Lemma one_more_same_nodes s1 s2 s3 :
  one_more_node s1 s2 -> same_nodes s2 s3 -> one_more_node s1 s3.
Proof.
  intros (H1' & H2' & [[H3' H4']|[H3' H4']]) (H1 & H2 & H3 & H4).
  all: split; [congruence|]; split; [congruence|].
  - left. split; [congruence|]. intros p. by rewrite H4, H4'.
  - right. split; [congruence|]. intros p. by rewrite H4, H4'.
Qed.

Lemma same_nodes_one_more_node s s' : same_nodes s s' -> one_more_node s s'.
Proof. intros (H1 & H2 & H3 & H4). split; [done|]. split; [done|]. by left. Qed.

Lemma one_more_node_alloc n s : one_more_node s (alloc n s).
Proof.
  split; [done|]. split; [done|]. right. split; [done|].
  intros p. simpl. rewrite lookup_insert_is_Some.
  split.
  - intros [Hb | [_ Hp]]; [subst p; by right|by left].
  - intros [Hp | Hb]; [|subst p; by left].
    destruct (decide (brk s = p)); [by left|by right].
Qed.

Lemma keeps_get_new_node f v k : keeps one_more_node (get_new_node f v k).
Proof.
  unfold get_new_node.
  apply (keeps_loop_exit same_nodes one_more_node);
    [apply same_nodes_one_more|].
  intros [] s r s'. unfold bind at 1.
  destruct (safe_read f FreeList s) as [x s1| | | |] eqn:E; try done.
  apply keeps_safe_read in E.
  destruct (x =? 0).
  - unfold bind, new_Node.
    destruct (brk s1 + node_stride <=? uintptr_max + 1); [|done].
    intros [= <- <-]. eapply same_nodes_one_more; [exact E|].
    apply one_more_node_alloc.
  - intros Hrun.
    assert (same_nodes s1 s') as Hk.
    { revert Hrun. generalize s1 r s'. clear.
      change (keeps same_nodes
                (nx <- load (NextOf x) ;;
                 ok <- compare_exchange FreeList x nx ;;
                 if ok then
                   fetch_add_counter x ;;;
                   store (KeyOf x) k ;;;
                   store (ValueOf x) v ;;;
                   ret (inr x)
                 else release f x ;;; ret (inl tt))).
      keep; try (apply keeps_cas; congruence); try apply keeps_fetch_add.
      apply keeps_release. }
    pose proof (same_nodes_trans _ _ _ E Hk) as Hss'.
    destruct r; [done|]. by apply same_nodes_one_more_node.
Qed.

Lemma grows_refl s : grows s s.
Proof. repeat split; [lia|done]. Qed.

Lemma grows_trans s1 s2 s3 : grows s1 s2 -> grows s2 s3 -> grows s1 s3.
Proof.
  intros (H1 & H2 & H3 & H4) (H1' & H2' & H3' & H4').
  repeat split; try congruence; [lia|]. intros p Hp. by apply H4', H4.
Qed.

Lemma same_nodes_grows s s' : same_nodes s s' -> grows s s'.
Proof.
  intros (H1 & H2 & H3 & H4). repeat split; try done; [lia|].
  intros p. apply H4.
Qed.

Lemma keeps_reserve f i0 k0 v0 size : keeps grows (reserve f i0 k0 v0 size).
Proof.
  unfold reserve. apply keeps_loop; [apply grows_trans|].
  intros i s r s'. unfold reserve_step.
  destruct (i <? size); [|intros [= _ <-]; apply grows_refl].
  unfold bind at 1, new_Node.
  destruct (brk s + node_stride <=? uintptr_max + 1); [|done].
  unfold bind.
  destruct (release f (brk s) (alloc _ s)) as [? s1| | | |] eqn:E; try done.
  intros [= _ <-]. apply keeps_release in E.
  eapply grows_trans; [|by apply same_nodes_grows].
  repeat split; simpl; [unfold node_stride; lia|].
  intros p Hp. rewrite lookup_insert_is_Some.
  destruct (decide (brk s = p)); [by left|by right].
Qed.

Lemma keeps_pop f : keeps same_nodes (pop f).
Proof.
  intros s r s'. unfold pop, bind.
  destruct (pop_loop f _ s) as [o s1| | | |] eqn:E; try done.
  apply keeps_pop_loop in E. by destruct o; intros [= _ <-].
Qed.

(** ** The reference-counting primitives *)

Lemma release_overflow f p s :
  (2 <= f)%nat -> p <> 0 -> cell s (CounterOf p) = Some int_min ->
  release f p s = Fault.
Proof.
  intros Hf Hp H. destruct f as [|[|f]]; try lia.
  cbn [release]. apply Z.eqb_neq in Hp as ->.
  apply bind_fault. rewrite loop_S. apply bind_fault.
  erewrite bind_ok by (by apply load_ok). by rewrite Z.eqb_refl.
Qed.

Lemma release_unallocated f p s :
  (2 <= f)%nat -> p <> 0 -> cell s (CounterOf p) = None ->
  release f p s = Fault.
Proof.
  intros Hf Hp H. destruct f as [|[|f]]; try lia.
  cbn [release]. apply Z.eqb_neq in Hp as ->.
  apply bind_fault. rewrite loop_S. apply bind_fault.
  apply bind_fault. unfold load. by rewrite H.
Qed.

(** Dropping the last reference of a node whose link has a referent. *)
Lemma release_last_next f p nx m s :
  (4 <= f)%nat -> p <> 0 -> cell s (CounterOf p) = Some 1 ->
  cell s (NextOf p) = Some nx ->
  get_unmarked nx <> 0 -> get_unmarked nx <> p ->
  cell s (CounterOf (get_unmarked nx)) = Some m -> m <> int_min -> m <> 1 ->
  release f p s =
  Ok tt (put FreeList p
           (put (NextOf p) (free_list s)
              (put (CounterOf (get_unmarked nx)) (m - 1)
                 (put (CounterOf p) 0 s)))).
Proof.
  intros Hf Hp H Hnx Hy Hyp Hm Hmin H1. destruct f as [|f]; [lia|].
  cbn [release]. apply Z.eqb_neq in Hp as ->.
  erewrite bind_ok; cycle 1.
  { destruct f as [|f]; [lia|]. apply loop_exit.
    erewrite bind_ok by (by apply load_ok).
    change (1 =? int_min) with false. cbv iota.
    erewrite bind_ok by (by apply cas_ok). done. }
  change (negb (1 - 1 =? 0)) with false. cbv iota.
  erewrite bind_ok by (apply load_ok; by rewrite cell_put_ne).
  erewrite bind_ok; cycle 1.
  { eapply (release_keep _ _ m); [lia|done| |done|done].
    rewrite cell_put_ne; [done|congruence]. }
  erewrite reclaim_ok; [|lia|by rewrite !cell_put_ne by congruence].
  by put_fields.
Qed.

(** ** Construction and node supply *)

Lemma ctor_run s :
  brk s + 2 * node_stride <= uintptr_max + 1 ->
  priority_queue_ctor s =
  Ok tt (mkQueue (<[brk s + node_stride := mkNode int_max 1 0 (brk s)]>
                    (<[brk s := mkNode int_min 1 0 0]> (mem s)))
                 0 (brk s + node_stride) (brk s) (brk s + 2 * node_stride)).
Proof.
  intros Hroom. destruct s as [m fl h t b]. cbn [brk mem] in *.
  unfold priority_queue_ctor, bind, store, new_Node.
  cbv [with_free_list alloc with_tail with_mem with_head brk mem free_list
       head tail put cell].
  destruct (Z.leb_spec (b + node_stride) (uintptr_max + 1));
    [|unfold node_stride in *; lia].
  destruct (Z.leb_spec (b + node_stride + node_stride) (uintptr_max + 1));
    [|unfold node_stride in *; lia].
  rewrite lookup_insert_eq. cbn [fmap option_fmap option_map].
  rewrite alter_insert_eq. cbn [set_next key counter value next].
  do 2 f_equal. unfold node_stride. lia.
Qed.

Lemma ctor_oom s :
  ~ brk s + 2 * node_stride <= uintptr_max + 1 ->
  priority_queue_ctor s = BadAlloc.
Proof.
  intros Hroom. destruct s as [m fl h t b]. cbn [brk mem] in *.
  unfold priority_queue_ctor, bind, store, new_Node.
  cbv [with_free_list alloc with_tail with_mem with_head brk mem free_list
       head tail put cell].
  destruct (Z.leb_spec (b + node_stride) (uintptr_max + 1)); [|done].
  destruct (Z.leb_spec (b + node_stride + node_stride) (uintptr_max + 1));
    [unfold node_stride in *; lia|done].
Qed.


Lemma get_new_node_bad_alloc fuel v k s :
  (1 <= fuel)%nat -> free_list s = 0 ->
  ~ brk s + node_stride <= uintptr_max + 1 ->
  get_new_node fuel v k s = BadAlloc.
Proof.
  intros Hf Hfl Hroom. destruct fuel as [|fuel]; [lia|].
  unfold get_new_node. rewrite loop_S. unfold bind.
  rewrite (safe_read_null (S fuel) FreeList s) by (lia || by rewrite <- Hfl).
  change (0 =? 0) with true. cbv iota. unfold new_Node.
  by destruct (Z.leb_spec (brk s + node_stride) (uintptr_max + 1)).
Qed.

(** ** What [pop] returns *)

Lemma abs_pop_all_claimed V :
  Forall (fun e => live e = false) V -> abs_pop (fun _ => false) V = (0, []).
Proof.
  induction 1 as [|e V He _ IH]; [done|].
  cbn [abs_pop]. unfold live in He. apply negb_false_iff in He. by rewrite He.
Qed.

Lemma abs_pop_skips_claimed V1 k v V2 :
  Forall (fun e => live e = false) V1 -> live (k, v) = true ->
  abs_pop (fun _ => false) (V1 ++ (k, v) :: V2) = (v, (k, get_marked v) :: V2).
Proof.
  intros H1 Hv. induction H1 as [|e V He _ IH].
  - cbn [app abs_pop fst snd]. unfold live in Hv. apply negb_true_iff in Hv.
    cbn [snd] in Hv. by rewrite Hv.
  - cbn [app abs_pop]. unfold live in He. apply negb_false_iff in He.
    by rewrite He.
Qed.

Lemma sorted_after_prefix (V1 : list entry) k v V2 :
  Sorted Z.ge (map fst (V1 ++ (k, v) :: V2)) ->
  Forall (fun e => fst e <= k) V2.
Proof.
  induction V1 as [|e V1 IH]; cbn [app map].
  - intros HS. apply Sorted_ge_all in HS.
    induction V2 as [|e V2 IH]; [constructor|].
    cbn [map] in HS. apply Forall_cons in HS as [He HS].
    constructor; [done|by apply IH].
  - intros HS. apply IH. by apply Sorted_tail in HS.
Qed.

(** ** Where the nodes go *)

Lemma pop_trace_spec fuel s V L F :
  inv s V L F -> (length V + 5 <= fuel)%nat ->
  exists s' L' F',
    pop fuel s = Ok (fst (abs_pop (fun _ => false) V)) s' /\
    inv s' (snd (abs_pop (fun _ => false) V)) L' F' /\
    pop_trace s L F s' L' F'.
Proof.
  intros Hi Hf.
  destruct (pop_loop_trace (fun _ => false) fuel V ltac:(lia) fuel s L F Hi)
    as (s' & L' & F' & Hloop & Hi' & Ht); [lia|].
  exists s', L', F'. split; [|done].
  unfold pop, pop_loop. by erewrite bind_ok by exact Hloop.
Qed.

Lemma drain_loop_trace fuel :
  forall rest V s L F acc n,
    inv s V L F -> Forall nonnull V -> abs_drain V = rest ->
    (length rest < n)%nat -> (length V + 5 <= fuel)%nat ->
    exists s' F',
      loop n (drain_step fuel) acc s = Ok (acc ++ rest) s' /\
      inv s' [] [] F' /\ pop_trace s L F s' [] F'.
Proof.
  induction rest as [|r rest IH]; intros V s L F acc n Hi Hnn Hd Hn Hf.
  - destruct n as [|n]; [simpl in Hn; lia|].
    destruct (pop_trace_spec fuel s V L F Hi Hf)
      as (s' & L' & F' & Hrun & Hi' & Ht).
    pose proof (abs_pop_drain V Hnn) as Hp. rewrite Hd in Hp.
    rewrite Hp in Hrun. rewrite Hp in Hi'. cbn [fst snd] in Hrun, Hi'.
    pose proof (inv_view _ _ _ _ Hi') as Hv. inversion Hv; subst.
    exists s', F'. split; [|done]. apply loop_exit. unfold drain_step.
    erewrite bind_ok by exact Hrun. by rewrite app_nil_r.
  - destruct n as [|n]; [simpl in Hn; lia|].
    destruct (pop_trace_spec fuel s V L F Hi Hf)
      as (s1 & L1 & F1 & Hrun & Hi1 & Ht1).
    pose proof (abs_pop_drain V Hnn) as Hp. rewrite Hd in Hp.
    destruct Hp as (Hr & Hr0 & Hd' & Hlen & Hnn').
    destruct (IH _ s1 L1 F1 (acc ++ [r]) n Hi1 Hnn' Hd')
      as (s' & F' & Hloop & Hi' & Ht').
    { simpl in Hn. lia. }
    { lia. }
    exists s', F'. split; [|split; [done|by eapply pop_trace_trans]].
    erewrite loop_continue; [rewrite Hloop; by rewrite <- app_assoc|].
    unfold drain_step. erewrite bind_ok by exact Hrun. rewrite Hr.
    apply Z.eqb_neq in Hr0 as ->. done.
Qed.

Lemma drain_trace fuel s V L F :
  inv s V L F -> Forall nonnull V -> (length V + 5 <= fuel)%nat ->
  exists s' F',
    drain fuel s = Ok (abs_drain V) s' /\ inv s' [] [] F' /\
    pop_trace s L F s' [] F'.
Proof.
  intros Hi Hnn Hf.
  destruct (drain_loop_trace fuel (abs_drain V) V s L F [] fuel Hi Hnn eq_refl)
    as (s' & F' & Hrun & Hi' & Ht); [|done|by exists s', F'].
  pose proof (abs_drain_length V). lia.
Qed.

Lemma keeps_drain f : keeps same_nodes (drain f).
Proof.
  unfold drain. apply keeps_loop; [apply same_nodes_trans|].
  intros acc s r s'. unfold drain_step, pop, bind.
  destruct (pop_loop f _ s) as [o s1| | | |] eqn:E; try done.
  apply keeps_pop_loop in E.
  destruct o as [item|]; cbn [ret].
  - destruct (negb (item =? 0)); by intros [= _ <-].
  - change (negb (0 =? 0)) with false. by intros [= _ <-].
Qed.

(** ** Giving the storage back *)

Lemma delete_node_ok p s :
  p <> 0 -> is_Some (mem s !! p) -> delete_node p s = Ok tt (dealloc p s).
Proof.
  intros Hp [n Hn]. unfold delete_node.
  apply Z.eqb_neq in Hp as ->. by rewrite Hn.
Qed.

Lemma cell_dealloc_ne p s c :
  slot_addr c <> Some p -> cell (dealloc p s) c = cell s c.
Proof.
  intros Hc. destruct c; simpl in *; try done;
    rewrite lookup_delete_ne; congruence.
Qed.

Lemma mem_dealloc p s q :
  mem (dealloc p s) !! q = if decide (q = p) then None else mem s !! q.
Proof.
  simpl. case_decide as E.
  - subst. apply lookup_delete_eq.
  - by apply lookup_delete_ne.
Qed.

Lemma mem_bump p s q :
  q <> p -> mem (bump p s) !! q = mem s !! q.
Proof.
  intros Hq. unfold bump. destruct (cell s (CounterOf p)); [|done].
  apply mem_put_ne. simpl. congruence.
Qed.

Lemma mem_bump_None p s q :
  mem s !! q = None -> mem (bump p s) !! q = None.
Proof.
  intros Hq. unfold bump. destruct (cell s (CounterOf p)); [|done].
  by apply mem_put_None.
Qed.

Lemma chain_nodes_allocated s p L q :
  chain s p L q -> Forall (fun a => is_Some (mem s !! a)) L.
Proof.
  revert p. induction L as [|a L IH]; intros p; [constructor|].
  cbn [chain]. intros [-> (nx & Hnx & Hch)]. constructor; [|by eapply IH].
  simpl in Hnx. destruct (mem s !! a); [by eexists|done].
Qed.

Lemma delete_chain_spec :
  forall F n s x,
    chain s x F 0 -> NoDup F -> Forall (fun p => p <> 0) F ->
    (length F < n)%nat ->
    exists s',
      delete_chain n x s = Ok tt s' /\
      (forall p, p ∈ F -> mem s' !! p = None) /\
      (forall p, p ∉ F -> mem s' !! p = mem s !! p).
Proof.
  induction F as [|a F IH]; intros n s x Hch Hnd Hnz Hn.
  - cbn [chain] in Hch. subst x. exists s.
    destruct n as [|n]; [simpl in Hn; lia|].
    split. { unfold delete_chain. by apply loop_exit. }
    split; [|done].
    intros p Hp. by apply elem_of_nil in Hp.
  - cbn [chain] in Hch. destruct Hch as [-> (nx & Hnx & Hch)].
    apply NoDup_cons in Hnd as [Ha Hnd].
    apply Forall_cons in Hnz as [Ha0 Hnz].
    destruct n as [|n]; [simpl in Hn; lia|].
    assert (is_Some (mem s !! a)) as Hal.
    { simpl in Hnx. destruct (mem s !! a); [by eexists|done]. }
    destruct (IH n (dealloc a s) nx) as (s' & Hrun & Hin & Hout);
      [|done|done|simpl in Hn; lia|].
    { eapply chain_frame; [|exact Hch]. intros b Hb.
      apply cell_dealloc_ne. simpl. intros [= ->]. done. }
    exists s'. split; [|split].
    + unfold delete_chain. erewrite loop_continue; [exact Hrun|].
      rewrite (proj2 (Z.eqb_neq _ _) Ha0).
      erewrite bind_ok by (by apply load_ok).
      erewrite bind_ok by (by apply delete_node_ok). done.
    + intros p Hp. apply elem_of_cons in Hp as [->|Hp]; [|by apply Hin].
      rewrite (Hout _ Ha), mem_dealloc. by rewrite decide_True.
    + intros p Hp. apply not_elem_of_cons in Hp as [Hpa Hp].
      rewrite (Hout _ Hp), mem_dealloc. by rewrite decide_False.
Qed.

(** What the destructor does after its [pop] loop: [head], [tail] and the
    nodes of the free list are deleted, and nothing else. *)
Lemma delete_all_spec fuel s F :
  inv s [] [] F -> (length F < fuel)%nat ->
  exists s',
    (h <- safe_read fuel Head ;;
     delete_node h ;;;
     tl <- get_tail ;;
     delete_node tl ;;;
     node <- safe_read fuel FreeList ;;
     delete_chain fuel node) s = Ok tt s' /\
    (forall p, p ∈ head s :: tail s :: F -> mem s' !! p = None) /\
    (forall p, p ∉ head s :: tail s :: F -> mem s' !! p = mem s !! p).
Proof.
  intros Hi Hf.
  destruct (inv_sentinels _ _ _ _ Hi) as (Hht & Vh & Vt & Hhd).
  destruct (valid_ptr_bounds _ Vh) as [Hh0 _].
  destruct (valid_ptr_bounds _ Vt) as [Ht0 _].
  pose proof (inv_head_cnt _ _ _ _ Hi) as Hhc.
  pose proof (inv_tail_cnt _ _ _ _ Hi) as Htc.
  pose proof (inv_nodup _ _ _ _ Hi) as Hnd. cbn [app] in Hnd.
  apply NoDup_cons in Hnd as [HhF Hnd]. apply NoDup_cons in Hnd as [HtF Hnd].
  rewrite not_elem_of_cons in HhF. destruct HhF as [_ HhF].
  pose proof (inv_valid _ _ _ _ Hi) as Hval. cbn [app] in Hval.
  apply Forall_cons in Hval as [_ Hval]. apply Forall_cons in Hval as [_ Hval].
  pose proof (inv_free _ _ _ _ Hi) as Hfree.
  pose proof (inv_free_cnt _ _ _ _ Hi) as Hfc.
  set (s1 := bump (head s) s).
  set (s2 := dealloc (head s) s1).
  set (s3 := dealloc (tail s) s2).
  assert (forall c, slot_addr c <> Some (head s) ->
                    slot_addr c <> Some (tail s) ->
                    cell s3 c = cell s c) as Hcell.
  { intros c H1 H2. unfold s3, s2, s1.
    rewrite !cell_dealloc_ne by done. apply cell_bump_ne.
    intros ->. by simpl in H1. }
  assert (forall p, p <> head s -> p <> tail s ->
                    mem s3 !! p = mem s !! p) as Hmem.
  { intros p H1 H2. unfold s3, s2, s1.
    rewrite !mem_dealloc, !decide_False by done. by apply mem_bump. }
  assert (mem s3 !! head s = None /\ mem s3 !! tail s = None) as [Hmh Hmt].
  { unfold s3, s2. rewrite !mem_dealloc. rewrite decide_False by done.
    by rewrite !decide_True. }
  assert ((h <- safe_read fuel Head ;;
           delete_node h ;;;
           tl <- get_tail ;;
           delete_node tl ;;;
           node <- safe_read fuel FreeList ;;
           delete_chain fuel node) s =
          (node <- safe_read fuel FreeList ;; delete_chain fuel node) s3)
    as ->.
  { erewrite bind_ok; cycle 1.
    { eapply (safe_read_bump _ Head (head s) 1); try done; try lia;
        by vm_compute. }
    fold s1.
    erewrite bind_ok; cycle 1.
    { apply delete_node_ok; [done|]. unfold s1.
      pose proof (cell_bump_eq (head s) s 1 Hhc) as Hc. simpl in Hc.
      destruct (mem (bump (head s) s) !! head s); [by eexists|done]. }
    fold s2.
    erewrite bind_ok by apply get_tail_ok.
    assert (tail s2 = tail s) as -> by (unfold s2, s1; simpl; apply tail_bump).
    erewrite bind_ok; cycle 1.
    { apply delete_node_ok; [done|]. unfold s2.
      rewrite mem_dealloc, decide_False by done.
      unfold s1. rewrite mem_bump by done.
      simpl in Htc. destruct (mem s !! tail s); [by eexists|done]. }
    done. }
  destruct F as [|x F].
  - cbn [chain] in Hfree.
    exists s3. split; [|split].
    + erewrite bind_ok
        by (apply safe_read_null; [lia|]; rewrite Hcell by done;
            simpl; congruence).
      destruct fuel as [|fuel]; [simpl in Hf; lia|].
      unfold delete_chain. by apply loop_exit.
    + intros p Hp. rewrite !elem_of_cons, elem_of_nil in Hp.
      destruct Hp as [->|[->|[]]]; done.
    + intros p Hp. rewrite !not_elem_of_cons in Hp. apply Hmem; tauto.
  - pose proof Hfree as Hfree0.
    cbn [chain] in Hfree. destruct Hfree as [Hfl _].
    apply Forall_cons in Hfc as [Hxc Hfc].
    pose proof Hval as Hval0. apply Forall_cons in Hval as [Vx Hval].
    assert (x <> head s /\ x <> tail s) as [Hxh Hxt].
    { split; intros ->; [apply HhF|apply HtF]; by left. }
    destruct (delete_chain_spec (x :: F) fuel (bump x s3) x)
      as (s' & Hrun & Hin & Hout); [| | |done|].
    { rewrite Hfl in Hfree0. eapply chain_frame; [|exact Hfree0].
      intros b Hb. rewrite cell_bump_ne by done.
      apply Hcell; simpl; intros [= ->]; done. }
    { exact Hnd. }
    { eapply Forall_impl; [exact Hval0|]. intros p Vp.
      by apply valid_ptr_nonzero. }
    exists s'. split; [|split].
    + erewrite bind_ok; [exact Hrun|].
      eapply (safe_read_bump _ FreeList x 0);
        [lia|rewrite Hcell by done; simpl; congruence|done|
         rewrite Hcell; [done|simpl; congruence..]|by vm_compute|done].
    + intros p Hp. rewrite !elem_of_cons in Hp.
      destruct (decide (p ∈ x :: F)) as [Hpf|Hpf]; [by apply Hin|].
      rewrite (Hout _ Hpf). apply mem_bump_None.
      rewrite elem_of_cons in Hpf. destruct Hp as [->|[->|Hp]]; tauto.
    + intros p Hp. rewrite !not_elem_of_cons in Hp.
      destruct Hp as (Hph & Hpt & Hpx & HpF).
      rewrite Hout by (rewrite not_elem_of_cons; tauto).
      rewrite mem_bump by done. by apply Hmem.
Qed.

(** The destructor on a quiescent queue. *)
Lemma dtor_trace fuel s V L F :
  inv s V L F -> Forall nonnull V ->
  (length V + length F + 6 <= fuel)%nat ->
  exists s',
    priority_queue_dtor fuel s = Ok (abs_drain V) s' /\
    (forall p, p ∈ head s :: tail s :: F -> mem s' !! p = None) /\
    (forall p, p ∈ L -> cell s (CounterOf p) = Some 1 ->
               mem s' !! p = None) /\
    (forall p, p ∈ L -> cell s (CounterOf p) = Some 2 ->
               is_Some (mem s' !! p)) /\
    (forall p, p ∉ tracked s L F -> mem s' !! p = mem s !! p).
Proof.
  intros Hi Hnn Hf.
  destruct (drain_trace fuel s V L F Hi Hnn ltac:(lia))
    as (s1 & F1 & Hdrain & Hi1 &
        ((Lc & Fc & HL & HFc & HFc') & _ & Hh & Ht & _ & Hm)).
  rewrite app_nil_r in HL. subst Lc.
  assert (forall p, p ∈ F1 <->
                    p ∈ F \/ (p ∈ L /\ cell s (CounterOf p) = Some 1)) as HF1.
  { intros p. rewrite HFc, elem_of_app, HFc'. tauto. }
  clear HFc HFc'.
  pose proof (inv_nodup _ _ _ _ Hi) as Hnd.
  apply NoDup_cons in Hnd as [HhLF Hnd]. apply NoDup_cons in Hnd as [HtLF Hnd].
  rewrite not_elem_of_cons in HhLF. destruct HhLF as [_ HhLF].
  assert (length F1 <= length V + length F)%nat as Hlen.
  { rewrite <- (Forall2_length _ _ _ (inv_view _ _ _ _ Hi)).
    rewrite <- length_app. apply submseteq_length, NoDup_submseteq.
    - pose proof (inv_nodup _ _ _ _ Hi1) as Hnd1. cbn [app] in Hnd1.
      apply NoDup_cons in Hnd1 as [_ Hnd1]. by apply NoDup_cons in Hnd1 as [_ ?].
    - intros p Hp. apply HF1 in Hp. rewrite elem_of_app. tauto. }
  destruct (delete_all_spec fuel s1 F1 Hi1 ltac:(lia))
    as (s' & Hdel & Hin & Hout).
  rewrite Hh, Ht in Hin, Hout.
  exists s'. split_and!.
  - unfold priority_queue_dtor.
    erewrite bind_ok by exact Hdrain.
    revert Hdel. unfold bind.
    destruct (safe_read fuel Head s1) as [h sa| | | |]; try done.
    destruct (delete_node h sa) as [[] sb| | | |]; try done.
    destruct (get_tail sb) as [tl sc| | | |]; try done.
    destruct (delete_node tl sc) as [[] sd| | | |]; try done.
    destruct (safe_read fuel FreeList sd) as [node se| | | |]; try done.
    by intros ->.
  - intros p Hp. apply Hin. revert Hp. rewrite !elem_of_cons, HF1. tauto.
  - intros p Hp Hc. apply Hin. rewrite !elem_of_cons, HF1. tauto.
  - intros p Hp Hc.
    assert (p ∉ head s :: tail s :: F1) as Hout'.
    { rewrite !not_elem_of_cons, HF1. split_and!.
      - intros ->. apply HhLF. apply elem_of_app. by left.
      - intros ->. apply HtLF. apply elem_of_app. by left.
      - intros [HpF|[_ Hc1]]; [|congruence].
        apply NoDup_app in Hnd as (_ & Hdisj & _). by eapply Hdisj. }
    rewrite (Hout _ Hout').
    apply (keeps_drain _ _ _ _ Hdrain).
    simpl in Hc. destruct (mem s !! p); [by eexists|done].
  - intros p Hp. unfold tracked in Hp.
    rewrite !not_elem_of_cons, not_elem_of_app in Hp.
    rewrite Hout; [apply Hm|].
    + rewrite not_elem_of_cons. tauto.
    + rewrite !not_elem_of_cons, HF1. tauto.
Qed.

(** ** The life of a node *)


Lemma inv_free_list_cons s V L x F :
  inv s V L (x :: F) -> free_list s = x /\ x <> 0.
Proof.
  intros Hi. pose proof (inv_free _ _ _ _ Hi) as [Hfl _].
  split; [done|].
  pose proof (inv_valid _ _ _ _ Hi) as Hv.
  rewrite !Forall_cons, Forall_app, Forall_cons in Hv.
  apply valid_ptr_nonzero. tauto.
Qed.

Lemma inv_list_length s V L F : inv s V L F -> length L = length V.
Proof. intros Hi. apply (Forall2_length _ _ _ (inv_view _ _ _ _ Hi)). Qed.

Lemma inv_free_nodup s V L F : inv s V L F -> NoDup F.
Proof.
  intros Hi. pose proof (inv_nodup _ _ _ _ Hi) as H.
  do 2 apply NoDup_cons in H as [_ H]. by apply NoDup_app in H as (_ & _ & ?).
Qed.

(** [pop( )] on a list whose only entry is live. *)
Lemma pop_single_live fuel s k v x F :
  inv s [(k, v)] [x] F -> is_marked v = false -> (6 <= fuel)%nat ->
  exists s',
    pop fuel s = Ok v s' /\ inv s' [(k, get_marked v)] [x] F /\
    brk s' = brk s /\ cell s' (CounterOf x) = cell s (CounterOf x).
Proof.
  intros Hi Hm Hf.
  destruct (pop_trace_spec fuel s _ _ _ Hi ltac:(simpl; lia))
    as (s' & L' & F' & Hrun & Hi' &
        (Lc & Fc & HL & HF & HFc) & Hc & _ & _ & Hb & _).
  cbn [abs_pop fst snd] in Hrun, Hi'. rewrite Hm in Hrun, Hi'.
  cbn [fst snd] in Hrun, Hi'.
  pose proof (inv_list_length _ _ _ _ Hi') as Hlen.
  destruct Lc as [|a Lc]; cycle 1.
  { apply (f_equal length) in HL. rewrite length_app in HL.
    simpl in HL, Hlen. lia. }
  cbn [app] in HL. subst L'.
  assert (Fc = []) as ->.
  { apply elem_of_nil_inv. intros p Hp. apply HFc in Hp as [Hp _].
    by apply elem_of_nil in Hp. }
  cbn [app] in HF. subst F'.
  exists s'. split_and!; try done.
  apply Hc. by left.
Qed.

(** [pop( )] on a list whose only entry is claimed: the node is unlinked,
    and goes to the free list when the list held its last reference. *)
Lemma pop_single_claimed fuel s k v x F :
  inv s [(k, v)] [x] F -> is_marked v = true -> (6 <= fuel)%nat ->
  exists s' F',
    pop fuel s = Ok 0 s' /\ inv s' [] [] F' /\ brk s' = brk s /\
    is_Some (mem s' !! x) /\
    (cell s (CounterOf x) = Some 1 -> F' = x :: F) /\
    (cell s (CounterOf x) = Some 2 -> F' = F).
Proof.
  intros Hi Hm Hf.
  destruct (pop_trace_spec fuel s _ _ _ Hi ltac:(simpl; lia))
    as (s' & L' & F' & Hrun & Hi' &
        (Lc & Fc & HL & HF & HFc) & Hc & _ & _ & Hb & _).
  cbn [abs_pop fst snd] in Hrun, Hi'. rewrite Hm in Hrun, Hi'.
  cbn [fst snd] in Hrun, Hi'.
  pose proof (inv_list_length _ _ _ _ Hi') as Hlen.
  destruct L' as [|? ?]; [|simpl in Hlen; lia].
  rewrite app_nil_r in HL. subst Lc.
  exists s', F'. split_and!; try done.
  - apply (keeps_pop _ _ _ _ Hrun).
    destruct (inv_first _ _ _ _ _ _ Hi) as (_ & _ & _ & _ & _ & _ & Hcx & _).
    simpl in Hcx. destruct (mem s !! x); [by eexists|].
    by destruct Hcx.
  - intros Hc1. rewrite HF. change (x :: F) with ([x] ++ F). f_equal.
    apply Permutation_singleton_r. apply list.NoDup_Permutation.
    + pose proof (inv_free_nodup _ _ _ _ Hi') as Hnd. rewrite HF in Hnd.
      apply NoDup_app in Hnd as (Hnd1 & _ & _). exact Hnd1.
    + apply NoDup_singleton.
    + intros p. rewrite HFc, list_elem_of_singleton.
      split; [tauto|]. by intros ->.
  - intros Hc2. rewrite HF.
    assert (Fc = []) as ->; [|done].
    apply elem_of_nil_inv. intros p Hp. apply HFc in Hp as [Hp Hc1].
    apply list_elem_of_singleton in Hp. subst. congruence.
Qed.

(** [insert] into an empty list. *)
Lemma insert_into_empty fuel s v k F :
  inv s [] [] F -> is_uintptr v -> (4 <= fuel)%nat ->
  free_list s <> 0 \/ brk s + node_stride <= uintptr_max + 1 ->
  exists s' x F',
    insert fuel v k s = Ok tt s' /\ inv s' [(k, v)] [x] F' /\
    ((F = x :: F' /\ brk s' = brk s /\ cell s' (CounterOf x) = Some 2) \/
     (F = [] /\ F' = [] /\ x = brk s /\ brk s' = brk s + node_stride /\
      cell s' (CounterOf x) = Some 1)).
Proof.
  intros Hi Hv Hf Hroom.
  destruct (insert_trace_spec fuel v k s [] [] F Hi Hv Hroom ltac:(simpl; lia))
    as (s' & x & L' & F' & Hrun & Hi' & (HP & _) & Hcase).
  apply Permutation_singleton_r in HP. subst L'.
  by exists s', x, F'.
Qed.

(** ** Queues that never recycled a node *)

Lemma fresh_queue_closed : closed fresh_queue [] [].
Proof.
  intros p. rewrite fresh_queue_eq. unfold tracked. simpl.
  rewrite !lookup_insert_is_Some, lookup_empty, !elem_of_cons.
  intros [<-|[_ [<-|[_ H]]]]; [by left|right; by left|by destruct H].
Qed.

Lemma insert_all_fresh fuel ops :
  forall s V L,
    inv s V L [] -> closed s L [] -> unshared s L ->
    Forall (fun op => is_uintptr (fst op)) ops ->
    brk s + node_stride * Z.of_nat (length ops) <= uintptr_max + 1 ->
    (length V + length ops + 4 <= fuel)%nat ->
    exists s' L',
      insert_all fuel ops s = Ok tt s' /\
      inv s' (abs_insert_all ops V) L' [] /\
      closed s' L' [] /\ unshared s' L'.
Proof.
  induction ops as [|[v k] ops IH]; intros s V L Hi Hcl Hun Hv Hroom Hf.
  - by exists s, L.
  - apply Forall_cons in Hv as [Hv Hvs]. simpl in Hv.
    destruct (insert_trace_spec fuel v k s V L [] Hi Hv)
      as (s1 & x & L1 & F1 & Hrun & Hi1 & (HP & Hc & Hh & Ht & Hm) &
          [(? & _)|(_ & -> & -> & Hb1 & Hcx)]); [| |done|].
    { right. simpl length in Hroom. unfold node_stride in *. lia. }
    { simpl in Hf. lia. }
    destruct (IH s1 (abs_insert k v V) L1 Hi1)
      as (s' & L' & Hrun' & Hi' & Hcl' & Hun'); try done.
    + intros p Hp. unfold tracked. rewrite Hh, Ht, app_nil_r.
      destruct (decide (p ∈ head s :: brk s :: L)) as [Hin|Hout].
      * revert Hin. rewrite !elem_of_cons, HP, elem_of_cons. tauto.
      * rewrite (Hm _ Hout) in Hp. apply Hcl in Hp. unfold tracked in Hp.
        revert Hp. rewrite app_nil_r, !elem_of_cons, HP, elem_of_cons. tauto.
    + unfold unshared. rewrite HP. constructor; [done|].
      unfold unshared in Hun. rewrite Forall_forall in Hun |- *.
      intros p Hp. rewrite (Hc _ Hp). by apply Hun.
    + rewrite Hb1. simpl length in Hroom. unfold node_stride in *. lia.
    + rewrite abs_insert_length. simpl in Hf. lia.
    + exists s', L'. split_and!; try done.
      cbn [insert_all]. by erewrite bind_ok by exact Hrun.
Qed.

(** ** More on what [pop] returns *)

Lemma abs_drain_insert_marked k v V :
  is_marked v = true -> abs_drain (abs_insert k v V) = abs_drain V.
Proof.
  intros Hm. induction V as [|e V IH]; cbn [abs_insert abs_drain snd].
  - by rewrite Hm.
  - destruct (k >? fst e); cbn [abs_drain snd]; [by rewrite Hm|].
    by rewrite IH.
Qed.

(** ** What [pop] never returns *)

Lemma is_marked_get_unmarked q : is_marked (get_unmarked q) = false.
Proof.
  unfold is_marked, get_unmarked. rewrite <- Z.land_assoc.
  change (Z.land (uintptr_max - 1) 1) with 0. by rewrite Z.land_0_r.
Qed.

Lemma pop_loop_unmarked fuel low s r s' :
  pop_loop fuel low s = Ok r s' ->
  match r with Some v => is_marked v = false | None => True end.
Proof.
  unfold pop_loop. intros Hrun.
  eapply (loop_result
            (fun r => match r with
                      | Some v => is_marked v = false
                      | None => True
                      end)); [|exact Hrun].
  clear. intros [] s r s'.
  unfold pop_step. unfold bind at 1, load at 1. cbn [cell].
  unfold bind at 1.
  destruct (read_next fuel (head s) s) as [ret_node s1| | | |]; try done.
  destruct (ret_node =? 0); [by intros [= <- _]|].
  unfold bind at 1, load at 1.
  destruct (cell s1 (KeyOf ret_node)) as [kn|]; [|done].
  unfold bind at 1, get_tail at 1.
  destruct (low kn || (ret_node =? tail s1)).
  { unfold bind. by destruct (release fuel ret_node s1); [intros [= <- _]|..]. }
  unfold bind at 1, load at 1.
  destruct (cell s1 (ValueOf ret_node)) as [v|]; [|done].
  unfold bind at 1.
  destruct (compare_exchange _ _ _ s1) as [[|] s2| | | |]; try done.
  - unfold bind. destruct (release fuel ret_node s2); try done.
    intros [= <- _]. apply is_marked_get_unmarked.
  - unfold bind.
    destruct (help_delete fuel ret_node s2) as [? ?| | | |]; try done.
    destruct (release fuel _ _) as [? ?| | | |]; try done.
    by destruct (release fuel _ _).
Qed.

(** * The claims *)

(** C1.  [pop( K )] has no instantiation.  Line 168 hands the member
    [ret_node->value], a [std::atomic< T * >], to [get_unmarked], whose
    parameter type [U *] is matched by a pointer only; [pop( )] hands it
    [ret_node->value.load( )] on line 186.  So after a payload has been
    inserted with key 10 neither [pop( 10 )] nor [pop( 9 )] returns
    anything, where the claim has the first return null and the second
    the payload. *)
Theorem pop_threshold_not_instantiable :
  deduces AtomicPointer = false /\ deduces Pointer = true /\
  (forall fuel t s, pop_key fuel t s = IllFormed) /\
  exists s1,
    insert 4 1000 10 fresh_queue = Ok tt s1 /\
    pop_key 6 10 s1 = IllFormed /\ pop_key 6 9 s1 = IllFormed.
Proof.
  split; [done|]. split; [done|]. split; [apply pop_key_ill_formed|].
  destruct (insert_spec 4 1000 10 fresh_queue [] fresh_queue_Inv)
    as (s1 & Hins & _).
  { by vm_compute. }
  { right. by vm_compute. }
  { simpl. lia. }
  exists s1. split; [exact Hins|]. split; apply pop_key_ill_formed.
Qed.

(** C2.  For every sequence of [insert( value, key )] calls made by one
    thread on a fresh queue (payloads non-null and untagged, nodes fitting
    in the address space), followed by a drain with [pop( )] until it
    returns null: the drain returns the payloads of a rearrangement of the
    inserted pairs whose keys are weakly decreasing.  In particular
    inserting (A,3), (B,1), (C,5) and draining yields C, A, B. *)
Theorem sorted_drain (ops : list (Z * Z)) (fuel : nat) :
  Forall (fun op => payload (fst op)) ops ->
  brk fresh_queue + node_stride * Z.of_nat (length ops) <= uintptr_max + 1 ->
  (length ops + 5 <= fuel)%nat ->
  exists s1 s2 out (es : list entry),
    insert_all fuel ops fresh_queue = Ok tt s1 /\
    drain fuel s1 = Ok out s2 /\
    es ≡ₚ map (fun op => (snd op, fst op)) ops /\
    out = map snd es /\
    Sorted Z.ge (map fst es) /\
    (forall A B C, ops = [(A, 3); (B, 1); (C, 5)] -> out = [C; A; B]).
Proof.
  intros Hp Hroom Hf.
  destruct (insert_all_drain fuel ops Hp Hroom Hf)
    as (s1 & s2 & Hins & Hdrain & Hi1 & _).
  exists s1, s2, (map snd (abs_insert_all ops [])), (abs_insert_all ops []).
  split_and!; try done.
  - by rewrite abs_insert_all_perm, app_nil_r.
  - by eapply Inv_sorted.
  - by intros A B C ->.
Qed.

Lemma sorted_drain_witness :
  exists s1 s2,
    insert_all 8 [(1000, 3); (2000, 1); (3000, 5)] fresh_queue = Ok tt s1 /\
    drain 8 s1 = Ok [3000; 1000; 2000] s2.
Proof.
  destruct (sorted_drain [(1000, 3); (2000, 1); (3000, 5)] 8)
    as (s1 & s2 & out & es & H1 & H2 & _ & _ & _ & H3).
  - repeat constructor; vm_compute; congruence.
  - vm_compute. congruence.
  - simpl. lia.
  - exists s1, s2. split; [done|]. by rewrite <- (H3 1000 2000 3000).
Defined.

(** C3.  [insert] compares with a strict greater-than: the new entry goes
    after every entry whose key is not smaller than the new key (so after
    every entry with the same key) and before every entry with a smaller
    key.  Inserting (A,5) then (B,5) into a fresh queue and draining yields
    A then B: both payloads, once each, and no null. *)
Theorem insert_after_equal_keys :
  (forall s V v k fuel,
     Inv s V -> is_uintptr v ->
     free_list s <> 0 \/ brk s + node_stride <= uintptr_max + 1 ->
     (length V + 4 <= fuel)%nat ->
     exists s' V1 V2,
       insert fuel v k s = Ok tt s' /\
       V = V1 ++ V2 /\ Inv s' (V1 ++ (k, v) :: V2) /\
       Forall (fun e => k <= fst e) V1 /\ Forall (fun e => fst e < k) V2 /\
       (forall e, e ∈ V -> fst e = k -> e ∈ V1)) /\
  (forall A B fuel,
     payload A -> payload B -> (7 <= fuel)%nat ->
     exists s1 s2,
       insert_all fuel [(A, 5); (B, 5)] fresh_queue = Ok tt s1 /\
       drain fuel s1 = Ok [A; B] s2).
Proof.
  split.
  - intros s V v k fuel Hi Hv Hroom Hf.
    destruct (insert_spec fuel v k s V Hi Hv Hroom Hf) as (s' & Hrun & Hi' & _).
    destruct (abs_insert_split k v V (Inv_sorted _ _ Hi))
      as (V1 & V2 & HV & Habs & H1 & H2).
    exists s', V1, V2. split_and!; try done.
    + rewrite Habs in Hi'. exact Hi'.
    + intros e He Hk. rewrite HV in He. apply elem_of_app in He as [?|He];
        [done|]. eapply Forall_forall in H2; [|exact He]. simpl in H2. lia.
  - intros A B fuel HA HB Hf.
    destruct (insert_all_drain fuel [(A, 5); (B, 5)])
      as (s1 & s2 & Hins & Hdrain & _);
      [by repeat (constructor; [done|])| |simpl; lia|].
    { rewrite fresh_queue_brk. vm_compute. congruence. }
    by exists s1, s2.
Qed.

Lemma insert_after_equal_keys_witness :
  (exists s' V1 V2,
     insert 4 2000 5 fresh_queue = Ok tt s' /\
     [] = V1 ++ V2 /\ Inv s' (V1 ++ (5, 2000) :: V2)) /\
  (exists s1 s2,
     insert_all 7 [(1000, 5); (2000, 5)] fresh_queue = Ok tt s1 /\
     drain 7 s1 = Ok [1000; 2000] s2).
Proof.
  split.
  - destruct (proj1 insert_after_equal_keys fresh_queue [] 2000 5 4%nat)
      as (s' & V1 & V2 & H1 & H2 & H3 & _).
    + apply fresh_queue_Inv.
    + vm_compute. split; congruence.
    + right. vm_compute. congruence.
    + simpl. lia.
    + by exists s', V1, V2.
  - apply (proj2 insert_after_equal_keys 1000 2000 7%nat).
    + split; [vm_compute; split; congruence|reflexivity].
    + split; [vm_compute; split; congruence|reflexivity].
    + lia.
Defined.

(** C4: the loop counter of [reserve] starts from an indeterminate value,
    and the number of nodes added depends on it.  When that value is 5,
    [reserve( 3 )] adds no node at all: the free list of a fresh queue stays
    empty.  When it is 2, one node is added, not three. *)
Theorem reserve_uninitialised_counter :
  reserve 4 5 0 0 3 fresh_queue = Ok tt fresh_queue /\
  free_nodes 4 fresh_queue (free_list fresh_queue) = [] /\
  exists s,
    reserve 4 2 0 0 3 fresh_queue = Ok tt s /\
    free_nodes 4 s (free_list s) = [96].
Proof.
  split_and!; [reflexivity..|].
  eexists. split; vm_compute; reflexivity.
Qed.



(** C6.  On a queue whose list holds only the two sentinels, [pop( )]
    returns null and leaves the state as it was, and so does any number of
    repeated calls.  [pop( t )] returns nothing, whatever [t] is: the call
    does not compile (line 168), where the claim has it return null. *)
Theorem pop_empty_idempotent s fuel :
  Inv s [] -> (2 <= fuel)%nat ->
  pop fuel s = Ok 0 s /\
  (forall n, pop_all fuel (replicate n PopAny) s = Ok (replicate n 0) s) /\
  (forall t, pop_key fuel t s = IllFormed).
Proof.
  intros (L & F & Hi) Hf.
  pose proof (inv_view _ _ _ _ Hi) as Hv. inversion Hv; subst L.
  assert (pop_loop fuel (fun _ => false) s = Ok (Some 0) s) as Hloop.
  { unfold pop_loop. destruct fuel as [|fuel]; [lia|].
    apply loop_exit. by eapply pop_step_empty. }
  assert (pop fuel s = Ok 0 s) as Hpop.
  { unfold pop. by erewrite bind_ok by apply Hloop. }
  split_and!; [done| |intros t; apply pop_key_ill_formed].
  induction n as [|n IH]; [done|]. cbn [replicate pop_all do_pop].
  erewrite bind_ok by exact Hpop.
  by erewrite bind_ok by exact IH.
Qed.

Lemma pop_empty_idempotent_witness :
  pop 2 fresh_queue = Ok 0 fresh_queue /\
  pop_all 2 [PopAny; PopAny; PopAny] fresh_queue = Ok [0; 0; 0] fresh_queue /\
  pop_key 2 0 fresh_queue = IllFormed.
Proof.
  destruct (pop_empty_idempotent fresh_queue 2 fresh_queue_Inv ltac:(lia))
    as (H1 & H2 & H3).
  split_and!; [done|apply (H2 3%nat)|apply H3].
Defined.

(** C7, as stated, fails.  In the state [race_state] another thread has
    already unlinked [race_node]: the unlink loop of this call ends without
    a successful compare-exchange of its own ([assigned] is false), and
    [help_delete] nevertheless replaces the marked link 33 by 1.  So it is
    not true that [n->next] keeps its marked value whenever the call's own
    compare-exchange did not succeed. *)
Lemma help_delete_overwrite_counterexample :
  (exists prev tmp s2 s3,
     cell race_state (NextOf race_node) = Some 33 /\
     get_marked 33 = 33 /\ get_unmarked 33 = 32 /\
     unlink 3 (read_next 3) race_node 32 race_state =
       Ok (prev, tmp, false) s2 /\
     help_delete 4 race_node race_state = Ok prev s3 /\
     cell s3 (NextOf race_node) = Some 1) /\
  ~ (forall f n nx s prev tmp s2 s3,
       cell s (NextOf n) = Some nx ->
       unlink f (read_next f) n (get_unmarked nx)
              (put (NextOf n) (get_marked nx) s) = Ok (prev, tmp, false) s2 ->
       help_delete (S f) n s = Ok prev s3 ->
       cell s3 (NextOf n) = Some (get_marked nx)).
Proof.
  assert (exists prev tmp s2 s3,
            cell race_state (NextOf race_node) = Some 33 /\
            get_marked 33 = 33 /\ get_unmarked 33 = 32 /\
            unlink 3 (read_next 3) race_node 32 race_state =
              Ok (prev, tmp, false) s2 /\
            help_delete 4 race_node race_state = Ok prev s3 /\
            cell s3 (NextOf race_node) = Some 1) as Hrun.
  { eexists _, _, _, _. split_and!; vm_compute; reflexivity. }
  split; [exact Hrun|].
  destruct Hrun as (prev & tmp & s2 & s3 & Hc & Hm & Hu & Hunl & Hhd & Hc3).
  intros H.
  specialize (H 3%nat race_node 33 race_state prev tmp s2 s3 Hc).
  rewrite Hm, Hu, (put_id _ _ _ Hc) in H.
  specialize (H Hunl Hhd). rewrite Hc3 in H. done.
Qed.

(** C7, amended.  [help_delete( n )] first installs the link mark on
    [n->next].  If the unmarked link is null it returns [safe_read( head )]
    and [n->next] keeps the marked value.  Otherwise, once the unlink loop
    has ended, it stores 1 into [n->next] whether or not its own
    compare-exchange succeeded, and only then drops its references. *)
Theorem help_delete_overwrites_next f n nx s :
  (1 <= f)%nat -> cell s (NextOf n) = Some nx ->
  mark_next f n s = Ok nx (put (NextOf n) (get_marked nx) s) /\
  (get_unmarked nx = 0 ->
   help_delete (S f) n s =
     safe_read f Head (put (NextOf n) (get_marked nx) s) /\
   forall prev s',
     help_delete (S f) n s = Ok prev s' ->
     cell s' (NextOf n) = Some (get_marked nx)) /\
  (get_unmarked nx <> 0 ->
   forall prev tmp assigned s2,
     unlink f (read_next f) n (get_unmarked nx)
            (put (NextOf n) (get_marked nx) s) = Ok (prev, tmp, assigned) s2 ->
     is_Some (cell s2 (NextOf n)) ->
     cell (put (NextOf n) 1 s2) (NextOf n) = Some 1 /\
     help_delete (S f) n s =
       ((if assigned then release f n else ret tt) ;;;
        release f tmp ;;;
        ret prev) (put (NextOf n) 1 s2)).
Proof.
  intros Hf Hnx.
  pose proof (mark_next_ok f n nx s Hf Hnx) as Hmark.
  split_and!; [done|..].
  - intros Hnull.
    assert (help_delete (S f) n s =
            safe_read f Head (put (NextOf n) (get_marked nx) s)) as E.
    { cbn [help_delete]. erewrite bind_ok by exact Hmark.
      by rewrite Hnull. }
    split; [done|]. intros prev s' Hrun. rewrite E in Hrun.
    erewrite safe_read_head_frame; [|exact Hrun|done].
    by eapply cell_put_eq.
  - intros Hnn prev tmp assigned s2 Hunlink [y Hy]. split.
    + by eapply cell_put_eq.
    + cbn [help_delete]. erewrite bind_ok by exact Hmark.
      apply Z.eqb_neq in Hnn as ->.
      erewrite bind_ok by exact Hunlink. cbv beta iota.
      by erewrite bind_ok by (by eapply store_ok).
Qed.

Lemma help_delete_overwrites_next_witness :
  exists prev tmp s2,
    unlink 3 (read_next 3) race_node 32 race_state =
      Ok (prev, tmp, false) s2 /\
    cell (put (NextOf race_node) 1 s2) (NextOf race_node) = Some 1 /\
    help_delete 4 race_node race_state =
      (ret tt ;;; release 3 tmp ;;; ret prev) (put (NextOf race_node) 1 s2).
Proof.
  destruct (help_delete_overwrites_next 3 race_node 33 race_state)
    as (_ & _ & H); [lia|reflexivity|].
  assert (exists r s2, unlink 3 (read_next 3) race_node 32 race_state =
                       Ok r s2 /\ snd r = false /\
                       is_Some (cell s2 (NextOf race_node)))
    as ([[prev tmp] assigned] & s2 & Hrun & Ha & Hs).
  { eexists _, _. split; [vm_compute; reflexivity|]. split; [done|].
    by eexists. }
  simpl in Ha. subst assigned.
  assert (put (NextOf race_node) (get_marked 33) race_state = race_state)
    as Hid by (by apply put_id).
  assert (get_unmarked 33 = 32) as Hun by reflexivity.
  destruct (H ltac:(by rewrite Hun) prev tmp false s2) as [H1 H2].
  - by rewrite Hid, Hun.
  - done.
  - exists prev, tmp, s2. split; [exact Hrun|]. split; [exact H1|exact H2].
Defined.

(** C8.  Whenever [read_next] returns, the pointer it returns is not null,
    so the loop of [pop( )] is never left through its condition: [pop( )]
    returns through one of the [return] statements inside the loop.  On a
    quiescent state [read_next] does return for every node of the list,
    the sentinels included, and [pop( )] returns.  [pop( threshold )]
    does not return at all, through its loop or past it: it has no
    instantiation (line 168), where the claim has it return through an
    explicit [return]. *)
Theorem read_next_nonnull :
  (forall fuel n s r s', read_next fuel n s = Ok r s' -> r <> 0) /\
  (forall fuel s r s',
     pop_loop fuel (fun _ => false) s = Ok r s' -> r <> None) /\
  (forall s V L F n fuel,
     inv s V L F -> n ∈ head s :: L ++ [tail s] -> (3 <= fuel)%nat ->
     exists r s', read_next fuel n s = Ok r s' /\ r <> 0) /\
  (forall s V fuel,
     Inv s V -> (length V + 5 <= fuel)%nat ->
     exists v s', pop_loop fuel (fun _ => false) s = Ok (Some v) s' /\
                  pop fuel s = Ok v s') /\
  (forall fuel t s, pop_key fuel t s = IllFormed).
Proof.
  split_and!.
  - apply read_next_result.
  - intros fuel. apply pop_loop_result.
  - intros s V L F n fuel Hi Hn Hf.
    destruct (read_next_total fuel s V L F n Hi Hn Hf) as (r & s' & Hrun).
    exists r, s'. split; [done|]. by eapply read_next_result.
  - intros s V fuel (L & F & Hi) Hf.
    destruct (pop_loop_spec (fun _ => false) fuel V ltac:(lia)
                fuel s L F Hi ltac:(lia)) as (s' & L' & F' & Hloop & _).
    eexists _, s'. split; [exact Hloop|].
    unfold pop, pop_loop. by erewrite bind_ok by exact Hloop.
  - apply pop_key_ill_formed.
Qed.

Lemma read_next_nonnull_witness :
  (exists r s', read_next 3 (head fresh_queue) fresh_queue = Ok r s' /\ r <> 0) /\
  (exists r s', read_next 3 (tail fresh_queue) fresh_queue = Ok r s' /\ r <> 0) /\
  (exists v s', pop_loop 5 (fun _ => false) fresh_queue = Ok (Some v) s' /\
                pop 5 fresh_queue = Ok v s').
Proof.
  destruct read_next_nonnull as (_ & _ & H3 & H4 & _).
  split_and!.
  - apply (H3 fresh_queue [] [] []); [apply fresh_queue_inv| |lia].
    cbn [app]. apply elem_of_cons. by left.
  - apply (H3 fresh_queue [] [] []); [apply fresh_queue_inv| |lia].
    cbn [app]. apply elem_of_cons. right. by apply list_elem_of_singleton.
  - apply (H4 fresh_queue [] 5%nat); [apply fresh_queue_Inv|simpl; lia].
Defined.

(** C9.  For every pointer value with an even address, unmarking after
    marking gives the pointer back and the marked pointer tests as marked;
    an unmarked value never tests as marked; marking and unmarking are
    idempotent. *)
Theorem tagged_pointer_laws (p : Z) :
  0 <= p <= uintptr_max -> Z.even p = true ->
  get_unmarked (get_marked p) = p /\
  is_marked (get_marked p) = true /\
  (forall q, is_marked (get_unmarked q) = false) /\
  (forall q, get_marked (get_marked q) = get_marked q) /\
  (forall q, get_unmarked (get_unmarked q) = get_unmarked q).
Proof.
  intros Hr Hev. split_and!.
  - assert (is_marked p = false) as Hm by (by apply is_marked_even).
    pose proof (get_marked_bound p Hr Hm) as Hb.
    rewrite get_unmarked_spec by done.
    rewrite <- is_marked_odd, is_marked_get_marked.
    rewrite get_marked_spec, <- is_marked_odd, Hm. lia.
  - apply is_marked_get_marked.
  - intros q. rewrite is_marked_odd. unfold get_unmarked.
    rewrite <- Z.bit0_odd, Z.land_spec, testbit_mask by lia.
    by rewrite andb_false_r.
  - intros q. unfold get_marked. by rewrite <- Z.lor_assoc, Z.lor_diag.
  - intros q. unfold get_unmarked. by rewrite <- Z.land_assoc, Z.land_diag.
Qed.

Lemma tagged_pointer_laws_witness :
  get_unmarked (get_marked 4096) = 4096 /\
  is_marked (get_marked 4096) = true /\
  (forall q, is_marked (get_unmarked q) = false) /\
  (forall q, get_marked (get_marked q) = get_marked q) /\
  (forall q, get_unmarked (get_unmarked q) = get_unmarked q).
Proof.
  apply (tagged_pointer_laws 4096).
  - vm_compute. split; congruence.
  - reflexivity.
Defined.

(** C10.  [get_new_node( value, key )] returns a node whose reference
    counter is 1 when the free list is empty and the node is freshly
    allocated, and 2 when the node is taken from the free list, where it
    had counter 0; in both cases the node carries the given key and
    value. *)
Theorem get_new_node_counter (v k : Z) (fuel : nat) (s : queue) :
  (2 <= fuel)%nat ->
  (free_list s = 0 -> brk s + node_stride <= uintptr_max + 1 ->
   exists p s',
     get_new_node fuel v k s = Ok p s' /\
     mem s' !! p = Some (mkNode k 1 v 0)) /\
  (forall x n,
     free_list s = x -> valid_ptr x -> mem s !! x = Some n -> counter n = 0 ->
     exists s',
       get_new_node fuel v k s = Ok x s' /\
       mem s' !! x = Some (mkNode k 2 v (next n))).
Proof.
  intros Hf. split.
  - intros Hfl Hroom. exists (brk s), (alloc (mkNode k 1 v 0) s). split.
    + destruct fuel as [|fuel]; [lia|]. unfold get_new_node.
      apply loop_exit.
      assert (cell s FreeList = Some 0) as Hc by (simpl; by rewrite Hfl).
      step safe_read_null.
      change (0 =? 0) with true. cbv iota.
      erewrite bind_ok by (by apply new_Node_ok). done.
    + simpl. by rewrite lookup_insert_eq.
  - intros x n Hfl Vx Hn Hc0.
    destruct (valid_ptr_bounds _ Vx) as [Hx0 Hxm].
    assert (cell s FreeList = Some x) as Hflc by (simpl; congruence).
    assert (cell s (CounterOf x) = Some 0) as Hcx
      by (simpl; rewrite Hn; simpl; congruence).
    assert (cell s (NextOf x) = Some (next n)) as Hnx
      by (simpl; by rewrite Hn).
    assert (cell s (KeyOf x) = Some (key n)) as Hkx by (simpl; by rewrite Hn).
    assert (cell s (ValueOf x) = Some (value n)) as Hvx
      by (simpl; by rewrite Hn).
    eexists. split.
    + destruct fuel as [|fuel]; [lia|]. unfold get_new_node.
      apply loop_exit.
      step safe_read_ok. rewrite (valid_ptr_eqb _ Vx).
      step load_ok. step cas_ok. step fetch_add_ok.
      step store_ok. step store_ok. done.
    + cbn [put with_mem with_free_list mem]. rewrite !lookup_alter_eq, Hn.
      done.
Qed.

Lemma get_new_node_counter_witness :
  (exists p s',
     get_new_node 2 1000 7 fresh_queue = Ok p s' /\
     mem s' !! p = Some (mkNode 7 1 1000 0)) /\
  (exists s',
     get_new_node 2 1000 7 one_free_node = Ok 96 s' /\
     mem s' !! 96 = Some (mkNode 7 2 1000 0)).
Proof.
  split.
  - apply (proj1 (get_new_node_counter 1000 7 2 fresh_queue ltac:(lia))).
    + reflexivity.
    + vm_compute. congruence.
  - apply (proj2 (get_new_node_counter 1000 7 2 one_free_node ltac:(lia))
             96 (mkNode 0 0 0 0)).
    + reflexivity.
    + split; [vm_compute; split; congruence|reflexivity].
    + reflexivity.
    + reflexivity.
Defined.

(** * Further properties of the code *)

(** X1.  [safe_read] on a cell holding [p]: a null or marked [p] gives
    null and changes nothing; an unmarked non-null [p] that is a node is
    returned with its counter incremented (with wrap-around) and nothing
    else changed; an unmarked non-null [p] that is no node is undefined
    behaviour. *)
Theorem safe_read_cases fuel c p s :
  (1 <= fuel)%nat -> cell s c = Some p ->
  (p = 0 \/ is_marked p = true -> safe_read fuel c s = Ok 0 s) /\
  (p <> 0 -> is_marked p = false -> c <> CounterOf p ->
   forall n, cell s (CounterOf p) = Some n ->
     safe_read fuel c s = Ok p (put (CounterOf p) (wrap_int (n + 1)) s)) /\
  (p <> 0 -> is_marked p = false -> cell s (CounterOf p) = None ->
   safe_read fuel c s = Fault).
Proof.
  intros Hf Hc. split_and!.
  - intros [->|Hm]; [by apply safe_read_null|by eapply safe_read_marked].
  - intros Hp Hm Hne n Hn. by apply safe_read_wrap.
  - intros Hp Hm Hn. by eapply safe_read_unallocated.
Qed.

Lemma safe_read_cases_witness :
  safe_read 1 FreeList fresh_queue = Ok 0 fresh_queue /\
  safe_read 1 Head fresh_queue =
    Ok 64 (put (CounterOf 64) (wrap_int (1 + 1)) fresh_queue).
Proof.
  split.
  - apply (proj1 (safe_read_cases 1 FreeList 0 fresh_queue
                    ltac:(lia) ltac:(reflexivity))).
    by left.
  - apply (proj1 (proj2 (safe_read_cases 1 Head 64 fresh_queue
                           ltac:(lia) ltac:(reflexivity)))).
    + lia.
    + reflexivity.
    + congruence.
    + reflexivity.
Defined.

(** X2.  Taking a reference and giving it back is the identity: on a cell
    holding a node whose counter is at least 1, [safe_read] followed by
    [release] of its result leaves the state as it was, and so does
    [read_next] on a node whose link holds such a node. *)
Theorem safe_read_release_identity fuel p n s :
  (2 <= fuel)%nat -> valid_ptr p ->
  cell s (CounterOf p) = Some n -> 1 <= n < int_max ->
  (forall c, cell s c = Some p -> c <> CounterOf p ->
     (r <- safe_read fuel c ;; release fuel r) s = Ok tt s) /\
  (forall node, cell s (NextOf node) = Some p ->
     (r <- read_next fuel node ;; release fuel r) s = Ok tt s).
Proof.
  intros Hf Vp Hn Hr. split.
  - intros c Hc Hne.
    erewrite bind_ok by (eapply (safe_read_bump _ _ p n); try done; ilia).
    by eapply release_bump.
  - intros node Hc.
    erewrite bind_ok by (eapply (read_next_bump _ _ p n); try done; ilia).
    by eapply release_bump.
Qed.

Lemma safe_read_release_identity_witness :
  (r <- safe_read 2 Head ;; release 2 r) fresh_queue = Ok tt fresh_queue /\
  (r <- read_next 2 64 ;; release 2 r) fresh_queue = Ok tt fresh_queue.
Proof.
  split.
  - apply (proj1 (safe_read_release_identity 2 64 1 fresh_queue
                    ltac:(lia) ltac:(by vm_compute) ltac:(reflexivity)
                    ltac:(by vm_compute)) Head);
      [reflexivity|congruence].
  - apply (proj2 (safe_read_release_identity 2 32 1 fresh_queue
                    ltac:(lia) ltac:(by vm_compute) ltac:(reflexivity)
                    ltac:(by vm_compute)) 64).
    reflexivity.
Defined.

(** X3.  [release]: the null pointer is ignored; a counter other than 1 is
    decremented and nothing else happens; decrementing [INT_MIN] and
    releasing an address that holds no node are undefined behaviour; when
    the counter is 1 and the link has no referent, the counter becomes 0
    and the node is pushed on the free list, its link taking the old head
    of the free list. *)
Theorem release_cases fuel p s :
  (3 <= fuel)%nat ->
  (p = 0 -> release fuel p s = Ok tt s) /\
  (p <> 0 -> cell s (CounterOf p) = None -> release fuel p s = Fault) /\
  (p <> 0 -> cell s (CounterOf p) = Some int_min ->
   release fuel p s = Fault) /\
  (forall n, p <> 0 -> cell s (CounterOf p) = Some n ->
     n <> int_min -> n <> 1 ->
     release fuel p s = Ok tt (put (CounterOf p) (n - 1) s)) /\
  (forall nx, p <> 0 -> cell s (CounterOf p) = Some 1 ->
     cell s (NextOf p) = Some nx -> get_unmarked nx = 0 ->
     release fuel p s =
     Ok tt (put FreeList p
              (put (NextOf p) (free_list s) (put (CounterOf p) 0 s)))).
Proof.
  intros Hf. split_and!.
  - intros ->. apply release_null. lia.
  - intros Hp Hc. apply release_unallocated; [lia|done..].
  - intros Hp Hc. apply release_overflow; [lia|done..].
  - intros n Hp Hc Hmin H1. apply release_keep; [lia|done..].
  - intros nx Hp Hc Hnx Hun. by eapply release_last.
Qed.

Lemma release_cases_witness :
  release 3 0 fresh_queue = Ok tt fresh_queue /\
  release 3 32 fresh_queue =
    Ok tt (put FreeList 32
             (put (NextOf 32) (free_list fresh_queue)
                (put (CounterOf 32) 0 fresh_queue))) /\
  release 3 96 fresh_queue = Fault.
Proof.
  split; [|split].
  - by apply (proj1 (release_cases 3 0 fresh_queue ltac:(lia))).
  - apply (proj2 (proj2 (proj2 (proj2
             (release_cases 3 32 fresh_queue ltac:(lia))))) 0).
    + lia.
    + reflexivity.
    + reflexivity.
    + reflexivity.
  - apply (proj1 (proj2 (release_cases 3 96 fresh_queue ltac:(lia)))).
    + lia.
    + reflexivity.
Defined.

(** X4.  Dropping the last reference of a node also drops the reference
    the node's link holds on its successor (line 80): when the counter is
    1 and the unmarked link is a node other than the node itself, whose
    counter is not 1, the successor's counter is decremented, and the node
    is pushed on the free list with counter 0. *)
Theorem release_cascade fuel p nx m s :
  (4 <= fuel)%nat -> p <> 0 -> cell s (CounterOf p) = Some 1 ->
  cell s (NextOf p) = Some nx ->
  get_unmarked nx <> 0 -> get_unmarked nx <> p ->
  cell s (CounterOf (get_unmarked nx)) = Some m -> m <> int_min -> m <> 1 ->
  exists s',
    release fuel p s = Ok tt s' /\
    free_list s' = p /\
    cell s' (NextOf p) = Some (free_list s) /\
    cell s' (CounterOf p) = Some 0 /\
    cell s' (CounterOf (get_unmarked nx)) = Some (m - 1) /\
    (forall c, c <> FreeList -> c <> NextOf p -> c <> CounterOf p ->
               c <> CounterOf (get_unmarked nx) -> cell s' c = cell s c).
Proof.
  intros Hf Hp Hc Hnx Hy Hyp Hm Hmin H1.
  eexists. split; [by eapply release_last_next|].
  split; [done|].
  assert (CounterOf (get_unmarked nx) <> CounterOf p) by congruence.
  split_and!.
  - rewrite cell_put_ne by congruence. eapply cell_put_eq. cells.
  - cells.
  - cells.
  - intros c H1' H2' H3' H4'. by rewrite !cell_put_ne.
Qed.

Lemma release_cascade_witness :
  exists s',
    release 4 64 (put (CounterOf 32) 2 fresh_queue) = Ok tt s' /\
    free_list s' = 64 /\
    cell s' (NextOf 64) = Some (free_list (put (CounterOf 32) 2 fresh_queue)) /\
    cell s' (CounterOf 64) = Some 0 /\
    cell s' (CounterOf (get_unmarked 32)) = Some (2 - 1) /\
    (forall c, c <> FreeList -> c <> NextOf 64 -> c <> CounterOf 64 ->
               c <> CounterOf (get_unmarked 32) ->
               cell s' c = cell (put (CounterOf 32) 2 fresh_queue) c).
Proof.
  apply (release_cascade 4 64 32 2 (put (CounterOf 32) 2 fresh_queue)).
  - lia.
  - lia.
  - reflexivity.
  - reflexivity.
  - vm_compute. congruence.
  - vm_compute. congruence.
  - reflexivity.
  - vm_compute. congruence.
  - lia.
Defined.



(** X6.  The constructor, run on storage in which nothing lies at or above
    the allocation pointer and whatever the members held before: when two
    nodes fit, it returns an empty queue: the free list is null, [tail] is
    a node with key [INT_MIN], [head] a node with key [INT_MAX] linked to
    [tail], both with counter 1 and a null value, and no older node is
    touched.  When two nodes do not fit, [operator new] throws. *)
Theorem priority_queue_ctor_spec s :
  0 < brk s -> is_marked (brk s) = false ->
  (forall p, brk s <= p -> mem s !! p = None) ->
  (brk s + 2 * node_stride <= uintptr_max + 1 ->
   exists s',
     priority_queue_ctor s = Ok tt s' /\
     inv s' [] [] [] /\ free_list s' = 0 /\
     tail s' = brk s /\ head s' = brk s + node_stride /\
     mem s' !! tail s' = Some (mkNode int_min 1 0 0) /\
     mem s' !! head s' = Some (mkNode int_max 1 0 (tail s')) /\
     (forall p, p < brk s -> mem s' !! p = mem s !! p)) /\
  (~ brk s + 2 * node_stride <= uintptr_max + 1 ->
   priority_queue_ctor s = BadAlloc).
Proof.
  intros Hpos Hev Hfree. split; [|apply ctor_oom].
  intros Hroom. eexists. split; [by apply ctor_run|].
  pose proof (is_marked_add_stride _ Hev) as Hev1.
  pose proof (is_marked_add_stride _ Hev1) as Hev2.
  assert (brk s + node_stride <> brk s) as Hne by (unfold node_stride; lia).
  split; [|split_and!]; cbn [head tail free_list brk mem]; try done.
  - constructor; cbn [head tail free_list brk mem app chain cell].
    + repeat constructor; rewrite ?elem_of_cons, ?elem_of_nil;
        unfold node_stride; lia.
    + repeat constructor; try done; unfold node_stride in *; lia.
    + intros p Hp. rewrite !lookup_insert_ne by (unfold node_stride in *; lia).
      apply Hfree. unfold node_stride in *. lia.
    + split; [unfold node_stride; lia|].
      by replace (brk s + 2 * node_stride)
        with (brk s + node_stride + node_stride) by lia.
    + by rewrite lookup_insert_eq.
    + rewrite lookup_insert_ne by done. by rewrite lookup_insert_eq.
    + rewrite lookup_insert_ne by done. by rewrite lookup_insert_eq.
    + rewrite lookup_insert_eq, lookup_insert_ne, lookup_insert_eq by done.
      done.
    + exists (brk s). by rewrite lookup_insert_eq.
    + constructor.
    + constructor.
    + constructor.
    + constructor.
    + done.
    + constructor.
  - rewrite lookup_insert_ne by done. by rewrite lookup_insert_eq.
  - by rewrite lookup_insert_eq.
  - intros p Hp. rewrite !lookup_insert_ne by (unfold node_stride; lia). done.
Qed.

Lemma priority_queue_ctor_spec_witness :
  exists s',
    priority_queue_ctor blank = Ok tt s' /\
    inv s' [] [] [] /\ free_list s' = 0 /\
    tail s' = brk blank /\ head s' = brk blank + node_stride /\
    mem s' !! tail s' = Some (mkNode int_min 1 0 0) /\
    mem s' !! head s' = Some (mkNode int_max 1 0 (tail s')) /\
    (forall p, p < brk blank -> mem s' !! p = mem blank !! p).
Proof.
  apply (proj1 (priority_queue_ctor_spec blank ltac:(by vm_compute)
                  ltac:(reflexivity) ltac:(intros p _; reflexivity))).
  by vm_compute.
Defined.

(** X7.  When the free list is empty and no further node fits in the
    address space, [get_new_node] lets the exception of [operator new]
    escape, and so does [insert]. *)
Theorem insert_bad_alloc fuel v k s :
  (1 <= fuel)%nat -> free_list s = 0 ->
  ~ brk s + node_stride <= uintptr_max + 1 ->
  get_new_node fuel v k s = BadAlloc /\ insert fuel v k s = BadAlloc.
Proof.
  intros Hf Hfl Hroom.
  pose proof (get_new_node_bad_alloc fuel v k s Hf Hfl Hroom) as H.
  split; [done|]. unfold insert, bind. by rewrite H.
Qed.

Lemma insert_bad_alloc_witness :
  get_new_node 1 1000 7 (mkQueue ∅ 0 0 0 (uintptr_max - 15)) = BadAlloc /\
  insert 1 1000 7 (mkQueue ∅ 0 0 0 (uintptr_max - 15)) = BadAlloc.
Proof.
  apply (insert_bad_alloc 1 1000 7 (mkQueue ∅ 0 0 0 (uintptr_max - 15))).
  - lia.
  - reflexivity.
  - by vm_compute.
Defined.

(** X8.  [pop( )] on a quiescent queue returns the payload of the first
    entry of the list that is not yet claimed, marks that entry as
    claimed, and unlinks the claimed entries in front of it; no live entry
    has a larger key.  When every entry is claimed it returns null and
    leaves the list empty. *)
Theorem pop_first_live fuel s V :
  Inv s V -> (length V + 5 <= fuel)%nat ->
  (Forall (fun e => live e = false) V ->
   exists s', pop fuel s = Ok 0 s' /\ Inv s' []) /\
  (forall V1 k v V2,
     V = V1 ++ (k, v) :: V2 ->
     Forall (fun e => live e = false) V1 -> live (k, v) = true ->
     exists s',
       pop fuel s = Ok v s' /\ Inv s' ((k, get_marked v) :: V2) /\
       Forall (fun e => live e = true -> fst e <= k) V).
Proof.
  intros Hi Hf. destruct (pop_spec fuel s V Hi Hf) as (s' & Hrun & Hi').
  split.
  - intros Hall. rewrite (abs_pop_all_claimed _ Hall) in Hrun.
    rewrite (abs_pop_all_claimed _ Hall) in Hi'.
    by exists s'.
  - intros V1 k v V2 -> H1 Hv.
    rewrite (abs_pop_skips_claimed _ _ _ _ H1 Hv) in Hrun.
    rewrite (abs_pop_skips_claimed _ _ _ _ H1 Hv) in Hi'.
    cbn [fst snd] in Hrun, Hi'.
    exists s'. split; [done|]. split; [done|].
    apply Forall_app. split.
    + eapply Forall_impl; [exact H1|]. intros e He Hl. congruence.
    + constructor; [simpl; lia|].
      apply Inv_sorted in Hi. apply sorted_after_prefix in Hi.
      eapply Forall_impl; [exact Hi|]. by intros e He _.
Qed.

Lemma pop_first_live_witness :
  exists s1 s',
    insert_all 6 [(1000, 3); (2000, 8)] fresh_queue = Ok tt s1 /\
    pop 7 s1 = Ok 2000 s' /\ Inv s' [(8, get_marked 2000); (3, 1000)] /\
    Forall (fun e : entry => live e = true -> fst e <= 8) [(8, 2000); (3, 1000)].
Proof.
  destruct (insert_all_spec 6 [(1000, 3); (2000, 8)] fresh_queue []
              fresh_queue_Inv) as (s1 & Hins & Hi1 & _).
  { repeat constructor; by vm_compute. }
  { by vm_compute. }
  { simpl. lia. }
  exists s1.
  destruct (proj2 (pop_first_live 7 s1 [(8, 2000); (3, 1000)] Hi1
                     ltac:(simpl; lia)) [] 8 2000 [(3, 1000)])
    as (s' & H); [reflexivity|constructor|reflexivity|].
  exists s'. split; [exact Hins|exact H].
Defined.

(** X10.  The [pop( )] that takes an entry whose payload is null returns
    null although the queue was not empty, and the entry is consumed.  The
    first loop of the destructor stops at that null: it deletes nothing
    and leaves the entries behind it in the list. *)
Theorem pop_null_payload fuel s (V1 V2 : list entry) (k : Z) :
  Inv s (V1 ++ (k, 0) :: V2) -> Forall (fun e => live e = false) V1 ->
  (length V1 + length V2 + 6 <= fuel)%nat ->
  exists s',
    pop fuel s = Ok 0 s' /\ drain fuel s = Ok [] s' /\
    Inv s' ((k, 1) :: V2).
Proof.
  intros Hi H1 Hf.
  destruct (pop_spec fuel s _ Hi) as (s' & Hrun & Hi').
  { rewrite length_app. simpl. lia. }
  rewrite (abs_pop_skips_claimed V1 k 0 V2 H1 eq_refl) in Hrun.
  rewrite (abs_pop_skips_claimed V1 k 0 V2 H1 eq_refl) in Hi'.
  cbn [fst snd] in Hrun, Hi'.
  exists s'. split; [done|]. split; [|done].
  unfold drain. destruct fuel as [|fuel]; [lia|]. apply loop_exit.
  unfold drain_step. by erewrite bind_ok by exact Hrun.
Qed.

Lemma pop_null_payload_witness :
  exists s1 s',
    insert_all 6 [(1000, 3); (0, 8)] fresh_queue = Ok tt s1 /\
    pop 7 s1 = Ok 0 s' /\ drain 7 s1 = Ok [] s' /\
    Inv s' [(8, 1); (3, 1000)].
Proof.
  destruct (insert_all_spec 6 [(1000, 3); (0, 8)] fresh_queue []
              fresh_queue_Inv) as (s1 & Hins & Hi1 & _).
  { repeat constructor; by vm_compute. }
  { by vm_compute. }
  { simpl. lia. }
  exists s1.
  destruct (pop_null_payload 7 s1 [] [(3, 1000)] 8 Hi1)
    as (s' & H); [constructor|simpl; lia|].
  exists s'. split; [exact Hins|exact H].
Defined.



(** X12.  The destructor on a quiescent queue whose payloads are non-null:
    it hands to [delete] the payloads of the live entries, each once and
    in list order; it deletes [head], [tail], every node of the free list
    and every list node whose counter was 1, each once; a list node whose
    counter was 2 (a node that had been taken from the free list) is not
    deleted; and no other node is touched. *)
Theorem dtor_spec fuel s V L F :
  inv s V L F -> Forall nonnull V ->
  (length V + length F + 6 <= fuel)%nat ->
  exists s',
    priority_queue_dtor fuel s = Ok (abs_drain V) s' /\
    (forall p, p ∈ head s :: tail s :: F -> mem s' !! p = None) /\
    (forall p, p ∈ L -> cell s (CounterOf p) = Some 1 ->
               mem s' !! p = None) /\
    (forall p, p ∈ L -> cell s (CounterOf p) = Some 2 ->
               is_Some (mem s' !! p)) /\
    (forall p, p ∉ tracked s L F -> mem s' !! p = mem s !! p).
Proof. apply dtor_trace. Qed.

Lemma dtor_spec_witness :
  exists s1 s2 s3 s4 s',
    insert 8 1000 5 fresh_queue = Ok tt s1 /\
    pop 8 s1 = Ok 1000 s2 /\ pop 8 s2 = Ok 0 s3 /\
    insert 8 2000 9 s3 = Ok tt s4 /\
    priority_queue_dtor 8 s4 = Ok (abs_drain [(9, 2000)]) s' /\
    (forall p, p ∈ head s4 :: tail s4 :: [] -> mem s' !! p = None) /\
    (forall p, p ∈ [brk fresh_queue] -> cell s4 (CounterOf p) = Some 1 ->
               mem s' !! p = None) /\
    (forall p, p ∈ [brk fresh_queue] -> cell s4 (CounterOf p) = Some 2 ->
               is_Some (mem s' !! p)) /\
    (forall p, p ∉ tracked s4 [brk fresh_queue] [] ->
               mem s' !! p = mem s4 !! p).
Proof.
  destruct (insert_into_empty 8 fresh_queue 1000 5 [] fresh_queue_inv)
    as (s1 & x & F1 & Hins1 & Hi1 & [(? & _)|(_ & -> & -> & Hb1 & Hc1)]);
    [by vm_compute|lia|right; by vm_compute|done|].
  destruct (pop_single_live 8 s1 5 1000 _ [] Hi1 eq_refl ltac:(lia))
    as (s2 & Hpop2 & Hi2 & Hb2 & Hc2).
  destruct (pop_single_claimed 8 s2 5 (get_marked 1000) _ [] Hi2
              eq_refl ltac:(lia))
    as (s3 & F3 & Hpop3 & Hi3 & Hb3 & _ & HF3 & _).
  rewrite HF3 in Hi3 by congruence.
  destruct (insert_into_empty 8 s3 2000 9 _ Hi3)
    as (s4 & x & F4 & Hins4 & Hi4 & [(HF & Hb4 & Hc4)|(? & _)]);
    [by vm_compute|lia| | |done].
  { left. destruct (inv_free_list_cons _ _ _ _ _ Hi3). congruence. }
  injection HF as <- <-.
  exists s1, s2, s3, s4.
  destruct (dtor_spec 8 s4 [(9, 2000)] [brk fresh_queue] [] Hi4)
    as (s' & H).
  - repeat constructor. by vm_compute.
  - simpl. lia.
  - exists s'. split; [exact Hins1|]. split; [exact Hpop2|].
    split; [exact Hpop3|]. split; [exact Hins4|]. exact H.
Defined.

(** X13.  A queue that is built, filled by [insert] alone and destroyed
    gives back all its storage: the destructor hands every payload to
    [delete], each once, and afterwards no node is left allocated. *)
Theorem dtor_frees_all fuel ops :
  Forall (fun op => payload (fst op)) ops ->
  brk fresh_queue + node_stride * Z.of_nat (length ops) <= uintptr_max + 1 ->
  (length ops + 6 <= fuel)%nat ->
  exists s1 s2 out,
    insert_all fuel ops fresh_queue = Ok tt s1 /\
    priority_queue_dtor fuel s1 = Ok out s2 /\
    out ≡ₚ map fst ops /\ mem s2 = ∅.
Proof.
  intros Hp Hroom Hf.
  destruct (insert_all_fresh fuel ops fresh_queue [] [] fresh_queue_inv
              fresh_queue_closed)
    as (s1 & L1 & Hins & Hi1 & Hcl1 & Hun1); [constructor| |done|simpl; lia|].
  { eapply Forall_impl; [exact Hp|]. intros op. apply payload_uintptr. }
  assert (Forall (fun e : entry => payload (snd e)) (abs_insert_all ops []))
    as Hpay.
  { rewrite abs_insert_all_perm, app_nil_r, Forall_fmap.
    eapply Forall_impl; [exact Hp|]. by intros op. }
  destruct (dtor_trace fuel s1 _ L1 [] Hi1)
    as (s2 & Hdtor & Hst & Hl1 & _ & Hout).
  { eapply Forall_impl; [exact Hpay|]. intros e. apply payload_nonzero. }
  { rewrite abs_insert_all_length. simpl. lia. }
  exists s1, s2, (abs_drain (abs_insert_all ops [])). split_and!; try done.
  - rewrite abs_drain_live.
    + rewrite abs_insert_all_perm, app_nil_r.
      rewrite <- !list_fmap_compose. done.
    + eapply Forall_impl; [exact Hpay|]. intros e. apply payload_unmarked.
  - apply map_eq. intros p. rewrite lookup_empty.
    destruct (decide (p ∈ tracked s1 L1 [])) as [Hin|Hnot].
    + unfold tracked in Hin. rewrite app_nil_r in Hin.
      rewrite !elem_of_cons in Hin. destruct Hin as [->|[->|Hin]].
      * apply Hst. by left.
      * apply Hst. right. by left.
      * apply Hl1; [done|].
        unfold unshared in Hun1. rewrite Forall_forall in Hun1. by apply Hun1.
    + rewrite (Hout _ Hnot).
      destruct (mem s1 !! p) eqn:E; [|done].
      exfalso. apply Hnot, Hcl1. by rewrite E.
Qed.

Lemma dtor_frees_all_witness :
  exists s1 s2 out,
    insert_all 8 [(1000, 3); (2000, 8)] fresh_queue = Ok tt s1 /\
    priority_queue_dtor 8 s1 = Ok out s2 /\
    out ≡ₚ map fst [(1000, 3); (2000, 8)] /\ mem s2 = ∅.
Proof.
  apply (dtor_frees_all 8 [(1000, 3); (2000, 8)]).
  - repeat constructor; by vm_compute.
  - by vm_compute.
  - simpl. lia.
Defined.

(** X14.  Whatever the state, a returning [pop( )] leaves [head] and
    [tail] as they were, allocates nothing and frees nothing: the same
    addresses hold nodes afterwards. *)
Theorem pop_keeps_nodes fuel s r s' :
  pop fuel s = Ok r s' ->
  head s' = head s /\ tail s' = tail s /\ brk s' = brk s /\
  forall p, is_Some (mem s' !! p) <-> is_Some (mem s !! p).
Proof.
  intros Hrun. exact (keeps_pop _ _ _ _ Hrun).
Qed.

Lemma pop_keeps_nodes_witness :
  exists s',
    pop 6 one_free_node = Ok 0 s' /\
    head s' = head one_free_node /\ tail s' = tail one_free_node /\
    brk s' = brk one_free_node /\
    forall p, is_Some (mem s' !! p) <-> is_Some (mem one_free_node !! p).
Proof.
  eexists. split; [vm_compute; reflexivity|].
  apply (pop_keeps_nodes 6 one_free_node 0).
  vm_compute. reflexivity.
Defined.

(** X15.  Whatever the state, a returning [insert] leaves [head] and [tail]
    as they were and allocates at most one node: either no address changes
    hands, or exactly the address [operator new] returned holds a node that
    it did not hold before. *)
Theorem insert_allocates_at_most_one fuel v k s s' :
  insert fuel v k s = Ok tt s' ->
  head s' = head s /\ tail s' = tail s /\
  ((brk s' = brk s /\
    forall p, is_Some (mem s' !! p) <-> is_Some (mem s !! p)) \/
   (brk s' = brk s + node_stride /\
    forall p, is_Some (mem s' !! p) <-> is_Some (mem s !! p) \/ p = brk s)).
Proof.
  unfold insert, bind.
  destruct (get_new_node fuel v k s) as [x s1| | | |] eqn:E; try done.
  apply keeps_get_new_node in E. intros Hrun.
  eapply (one_more_same_nodes _ _ _ E).
  eapply (keeps_loop same_nodes); [apply same_nodes_trans| |exact Hrun].
  intros []. apply keeps_insert_step.
Qed.

Lemma insert_allocates_at_most_one_witness :
  exists s',
    insert 4 1000 7 fresh_queue = Ok tt s' /\
    head s' = head fresh_queue /\ tail s' = tail fresh_queue /\
    ((brk s' = brk fresh_queue /\
      forall p, is_Some (mem s' !! p) <-> is_Some (mem fresh_queue !! p)) \/
     (brk s' = brk fresh_queue + node_stride /\
      forall p, is_Some (mem s' !! p) <->
                is_Some (mem fresh_queue !! p) \/ p = brk fresh_queue)).
Proof.
  eexists. split; [vm_compute; reflexivity|].
  apply (insert_allocates_at_most_one 4 1000 7 fresh_queue).
  vm_compute. reflexivity.
Defined.

(** X16.  [reserve( size )] whose loop counter starts at [i0] adds
    [size - i0] nodes to the front of the free list, none when [i0] is not
    below [size]; it adds exactly [size] nodes when the counter happens to
    start at 0.  The entries of the list are the same. *)
Theorem reserve_count fuel i0 k0 v0 size s V L F :
  inv s V L F -> (3 <= fuel)%nat -> (Z.to_nat (size - i0) < fuel)%nat ->
  brk s + node_stride * Z.of_nat (Z.to_nat (size - i0)) <= uintptr_max + 1 ->
  exists s' F',
    reserve fuel i0 k0 v0 size s = Ok tt s' /\
    inv s' V L (F' ++ F) /\
    length F' = Z.to_nat (size - i0) /\
    (i0 = 0 -> 0 <= size -> Z.of_nat (length F') = size).
Proof.
  intros Hi Hf Hn Hroom.
  destruct (reserve_adds fuel k0 v0 size Hf (Z.to_nat (size - i0)) i0 s V L F
              fuel Hi eq_refl Hroom Hn) as (s' & F' & Hrun & Hi' & Hlen).
  exists s', F'. split_and!; try done.
  intros -> Hs. rewrite Hlen. lia.
Qed.

Lemma reserve_count_witness :
  exists s' F',
    reserve 4 0 0 0 3 fresh_queue = Ok tt s' /\
    inv s' [] [] (F' ++ []) /\
    length F' = Z.to_nat (3 - 0) /\
    (0 = 0 -> 0 <= 3 -> Z.of_nat (length F') = 3).
Proof.
  apply (reserve_count 4 0 0 0 3 fresh_queue [] [] [] fresh_queue_inv).
  - lia.
  - simpl. lia.
  - by vm_compute.
Defined.



(** X18.  Whatever the state and whatever its loop counter starts from, a
    returning [reserve] leaves [head] and [tail] as they were and frees
    nothing: every address that held a node still holds one. *)
Theorem reserve_keeps_nodes fuel i0 k0 v0 size s s' :
  reserve fuel i0 k0 v0 size s = Ok tt s' ->
  head s' = head s /\ tail s' = tail s /\ brk s <= brk s' /\
  forall p, is_Some (mem s !! p) -> is_Some (mem s' !! p).
Proof. apply keeps_reserve. Qed.

Lemma reserve_keeps_nodes_witness :
  exists s',
    reserve 4 0 0 0 2 fresh_queue = Ok tt s' /\
    head s' = head fresh_queue /\ tail s' = tail fresh_queue /\
    brk fresh_queue <= brk s' /\
    forall p, is_Some (mem fresh_queue !! p) -> is_Some (mem s' !! p).
Proof.
  eexists. split; [vm_compute; reflexivity|].
  apply (reserve_keeps_nodes 4 0 0 0 2 fresh_queue).
  vm_compute. reflexivity.
Defined.

(** X19.  [help_delete] on the node that follows [head], called by a thread
    that holds a reference on it: the link of [head] is swung to the node's
    successor, the node's own link is overwritten with 1, the node loses
    the reference the list held on it, and the function returns [head]
    with one more reference; nothing else changes. *)
Theorem help_delete_unlinks fuel s a nx ch ca :
  (4 <= fuel)%nat ->
  head s <> a -> a <> tail s ->
  valid_ptr (head s) -> valid_ptr a -> valid_ptr nx ->
  cell s (NextOf (head s)) = Some a ->
  cell s (NextOf a) = Some nx ->
  cell s (CounterOf (head s)) = Some ch -> 0 <= ch < int_max ->
  cell s (CounterOf a) = Some ca -> 2 <= ca < int_max ->
  exists s',
    help_delete fuel a s = Ok (head s) s' /\
    cell s' (NextOf (head s)) = Some nx /\
    cell s' (NextOf a) = Some 1 /\
    cell s' (CounterOf (head s)) = Some (ch + 1) /\
    cell s' (CounterOf a) = Some (ca - 1) /\
    (forall c, c <> NextOf (head s) -> c <> NextOf a ->
               c <> CounterOf (head s) -> c <> CounterOf a ->
               cell s' c = cell s c).
Proof.
  intros Hf Hha Hat Vh Va Vnx Hnh Hna Hch Hchr Hca Hcar.
  eexists. split.
  { by eapply (help_delete_first fuel s (head s) a nx ch ca). }
  assert (NextOf (head s) <> NextOf a) by congruence.
  assert (CounterOf (head s) <> CounterOf a) by congruence.
  split_and!; try cells.
  intros c H1 H2 H3 H4. by rewrite !cell_put_ne.
Qed.

Lemma help_delete_unlinks_witness :
  exists s',
    help_delete 4 96 claimed_entry = Ok (head claimed_entry) s' /\
    cell s' (NextOf (head claimed_entry)) = Some 32 /\
    cell s' (NextOf 96) = Some 1 /\
    cell s' (CounterOf (head claimed_entry)) = Some (1 + 1) /\
    cell s' (CounterOf 96) = Some (2 - 1) /\
    (forall c, c <> NextOf (head claimed_entry) -> c <> NextOf 96 ->
               c <> CounterOf (head claimed_entry) -> c <> CounterOf 96 ->
               cell s' c = cell claimed_entry c).
Proof.
  apply (help_delete_unlinks 4 claimed_entry 96 32 1 2).
  - lia.
  - by vm_compute.
  - by vm_compute.
  - by vm_compute.
  - by vm_compute.
  - by vm_compute.
  - reflexivity.
  - reflexivity.
  - reflexivity.
  - by vm_compute.
  - reflexivity.
  - by vm_compute.
Defined.

(** X21.  What is inserted with a key above every live key is what the
    next [pop( )] returns. *)
Theorem insert_pop_roundtrip fuel s V v k :
  Inv s V -> payload v ->
  Forall (fun e => live e = true -> fst e < k) V ->
  free_list s <> 0 \/ brk s + node_stride <= uintptr_max + 1 ->
  (length V + 6 <= fuel)%nat ->
  exists s1 s2, insert fuel v k s = Ok tt s1 /\ pop fuel s1 = Ok v s2.
Proof.
  intros Hi Hv Hall Hroom Hf.
  destruct (insert_spec fuel v k s V Hi (payload_uintptr _ Hv) Hroom)
    as (s1 & Hins & Hi1 & _); [lia|].
  destruct (abs_insert_split k v V (Inv_sorted _ _ Hi))
    as (V1 & V2 & HV & Habs & H1 & _).
  destruct (pop_spec fuel s1 _ Hi1) as (s2 & Hpop & _).
  { rewrite abs_insert_length. lia. }
  exists s1, s2. split; [done|].
  rewrite Habs in Hpop. rewrite abs_pop_skips_claimed in Hpop; [done| |].
  - rewrite Forall_forall in H1, Hall |- *. intros e He.
    destruct (live e) eqn:El; [|done].
    assert (e ∈ V) as HeV by (rewrite HV; apply elem_of_app; by left).
    specialize (H1 e He). specialize (Hall e HeV El). simpl in H1. lia.
  - unfold live. cbn [snd]. by rewrite (payload_unmarked _ Hv).
Qed.

Lemma insert_pop_roundtrip_witness :
  exists s0 s1 s2,
    insert 6 1000 3 fresh_queue = Ok tt s0 /\
    insert 7 2000 8 s0 = Ok tt s1 /\ pop 7 s1 = Ok 2000 s2.
Proof.
  destruct (insert_spec 6 1000 3 fresh_queue [] fresh_queue_Inv)
    as (s0 & Hins & Hi0 & Hb).
  { by vm_compute. }
  { right. by vm_compute. }
  { simpl. lia. }
  exists s0.
  destruct (insert_pop_roundtrip 7 s0 [(3, 1000)] 2000 8 Hi0)
    as (s1 & s2 & H).
  - by vm_compute.
  - constructor; [intros _; simpl; lia|constructor].
  - right. rewrite fresh_queue_brk in Hb. unfold node_stride in *.
    assert (brk s0 <= 128) by lia.
    unfold uintptr_max, uintptr_bits. lia.
  - simpl. lia.
  - exists s1, s2. split; [exact Hins|exact H].
Defined.

(** X22.  A payload pointer with an odd address is taken for an entry
    that has already been claimed: [insert] links it, but the [pop( )]
    calls that drain the queue return exactly what they would have
    returned without it, and leave the list empty. *)
Theorem odd_payload_lost fuel s V v k :
  Inv s V -> Forall nonnull V -> is_uintptr v -> is_marked v = true ->
  free_list s <> 0 \/ brk s + node_stride <= uintptr_max + 1 ->
  (length V + 6 <= fuel)%nat ->
  exists s1 s2,
    insert fuel v k s = Ok tt s1 /\ Inv s1 (abs_insert k v V) /\
    drain fuel s1 = Ok (abs_drain V) s2 /\ Inv s2 [].
Proof.
  intros Hi Hnn Hv Hm Hroom Hf.
  destruct (insert_spec fuel v k s V Hi Hv Hroom)
    as (s1 & Hins & Hi1 & _); [lia|].
  destruct (drain_spec fuel s1 _ Hi1) as (s2 & Hdrain & Hi2).
  { rewrite abs_insert_perm. constructor; [|done].
    unfold nonnull. cbn [snd]. by apply marked_nonzero. }
  { rewrite abs_insert_length. lia. }
  exists s1, s2. split_and!; try done.
  by rewrite abs_drain_insert_marked in Hdrain.
Qed.

Lemma odd_payload_lost_witness :
  exists s1 s2,
    insert 6 1001 7 fresh_queue = Ok tt s1 /\
    Inv s1 (abs_insert 7 1001 []) /\
    drain 6 s1 = Ok (abs_drain []) s2 /\ Inv s2 [].
Proof.
  apply (odd_payload_lost 6 fresh_queue [] 1001 7 fresh_queue_Inv).
  - constructor.
  - by vm_compute.
  - reflexivity.
  - right. by vm_compute.
  - simpl. lia.
Defined.

(** X23.  On a pointer value the tag is the parity: a value is marked
    exactly when it is odd, marking an even value adds 1, unmarking an odd
    value subtracts 1, and both leave a value that already has the wanted
    parity as it is. *)
Theorem tag_is_parity p :
  0 <= p <= uintptr_max ->
  is_marked p = Z.odd p /\
  get_marked p = (if Z.odd p then p else p + 1) /\
  get_unmarked p = (if Z.odd p then p - 1 else p).
Proof.
  intros Hp. split; [apply is_marked_odd|].
  split; [apply get_marked_spec|by apply get_unmarked_spec].
Qed.

Lemma tag_is_parity_witness :
  is_marked 96 = Z.odd 96 /\
  get_marked 96 = (if Z.odd 96 then 96 else 96 + 1) /\
  get_unmarked 96 = (if Z.odd 96 then 96 - 1 else 96).
Proof. apply (tag_is_parity 96). by vm_compute. Defined.

(** X24.  Whatever the state, what [pop( )] returns is never a tagged
    pointer: it is null or the payload with its low bit cleared. *)
Theorem pop_result_unmarked fuel s r s' :
  pop fuel s = Ok r s' -> is_marked r = false.
Proof.
  unfold pop, bind.
  destruct (pop_loop fuel _ s) as [o s1| | | |] eqn:E; try done.
  apply pop_loop_unmarked in E.
  destruct o; intros [= <- _]; done.
Qed.

Lemma pop_result_unmarked_witness :
  exists s1 s',
    insert 4 1000 5 fresh_queue = Ok tt s1 /\
    pop 6 s1 = Ok 1000 s' /\ is_marked 1000 = false.
Proof.
  destruct (insert_spec 4 1000 5 fresh_queue [] fresh_queue_Inv)
    as (s1 & Hins & Hi1 & _).
  { by vm_compute. }
  { right. by vm_compute. }
  { simpl. lia. }
  destruct (pop_spec 6 s1 _ Hi1 ltac:(simpl; lia)) as (s' & Hpop & _).
  change (fst (abs_pop (fun _ => false) (abs_insert 5 1000 [])))
    with 1000 in Hpop.
  exists s1, s'. split; [exact Hins|]. split; [exact Hpop|].
  apply (pop_result_unmarked 6 s1 1000 s'). exact Hpop.
Defined.
